(** * Node.js streams log pipeline: embedding and verified properties

    The development follows the repository's JavaScript:

    - [GenerateLogs]: the log generator script (LOG_LEVELS, MESSAGES,
      randomFrom, generateLogLine, class LogGenerator with _read);
    - [Batcher]: the Transform of the guide's "Mistake 4" section, the
      corrected variant with _flush;
    - the stages the guide only declares (Filter, Formatter,
      ProgressTracker, RateGovernor), the Flow Controller and the
      Orchestrator, modelled from the specification text.

    JavaScript numbers that count lines or items are modelled as
    mathematical integers: every counter here starts at 0 and grows by
    one, so it stays an exactly represented integer for any run that can
    be carried out. The draws of Math.random() are rationals in
    [GenerateLogs], where only the range of the index matters; which
    element a draw selects is studied in [Binary64], where the draw and
    the product are IEEE 754 binary64 numbers. *)

From Stdlib Require Import ZArith List Sorted String Ascii Bool Arith Lia ZifyNat.
From Stdlib Require Import QArith Qround.
From Stdlib Require Import DecimalString.
From Stdlib Require Import SpecFloat.
Import ListNotations.

Local Open Scope string_scope.
Local Open Scope list_scope.
Local Open Scope nat_scope.

(* ================================================================== *)
(** * Part I: definitions                                              *)
(* ================================================================== *)

(** ** JavaScript string and number helpers used by the script *)
Module JS.

(** A value that may be [undefined]: array reads out of range and
    lookups of absent keys. *)
Definition maybe (A : Type) := option A.

(** Template-literal interpolation of a possibly undefined string. *)
Definition interpolate (v : maybe string) : string :=
  match v with
  | Some s => s
  | None => "undefined"
  end.

(** [arr[i]] for a number [i] that is an integer. *)
Definition index {A : Type} (arr : list A) (i : Z) : maybe A :=
  if (i <? 0)%Z then None else nth_error arr (Z.to_nat i).

(** [Math.floor] on an exact rational. *)
Definition Math_floor (x : Q) : Z := Qfloor x.

(** [String(n)] for a non-negative integer. *)
Definition Number_toString (n : N) : string :=
  NilEmpty.string_of_uint (N.to_uint n).

Fixpoint repeat_char (c : ascii) (n : nat) : string :=
  match n with
  | O => ""
  | S k => String c (repeat_char c k)
  end.

(** [s.padStart(width, '0')]. *)
Definition padStart0 (width : nat) (s : string) : string :=
  repeat_char "0"%char (width - String.length s) ++ s.

(** [s.replace(a, b)] with one-character strings: only the first
    occurrence is replaced. *)
Fixpoint replace_first (a b : ascii) (s : string) : string :=
  match s with
  | EmptyString => EmptyString
  | String c rest =>
      if Ascii.eqb c a then String b rest
      else String c (replace_first a b rest)
  end.

(** [s.slice(0, n)]. *)
Definition slice0 (n : nat) (s : string) : string := String.substring 0 n s.

(** The broken-down UTC fields of a [Date]. *)
Record Date : Type := mkDate {
  year : Z;
  month : N;        (* 1..12 *)
  day : N;          (* 1..31 *)
  hours : N;
  minutes : N;
  seconds : N;
  milliseconds : N
}.

(** The fields of a [Date] are always in these ranges; the year of a
    valid time value lies within -271821..275760. *)
Definition Date_fields_ok (d : Date) : bool :=
  ((1 <=? month d) && (month d <=? 12) &&
   (1 <=? day d) && (day d <=? 31) &&
   (hours d <? 24) && (minutes d <? 60) && (seconds d <? 60) &&
   (milliseconds d <? 1000))%N.

(** Year part of [Date.prototype.toISOString]: four digits for years
    0..9999, otherwise a sign and six digits. *)
Definition iso_year (y : Z) : string :=
  if ((0 <=? y) && (y <=? 9999))%Z
  then padStart0 4 (Number_toString (Z.to_N y))
  else (if (y <? 0)%Z then "-" else "+")
         ++ padStart0 6 (Number_toString (Z.abs_N y)).

Definition pad2 (n : N) : string := padStart0 2 (Number_toString n).
Definition pad3 (n : N) : string := padStart0 3 (Number_toString n).

(** [Date.prototype.toISOString]: YYYY-MM-DDTHH:mm:ss.sssZ. *)
Definition toISOString (d : Date) : string :=
  iso_year (year d) ++ "-" ++ pad2 (month d) ++ "-" ++ pad2 (day d) ++ "T"
    ++ pad2 (hours d) ++ ":" ++ pad2 (minutes d) ++ ":" ++ pad2 (seconds d)
    ++ "." ++ pad3 (milliseconds d) ++ "Z".

End JS.

(** ** The log generator script *)
Module GenerateLogs.

Definition LOG_LEVELS : list string := ["INFO"; "WARN"; "ERROR"; "DEBUG"].

(** The object literal MESSAGES, in key order. *)
Definition MESSAGES : list (string * list string) :=
  [ ("INFO", ["Server started"; "User logged in"; "Request received";
              "Cache hit"; "Connection established"]);
    ("WARN", ["Slow response"; "High memory usage"; "Retry attempt";
              "Rate limit near"; "Disk space low"]);
    ("ERROR", ["Database connection failed"; "Timeout exceeded";
               "File not found"; "Auth failed"; "Null pointer"]);
    ("DEBUG", ["Processing request"; "Cache miss"; "Query executed";
               "Session created"; "Event emitted"]) ].

(** Property read [obj[key]]. *)
Fixpoint lookup (key : string) (obj : list (string * list string))
  : JS.maybe (list string) :=
  match obj with
  | [] => None
  | (k, v) :: rest => if String.eqb k key then Some v else lookup key rest
  end.

(** [randomFrom(arr)], given the number [r] that Math.random() returned.
    The product is exact here; [Binary64.randomFrom] below rounds it as
    the engine does. *)
Definition randomFrom (arr : list string) (r : Q) : JS.maybe string :=
  JS.index arr (JS.Math_floor (r * inject_Z (Z.of_nat (List.length arr)))).

(** What one call of generateLogLine reads from its environment: the
    clock and two draws of Math.random(). *)
Record Env : Type := mkEnv {
  clock : JS.Date;
  draw_level : Q;
  draw_message : Q
}.

(** Math.random() returns a number in the half-open interval from 0 to 1. *)
Definition draw_ok (r : Q) : bool := Qle_bool 0 r && negb (Qle_bool 1 r).

(** [generateLogLine()]. [None] stands for the TypeError raised by
    [randomFrom(undefined)] reading [arr.length]. *)
Definition generateLogLine (env : Env) : option string :=
  let now := JS.slice0 19 (JS.replace_first "T" " " (JS.toISOString (clock env))) in
  let level := randomFrom LOG_LEVELS (draw_level env) in
  match level with
  | None => None
  | Some lvl =>
      match lookup lvl MESSAGES with
      | None => None
      | Some msgs =>
          let message := randomFrom msgs (draw_message env) in
          Some ("[" ++ now ++ "] [" ++ lvl ++ "] " ++ JS.interpolate message
                  ++ String (ascii_of_nat 10) "")%string
      end
  end.

(** *** class LogGenerator extends Readable *)

Record LogGenerator : Type := mkLogGenerator {
  totalLines : Z;
  currentLine : Z
}.

(** The default of the constructor's parameter, [100_000]. *)
Definition default_totalLines : Z := 100000.

(** [new LogGenerator(totalLines)]. *)
Definition constructor (total : Z) : LogGenerator :=
  {| totalLines := total; currentLine := 0 |}.

(** [new LogGenerator()]. *)
Definition constructor_default : LogGenerator := constructor default_totalLines.

(** What [this.push] receives: a line, or [null] for end of input. *)
Inductive Chunk : Type :=
| Data (line : string)
| EndOfStream.

(** The progress message of _read, kept as its two numbers. *)
Record ProgressLog : Type := mkProgressLog {
  generated : Z;
  target : Z
}.

(** Result of one call of _read: the object after the call, the chunks
    pushed in order and the console output, or the exception of
    generateLogLine. *)
Inductive Outcome : Type :=
| Returned (g : LogGenerator) (pushed : list Chunk) (console : list ProgressLog)
| Thrown.

(** [_read()]. The remainder is JavaScript's [%], which truncates. *)
Definition _read (env : Env) (g : LogGenerator) : Outcome :=
  if (totalLines g <=? currentLine g)%Z then
    Returned g [EndOfStream] []
  else
    match generateLogLine env with
    | None => Thrown
    | Some line =>
        let g' := {| totalLines := totalLines g;
                     currentLine := currentLine g + 1 |} in
        Returned g' [Data line]
          (if (Z.rem (currentLine g') 10000 =? 0)%Z
           then [mkProgressLog (currentLine g') (totalLines g')]
           else [])
    end.

Definition is_end (c : Chunk) : bool :=
  match c with
  | EndOfStream => true
  | Data _ => false
  end.

Definition is_data (c : Chunk) : bool := negb (is_end c).

(** How a run of the stream stopped. *)
Inductive Status : Type :=
| Ended        (* null was pushed *)
| Pending      (* the consumer has not asked for more yet *)
| Errored.     (* _read threw *)

(** The Readable base class, as far as the generator depends on it: it
    calls _read again and again, and never again once null has been
    pushed. [fuel] bounds the number of calls; [envs k] is the
    environment of call number [k]. The result is every chunk pushed, in
    order. *)
Fixpoint drive (fuel : nat) (envs : nat -> Env) (k : nat) (g : LogGenerator)
  : list Chunk * Status * LogGenerator :=
  match fuel with
  | O => ([], Pending, g)
  | S fuel' =>
      match _read (envs k) g with
      | Thrown => ([], Errored, g)
      | Returned g' out _ =>
          if existsb is_end out then (out, Ended, g')
          else
            let '(rest, st, gf) := drive fuel' envs (S k) g' in
            (out ++ rest, st, gf)
      end
  end.

End GenerateLogs.

(** ** The record grammar of the input format:
    [[YYYY-MM-DD HH:MM:SS] [LEVEL] Message], newline-terminated *)
Module RecordGrammar.

Definition newline : ascii := ascii_of_nat 10.

Definition is_digit (c : ascii) : bool :=
  (48 <=? nat_of_ascii c) && (nat_of_ascii c <=? 57).

Inductive token : Type :=
| Digit
| Lit (c : ascii).

(** Consume a prefix described by tokens; the rest of the string is
    returned. *)
Fixpoint match_tokens (p : list token) (s : string) : option string :=
  match p with
  | [] => Some s
  | t :: p' =>
      match s with
      | EmptyString => None
      | String c rest =>
          let ok := match t with
                    | Digit => is_digit c
                    | Lit l => Ascii.eqb c l
                    end in
          if ok then match_tokens p' rest else None
      end
  end.

Definition timestamp_tokens : list token :=
  [Digit; Digit; Digit; Digit; Lit "-"; Digit; Digit; Lit "-"; Digit; Digit;
   Lit " ";
   Digit; Digit; Lit ":"; Digit; Digit; Lit ":"; Digit; Digit]%char.

Definition LEVELS : list string := ["INFO"; "WARN"; "ERROR"; "DEBUG"].

Fixpoint strip_prefix (p s : string) : option string :=
  match p with
  | EmptyString => Some s
  | String a p' =>
      match s with
      | EmptyString => None
      | String c rest => if Ascii.eqb a c then strip_prefix p' rest else None
      end
  end.

(** A non-empty message without line breaks, then exactly one newline
    and nothing after it. *)
Fixpoint message_then_newline (s : string) : bool :=
  match s with
  | EmptyString => false
  | String c rest =>
      negb (Ascii.eqb c newline)
      && (String.eqb rest (String newline "") || message_then_newline rest)
  end.

(** The text after the timestamp's closing bracket: [ [LEVEL] Message\n]
    for the given level. *)
Definition level_and_message (lvl rest : string) : bool :=
  match strip_prefix (lvl ++ "] ") rest with
  | Some msg => message_then_newline msg
  | None => false
  end.

(** The level of a line of the format, if it has one. *)
Definition level_of (line : string) : option string :=
  match match_tokens (Lit "["%char :: timestamp_tokens
                        ++ [Lit "]"; Lit " "; Lit "["]%char) line with
  | None => None
  | Some rest => List.find (fun lvl => level_and_message lvl rest) LEVELS
  end.

Definition matches (line : string) : bool :=
  match level_of line with
  | Some _ => true
  | None => false
  end.

End RecordGrammar.

(** ** class Batcher extends Transform (the guide's corrected variant) *)
Module Batcher.

Section WithItems.

Variable Item : Type.

(** The size at which a batch is pushed: the literal [10] of the guide,
    the constructor argument of the challenge's template. *)
Variable batchSize : nat.

(** The object's only field, [this.batch]. *)
Record State : Type := mkState { batch : list Item }.

Definition constructor : State := {| batch := [] |}.

(** [_transform(item, enc, cb)]: the new state and what was pushed. *)
Definition _transform (st : State) (item : Item) : State * list (list Item) :=
  let b := batch st ++ [item] in
  if List.length b =? batchSize
  then ({| batch := [] |}, [b])
  else ({| batch := b |}, []).

(** [_flush(cb)]: what is pushed at end of input. *)
Definition _flush (st : State) : list (list Item) :=
  if 0 <? List.length (batch st) then [batch st] else [].

(** The Transform base class feeds the written items to _transform in
    order; the pushes are collected in order. *)
Fixpoint feed (st : State) (input : list Item) : State * list (list Item) :=
  match input with
  | [] => (st, [])
  | item :: rest =>
      let '(st1, out1) := _transform st item in
      let '(st2, out2) := feed st1 rest in
      (st2, out1 ++ out2)
  end.

(** A whole run: every item, then _flush when the input has ended. *)
Definition run (input : list Item) : list (list Item) :=
  let '(st, out) := feed constructor input in
  out ++ _flush st.

End WithItems.

Arguments batch {Item} _.
Arguments mkState {Item} _.
Arguments constructor {Item}.
Arguments _transform {Item} batchSize st item.
Arguments _flush {Item} st.
Arguments feed {Item} batchSize st input.
Arguments run {Item} batchSize input.

(** The batch size written in the guide. *)
Definition guide_batchSize : nat := 10.

End Batcher.

(** ** Errors and the completion report shared by the pipeline *)
Module Pipeline.

(** Modelled from the spec: the error taxonomy of its section 7 (the
    repository's code has no error type of its own). *)
Inductive ErrorKind : Type :=
| SourceError
| ParseError
| StageError
| SinkError
| CapacityViolation.

(** Modelled from the spec: only a malformed record is recoverable. *)
Definition fatal (k : ErrorKind) : bool :=
  match k with
  | ParseError => false
  | _ => true
  end.

(** Modelled from the spec: ProcessingError, [{kind, stageName, cause}]. *)
Record ProcessingError : Type := mkError {
  kind : ErrorKind;
  stageName : string;
  cause : string
}.

(** Modelled from the spec: the completion report of its section 6. *)
Record CompletionReport : Type := mkReport {
  itemsIn : nat;
  itemsOut : nat;
  malformedCount : nat;
  batchesEmitted : nat;
  error : option ProcessingError
}.

(** Modelled from the spec: what one call of a stage's transform does.
    It carries on with a new state and the records it emitted, or raises
    a fatal error. *)
Inductive StepResult (S O : Type) : Type :=
| Continue (st : S) (out : list O)
| Abort (err : ProcessingError).

Arguments Continue {S O} st out.
Arguments Abort {S O} err.

(** Modelled from the spec: a stage is fed its input in arrival order
    until the input ends or the stage raises; the result is the final
    state, everything emitted, and the error if there was one. *)
Fixpoint run_stage {S I O : Type} (transform : S -> I -> StepResult S O)
  (st : S) (input : list I) : S * list O * option ProcessingError :=
  match input with
  | [] => (st, [], None)
  | x :: rest =>
      match transform st x with
      | Abort err => (st, [], Some err)
      | Continue st1 out1 =>
          let '(st2, out2, e) := run_stage transform st1 rest in
          (st2, out1 ++ out2, e)
      end
  end.

End Pipeline.

(** ** Filter stage *)
Module Filter.

Section WithPredicate.

Variable Item : Type.

(** The configured predicate; [None] is an exception raised by it. *)
Variable predicate : Item -> option bool.

(** Modelled from the spec: the Filter stage, which the repository only
    declares (class ErrorFilter of the challenge template). It is
    stateless, passes a matching record unchanged, drops the others, and
    a failing predicate is a fatal StageError naming the stage. *)
Definition transform (st : unit) (item : Item)
  : Pipeline.StepResult unit Item :=
  match predicate item with
  | Some true => Pipeline.Continue st [item]
  | Some false => Pipeline.Continue st []
  | None =>
      Pipeline.Abort (Pipeline.mkError Pipeline.StageError "Filter"
                        "predicate raised")
  end.

Definition run (input : list Item)
  : unit * list Item * option Pipeline.ProcessingError :=
  Pipeline.run_stage transform tt input.

(** The records the predicate accepts, the predicate read as a plain
    test. *)
Definition accepts (item : Item) : bool :=
  match predicate item with
  | Some true => true
  | _ => false
  end.

End WithPredicate.

Arguments transform {Item} predicate st item.
Arguments run {Item} predicate input.
Arguments accepts {Item} predicate item.

End Filter.

(** ** Formatter stage *)
Module Formatter.

(** Modelled from the spec: the structured record of its section 6
    (the challenge text shows the same three fields). *)
Record StructuredRecord : Type := mkRecord {
  timestamp : string;
  level : string;
  message : string
}.

(** The text before the first occurrence of [c] and the text after it. *)
Fixpoint split_at (c : ascii) (s : string) : option (string * string) :=
  match s with
  | EmptyString => None
  | String a rest =>
      if Ascii.eqb a c then Some (EmptyString, rest)
      else
        match split_at c rest with
        | Some (before, after) => Some (String a before, after)
        | None => None
        end
  end.

Definition non_empty (s : string) : bool :=
  match s with
  | EmptyString => false
  | String _ _ => true
  end.

(** Modelled from the spec: the Formatter's grammar [[TS] [LEVEL] MESSAGE]
    (class JSONFormatter is only declared in the challenge template): an
    opening bracket, the timestamp up to the closing bracket, a space,
    the bracketed level, a space and the message, none of the three
    empty. *)
Definition parse (line : string) : option StructuredRecord :=
  match line with
  | String "["%char r1 =>
      match split_at "]" r1 with
      | Some (ts, r2) =>
          match RecordGrammar.strip_prefix " [" r2 with
          | Some r3 =>
              match split_at "]" r3 with
              | Some (lvl, r4) =>
                  match RecordGrammar.strip_prefix " " r4 with
                  | Some msg =>
                      if non_empty ts && non_empty lvl && non_empty msg
                      then Some (mkRecord ts lvl msg)
                      else None
                  | None => None
                  end
              | None => None
              end
          | None => None
          end
      | None => None
      end
  | _ => None
  end.

(** Modelled from the spec: the stage's only state, the malformed-line
    counter. *)
Record State : Type := mkState { malformed : nat }.

Definition init : State := {| malformed := 0 |}.

(** Modelled from the spec: the Formatter's transform. A line of the
    grammar becomes one structured record; any other line increments the
    counter, emits nothing and lets the run go on. *)
Definition transform (st : State) (line : string)
  : Pipeline.StepResult State StructuredRecord :=
  match parse line with
  | Some r => Pipeline.Continue st [r]
  | None => Pipeline.Continue {| malformed := malformed st + 1 |} []
  end.

Definition run (lines : list string)
  : State * list StructuredRecord * option Pipeline.ProcessingError :=
  Pipeline.run_stage transform init lines.

(** The three parts of a run's result. *)
Definition emitted (lines : list string) : list StructuredRecord :=
  snd (fst (run lines)).

Definition malformed_after (lines : list string) : nat :=
  malformed (fst (fst (run lines))).

Definition failure (lines : list string) : option Pipeline.ProcessingError :=
  snd (run lines).

(** Modelled from the spec: the completion report of a run of the
    Formatter alone (no batching behind it). *)
Definition report (lines : list string) : Pipeline.CompletionReport :=
  let '(st, out, e) := run lines in
  {| Pipeline.itemsIn := List.length lines;
     Pipeline.itemsOut := List.length out;
     Pipeline.malformedCount := malformed st;
     Pipeline.batchesEmitted := 0;
     Pipeline.error := e |}.

Definition is_malformed (line : string) : bool :=
  match parse line with
  | Some _ => false
  | None => true
  end.

End Formatter.

(** ** Progress Tracker stage *)
Module ProgressTracker.

(** Modelled from the spec: what the tracker keeps, the configured total,
    the items counted and the last decile reported. *)
Record State : Type := mkState {
  totalExpectedItems : nat;
  count : nat;
  lastDecile : nat
}.

(** Modelled from the spec: a notification on the side channel. *)
Record Report : Type := mkReport {
  percent : nat;
  at_count : nat
}.

Definition init (total : nat) : State :=
  {| totalExpectedItems := total; count := 0; lastDecile := 0 |}.

(** Modelled from the spec: floor(count * 10 / total). *)
Definition decile (total c : nat) : nat := c * 10 / total.

Section WithItems.

Variable Item : Type.

(** Modelled from the spec: the Progress Tracker's transform (class
    ProgressTracker is only declared in the challenge template). The item
    passes through; it is counted; with a total of 0 nothing is
    reported; otherwise a report is made when the decile
    floor(count * 10 / total) is above the last one reported. *)
Definition transform (st : State) (item : Item)
  : State * list Item * list Report :=
  let c := count st + 1 in
  if totalExpectedItems st =? 0 then
    ({| totalExpectedItems := totalExpectedItems st; count := c;
        lastDecile := lastDecile st |}, [item], [])
  else
    let d := decile (totalExpectedItems st) c in
    if lastDecile st <? d then
      ({| totalExpectedItems := totalExpectedItems st; count := c;
          lastDecile := d |}, [item], [mkReport (d * 10) c])
    else
      ({| totalExpectedItems := totalExpectedItems st; count := c;
          lastDecile := lastDecile st |}, [item], []).

Fixpoint feed (st : State) (input : list Item)
  : State * list Item * list Report :=
  match input with
  | [] => (st, [], [])
  | item :: rest =>
      let '(st1, out1, rep1) := transform st item in
      let '(st2, out2, rep2) := feed st1 rest in
      (st2, out1 ++ out2, rep1 ++ rep2)
  end.

(** The reports of a whole run, in order. *)
Definition reports (total : nat) (input : list Item) : list Report :=
  snd (feed (init total) input).

End WithItems.

Arguments transform {Item} st item.
Arguments feed {Item} st input.
Arguments reports {Item} total input.

End ProgressTracker.

(** ** Rate Governor stage *)
Module RateGovernor.

(** Modelled from the spec: the window, one second, in milliseconds of
    the injected clock. *)
Definition window : nat := 1000.

(** Modelled from the spec: the token counter, the start of the current
    window and the time the stage is busy until. *)
Record State : Type := mkState {
  tokens : nat;
  windowStart : nat;
  busyUntil : nat     (* when the previous item was emitted *)
}.

Definition init (itemsPerSecond : nat) : State :=
  {| tokens := itemsPerSecond; windowStart := 0; busyUntil := 0 |}.

Section WithRate.

Variable itemsPerSecond : nat.
Variable Item : Type.

(** Modelled from the spec: the windows follow one another without
    gaps; when the current one has elapsed the counter is reset for the
    window that contains [now]. *)
Definition roll (st : State) (now : nat) : State :=
  if windowStart st + window <=? now then
    {| tokens := itemsPerSecond;
       windowStart :=
         windowStart st + window * ((now - windowStart st) / window);
       busyUntil := busyUntil st |}
  else st.

(** Modelled from the spec: the Rate Governor's transform (class
    RateLimiter is only declared in the challenge template), with the
    clock injected. An item handed over at [arrival] is looked at once
    the previous one is out. It takes a token of the current window and
    is emitted at once; with no token left the stage suspends until the
    window boundary, resets the counter and emits then. The result is
    the new state and the item with its emission time. *)
Definition transform (st : State) (arrival : nat) (item : Item)
  : State * (nat * Item) :=
  let now := Nat.max arrival (busyUntil st) in
  let st1 := roll st now in
  if tokens st1 =? 0 then
    let boundary := windowStart st1 + window in
    ({| tokens := itemsPerSecond - 1; windowStart := boundary;
        busyUntil := boundary |}, (boundary, item))
  else
    ({| tokens := tokens st1 - 1; windowStart := windowStart st1;
        busyUntil := now |}, (now, item)).

Fixpoint feed (st : State) (input : list (nat * Item))
  : State * list (nat * Item) :=
  match input with
  | [] => (st, [])
  | (arrival, item) :: rest =>
      let '(st1, e) := transform st arrival item in
      let '(st2, es) := feed st1 rest in
      (st2, e :: es)
  end.

(** A whole run: the items with their emission times, in order. *)
Definition run (input : list (nat * Item)) : list (nat * Item) :=
  snd (feed (init itemsPerSecond) input).

(** The number of emissions in the window of [w] milliseconds that
    starts at [t]. *)
Definition emitted_in (es : list (nat * Item)) (t w : nat) : nat :=
  List.length
    (List.filter (fun e => (t <=? fst e) && (fst e <? t + w)) es).

(** The governor's own window an emission falls in, by number. *)
Definition slot (e : nat * Item) : nat := fst e / window.

Definition emitted_in_slot (es : list (nat * Item)) (k : nat) : nat :=
  List.length (List.filter (fun e => slot e =? k) es).

End WithRate.

Arguments transform itemsPerSecond {Item} st arrival item.
Arguments feed itemsPerSecond {Item} st input.
Arguments run itemsPerSecond {Item} input.
Arguments emitted_in {Item} es t w.
Arguments slot {Item} e.
Arguments emitted_in_slot {Item} es k.

(** A state the governor can be in: the window starts on a boundary,
    no more tokens than the rate, and the last emission is not before
    the window's start. *)
Definition good (itemsPerSecond : nat) (st : State) : Prop :=
  windowStart st mod window = 0
  /\ tokens st <= itemsPerSecond
  /\ windowStart st <= busyUntil st.

(** ceil(W) for a window of [w] milliseconds, W = w / 1000 seconds. *)
Definition ceil_seconds (w : nat) : nat := (w + 999) / 1000.

(** The first boundary between two windows of the governor at or after
    the time [t]. *)
Definition next_boundary (t : nat) : nat := window * ceil_seconds t.

End RateGovernor.

(** ** Flow Controller: the credit protocol of a link *)
Module FlowController.

Section WithItems.

Variable Item : Type.

(** Modelled from the spec: a bounded buffer between two endpoints (a
    channel link or a stage's input buffer) with the credit its
    downstream end advertises. *)
Record Link : Type := mkLink {
  capacity : nat;
  credit : nat;
  buffer : list Item
}.

(** A new link advertises its whole capacity. *)
Definition open (cap : nat) : Link :=
  {| capacity := cap; credit := cap; buffer := [] |}.

(** Modelled from the spec: the upstream side of the protocol (the
    repository has no Flow Controller of its own). An item may be
    emitted only while the credit is positive, and costs one credit;
    [None] means the upstream endpoint must suspend. *)
Definition offer (l : Link) (r : Item) : option Link :=
  if 0 <? credit l then
    Some {| capacity := capacity l; credit := credit l - 1;
            buffer := buffer l ++ [r] |}
  else None.

(** Modelled from the spec: the downstream side. Consuming the oldest
    buffered item is followed by the drained notification, which gives
    one credit back. *)
Definition take (l : Link) : option (Item * Link) :=
  match buffer l with
  | [] => None
  | r :: rest =>
      Some (r, {| capacity := capacity l; credit := credit l + 1;
                  buffer := rest |})
  end.

Fixpoint update (i : nat) (x : Link) (ls : list Link) : list Link :=
  match ls, i with
  | [], _ => []
  | _ :: rest, O => x :: rest
  | l :: rest, S j => l :: update j x rest
  end.

(** Modelled from the spec: the Source's remaining input, the links in
    downstream order with a stage between each two neighbours, and what
    the Sink has received. *)
Record Pipeline : Type := mkPipeline {
  source : list Item;
  links : list Link;
  sunk : list Item
}.

Definition init (caps : list nat) (input : list Item) : Pipeline :=
  {| source := input; links := List.map open caps; sunk := [] |}.

(** Modelled from the spec: one scheduling step. [Pull]: the Source
    emits its next record into the first link. [Move i out]: the stage
    between link [i] and link [i + 1] handles the oldest record of link
    [i], [out] being what its transform emits for it (nothing or one
    record). [Deliver]: the Sink consumes from the last link. *)
Inductive Action : Type :=
| Pull
| Move (i : nat) (out : option Item)
| Deliver.

(** Modelled from the spec: the effect of a step. One that is not
    possible (nothing to take, no credit) leaves the pipeline as it is:
    the endpoint stays suspended. *)
Definition step (p : Pipeline) (a : Action) : Pipeline :=
  match a with
  | Pull =>
      match source p, nth_error (links p) 0 with
      | r :: rest, Some l =>
          match offer l r with
          | Some l' =>
              {| source := rest; links := update 0 l' (links p);
                 sunk := sunk p |}
          | None => p
          end
      | _, _ => p
      end
  | Move i out =>
      match nth_error (links p) i, nth_error (links p) (S i) with
      | Some up, Some down =>
          match take up, out with
          | Some (_, up'), None =>
              {| source := source p; links := update i up' (links p);
                 sunk := sunk p |}
          | Some (_, up'), Some o =>
              match offer down o with
              | Some down' =>
                  {| source := source p;
                     links := update (S i) down' (update i up' (links p));
                     sunk := sunk p |}
              | None => p
              end
          | None, _ => p
          end
      | _, _ => p
      end
  | Deliver =>
      let i := List.length (links p) - 1 in
      match nth_error (links p) i with
      | Some l =>
          match take l with
          | Some (r, l') =>
              {| source := source p; links := update i l' (links p);
                 sunk := sunk p ++ [r] |}
          | None => p
          end
      | None => p
      end
  end.

Definition run (schedule : list Action) (p : Pipeline) : Pipeline :=
  List.fold_left step schedule p.

(** Records buffered but not yet delivered, over all links. *)
Definition buffered (p : Pipeline) : nat :=
  list_sum (List.map (fun l => List.length (buffer l)) (links p)).

End WithItems.

Arguments capacity {Item} _.
Arguments credit {Item} _.
Arguments buffer {Item} _.
Arguments open {Item} cap.
Arguments offer {Item} l r.
Arguments take {Item} l.
Arguments update {Item} i x ls.
Arguments source {Item} _.
Arguments links {Item} _.
Arguments sunk {Item} _.
Arguments init {Item} caps input.
Arguments Pull {Item}.
Arguments Move {Item} i out.
Arguments Deliver {Item}.
Arguments step {Item} p a.
Arguments run {Item} schedule p.
Arguments buffered {Item} p.

(** The credit of a link is its free capacity. *)
Definition link_ok {Item : Type} (l : Link Item) : Prop :=
  List.length (buffer l) + credit l = capacity l.

(** Every link of a pipeline respects its credit, and the links have the
    configured capacities. *)
Definition links_ok {Item : Type} (caps : list nat) (p : Pipeline Item) : Prop :=
  Forall link_ok (links p) /\ List.map capacity (links p) = caps.

End FlowController.

(** ** Pipeline Orchestrator *)
Module Orchestrator.

(** Modelled from the spec: the states of the Orchestrator. *)
Inductive Phase : Type :=
| Idle
| Running
| Draining
| Completed
| Failing
| Failed
| Cancelled.

Section WithSink.

Variable Batch : Type.

(** The Sink adapter, an external collaborator: processing a batch
    succeeds, or fails with the cause it reports. *)
Variable sink : Batch -> option string.

(** Modelled from the spec: what the Orchestrator reacts to. *)
Inductive Event : Type :=
| Start
| BatchReady (b : Batch)               (* the last stage hands a batch to the Sink *)
| Fatal (e : Pipeline.ProcessingError) (* a component reports a fatal error *)
| EndOfInput
| Drained                              (* every stage flushed, Sink closed *)
| ShutdownAcked                        (* teardown acknowledged or timed out *)
| Cancel.

(** Modelled from the spec: the phase, the canonical cause, the errors
    recorded during teardown and the batches handed to the Sink. *)
Record State : Type := mkState {
  phase : Phase;
  rootCause : option Pipeline.ProcessingError;
  recorded : list Pipeline.ProcessingError;
  delivered : list Batch
}.

Definition init : State :=
  {| phase := Idle; rootCause := None; recorded := []; delivered := [] |}.

Definition sink_error (c : string) : Pipeline.ProcessingError :=
  Pipeline.mkError Pipeline.SinkError "Sink" c.

(** The pipeline is moving data. *)
Definition live (ph : Phase) : bool :=
  match ph with
  | Running | Draining => true
  | _ => false
  end.

Definition fail_with (st : State) (e : Pipeline.ProcessingError) : State :=
  {| phase := Failing; rootCause := Some e; recorded := recorded st;
     delivered := delivered st |}.

Definition set_phase (st : State) (ph : Phase) : State :=
  {| phase := ph; rootCause := rootCause st; recorded := recorded st;
     delivered := delivered st |}.

(** Modelled from the spec: the Orchestrator's state machine (the
    repository has none; the guide only calls the library's pipeline).
    Idle, Running, then Draining and Completed, or Failing and Failed, or
    Cancelled. The first fatal error is kept as the cause and starts the
    teardown, during which nothing more is delivered and further errors
    are only recorded. *)
Definition step (st : State) (ev : Event) : State :=
  match phase st, ev with
  | Idle, Start => set_phase st Running
  | (Running | Draining), BatchReady b =>
      let st' := {| phase := phase st; rootCause := rootCause st;
                    recorded := recorded st;
                    delivered := delivered st ++ [b] |} in
      match sink b with
      | Some c => fail_with st' (sink_error c)
      | None => st'
      end
  | (Running | Draining), Fatal e =>
      if Pipeline.fatal (Pipeline.kind e) then fail_with st e else st
  | Running, EndOfInput => set_phase st Draining
  | Draining, Drained => set_phase st Completed
  | (Running | Draining), Cancel => set_phase st Cancelled
  | Failing, Fatal e =>
      {| phase := Failing; rootCause := rootCause st;
         recorded := recorded st ++ [e]; delivered := delivered st |}
  | Failing, ShutdownAcked => set_phase st Failed
  | _, _ => st
  end.

Definition run (trace : list Event) (st : State) : State :=
  List.fold_left step trace st.

(** Modelled from the spec: the errors raised to the caller. *)
Definition surfaced (st : State) : list Pipeline.ProcessingError :=
  match phase st, rootCause st with
  | Failed, Some e => [e]
  | _, _ => []
  end.

(** The fatal error an event brings, if any. *)
Definition raises (ev : Event) : option Pipeline.ProcessingError :=
  match ev with
  | BatchReady b => option_map sink_error (sink b)
  | Fatal e => if Pipeline.fatal (Pipeline.kind e) then Some e else None
  | _ => None
  end.

Definition is_ack (ev : Event) : bool :=
  match ev with
  | ShutdownAcked => true
  | _ => false
  end.

(** The errors reported during a teardown: those of the events up to the
    acknowledgement. *)
Fixpoint teardown_errors (trace : list Event) : list Pipeline.ProcessingError :=
  match trace with
  | [] => []
  | ShutdownAcked :: _ => []
  | Fatal e :: rest => e :: teardown_errors rest
  | _ :: rest => teardown_errors rest
  end.

End WithSink.

Arguments Start {Batch}.
Arguments BatchReady {Batch} b.
Arguments Fatal {Batch} e.
Arguments EndOfInput {Batch}.
Arguments Drained {Batch}.
Arguments ShutdownAcked {Batch}.
Arguments Cancel {Batch}.
Arguments phase {Batch} _.
Arguments rootCause {Batch} _.
Arguments recorded {Batch} _.
Arguments delivered {Batch} _.
Arguments init {Batch}.
Arguments step {Batch} sink st ev.
Arguments run {Batch} sink trace st.
Arguments surfaced {Batch} st.
Arguments raises {Batch} sink ev.
Arguments is_ack {Batch} ev.
Arguments teardown_errors {Batch} trace.

(** Either the teardown has begun (or ended), or no error has been kept
    or recorded yet. *)
Definition clean_or_failing {Batch : Type} (st : State Batch) : Prop :=
  (phase st = Failing \/ phase st = Failed)
  \/ (rootCause st = None /\ recorded st = []).

End Orchestrator.

(** ** Definitions used to state the properties *)

(** The single decimal digit of [k], as a character. *)
Definition digit (k : N) : ascii := ascii_of_N (48 + k mod 10).

(** [f] holds of every number below [n]. *)
Definition N_forallb (f : N -> bool) (n : N) : bool :=
  N.peano_rect (fun _ => bool) true (fun k acc => f k && acc) n.

(** The text [YYYY-MM-DD HH:MM:SS] of a date, digit by digit. *)
Definition timestamp_text (d : JS.Date) : string :=
  let y := Z.to_N (JS.year d) in
  String (digit (y / 1000))%N (
  String (digit (y / 100))%N (
  String (digit (y / 10))%N (
  String (digit y)%N (
  String "-" (
  String (digit (JS.month d / 10))%N (
  String (digit (JS.month d))%N (
  String "-" (
  String (digit (JS.day d / 10))%N (
  String (digit (JS.day d))%N (
  String " " (
  String (digit (JS.hours d / 10))%N (
  String (digit (JS.hours d))%N (
  String ":" (
  String (digit (JS.minutes d / 10))%N (
  String (digit (JS.minutes d))%N (
  String ":" (
  String (digit (JS.seconds d / 10))%N (
  String (digit (JS.seconds d))%N (
  EmptyString))))))))))))))))))).

(** Both draws of a call lie in the range of Math.random(). *)
Definition draws_ok (env : GenerateLogs.Env) : Prop :=
  GenerateLogs.draw_ok (GenerateLogs.draw_level env) = true
  /\ GenerateLogs.draw_ok (GenerateLogs.draw_message env) = true.

(** An environment for examples. *)
Definition sample_env : GenerateLogs.Env :=
  GenerateLogs.mkEnv (JS.mkDate 2024 1 1 10 30 45 7) (3 # 4) (1 # 5).

(** A Sink for examples: it fails on batch number 3. *)
Definition sample_sink (b : nat) : option string :=
  if b =? 3 then Some "disk full" else None.

(** A predicate for examples: the level of a numbered record is ERROR. *)
Definition is_error_level (r : nat * string) : option bool :=
  Some (String.eqb (snd r) "ERROR").

(** ** The rest of the log generator script: console output and the
    file written by generateLogFile *)
Module GenerateLogFile.

(** The Readable base class as in [GenerateLogs.drive], with the console
    output of the calls of _read collected, in order. *)
Fixpoint drive_console (fuel : nat) (envs : nat -> GenerateLogs.Env) (k : nat)
  (g : GenerateLogs.LogGenerator) : list GenerateLogs.ProgressLog :=
  match fuel with
  | O => []
  | S fuel' =>
      match GenerateLogs._read (envs k) g with
      | GenerateLogs.Thrown => []
      | GenerateLogs.Returned g' out logs =>
          if existsb GenerateLogs.is_end out then logs
          else logs ++ drive_console fuel' envs (S k) g'
      end
  end.

(** [logGenerator.pipe(fileWriter)], as far as generateLogFile depends on
    it: the file writer appends every chunk of data to the file, in the
    order pushed; the end mark adds nothing. *)
Fixpoint written (chunks : list GenerateLogs.Chunk) : string :=
  match chunks with
  | [] => EmptyString
  | GenerateLogs.Data line :: rest => (line ++ written rest)%string
  | GenerateLogs.EndOfStream :: rest => written rest
  end.

(** What [generateLogFile(outputPath, totalLines)] leaves behind: the
    content of the file, and whether the writer's finish event has fired
    (it fires once the generator has ended). *)
Record Outcome : Type := mkOutcome {
  content : string;
  finished : bool
}.

(** [generateLogFile(outputPath, totalLines)], run for at most [fuel]
    calls of _read. The messages it prints (elapsed time, file size) are
    left out. *)
Definition generateLogFile (fuel : nat) (envs : nat -> GenerateLogs.Env)
  (total : Z) : Outcome :=
  let '(chunks, status, _) :=
    GenerateLogs.drive fuel envs 0 (GenerateLogs.constructor total) in
  {| content := written chunks;
     finished := match status with
                 | GenerateLogs.Ended => true
                 | _ => false
                 end |}.

(** The environment of a call is as the claims on generateLogLine need
    it: both draws in the range of Math.random(), the fields of the clock
    in their ranges and its year of four digits. *)
Definition env_ok (env : GenerateLogs.Env) : Prop :=
  draws_ok env
  /\ JS.Date_fields_ok (GenerateLogs.clock env) = true
  /\ (0 <= JS.year (GenerateLogs.clock env) <= 9999)%Z.

(** The lines of a file laid end to end. *)
Definition join_lines (lines : list string) : string :=
  List.fold_right String.append EmptyString lines.

(** The number of line breaks of a text. *)
Fixpoint count_newlines (s : string) : nat :=
  match s with
  | EmptyString => 0
  | String c rest =>
      (if Ascii.eqb c RecordGrammar.newline then 1 else 0) + count_newlines rest
  end.

End GenerateLogFile.

(** ** Counting the error lines of a log (the guide's scenario 3) *)
Module ErrorScan.

(** [s.startsWith(p)]. *)
Fixpoint startsWith (p s : string) : bool :=
  match p with
  | EmptyString => true
  | String a p' =>
      match s with
      | EmptyString => false
      | String c rest => Ascii.eqb a c && startsWith p' rest
      end
  end.

(** [s.includes(p)]: [p] occurs somewhere in [s]. *)
Fixpoint includes (p s : string) : bool :=
  startsWith p s
  || match s with
     | EmptyString => false
     | String _ rest => includes p rest
     end.

(** The ['line'] handler: [if (line.includes('ERROR')) errorCount++]. *)
Definition on_line (errorCount : nat) (line : string) : nat :=
  if includes "ERROR" line then errorCount + 1 else errorCount.

(** The count printed at ['close'], the lines having arrived in order. *)
Definition errorCount (lines : list string) : nat :=
  List.fold_left on_line lines 0.

End ErrorScan.

(** ** class Batcher without _flush (the guide's "Mistake 4", wrong
    variant) *)
Module BatcherWithoutFlush.

(** The class has the constructor and the _transform of [Batcher] and no
    _flush: at the end of the input nothing more is pushed. *)
Definition run {Item : Type} (batchSize : nat) (input : list Item)
  : list (list Item) :=
  snd (Batcher.feed batchSize Batcher.constructor input).

(** What is still in [this.batch] when the input has ended. *)
Definition left_over {Item : Type} (batchSize : nat) (input : list Item)
  : list Item :=
  Batcher.batch (fst (Batcher.feed batchSize Batcher.constructor input)).

End BatcherWithoutFlush.

(** ** class Batcher with its arrays on a heap *)
Module BatcherHeap.

Section WithItems.

Variable Item : Type.
Variable batchSize : nat.

(** Arrays live in a store and are named by their position in it;
    [this.batch] holds such a name, and so does every batch pushed
    downstream. *)
Record State : Type := mkState {
  store : list (list Item);
  batch : nat
}.

(** [this.batch = []] of the constructor: one empty array. *)
Definition constructor : State := {| store := [[]]; batch := 0 |}.

(** The array named [r]; a name that was never allocated has no array. *)
Definition deref (st : State) (r : nat) : option (list Item) :=
  nth_error (store st) r.

Fixpoint set_nth (r : nat) (a : list Item) (s : list (list Item))
  : list (list Item) :=
  match s, r with
  | [], _ => []
  | _ :: rest, O => a :: rest
  | x :: rest, S r' => x :: set_nth r' a rest
  end.

(** [_transform(item, enc, cb)]: [this.batch.push(item)] changes the
    array in place; at the full size the array itself is pushed and
    [this.batch] is bound to a new empty array. The names pushed are
    returned. *)
Definition _transform (st : State) (item : Item) : State * list nat :=
  match deref st (batch st) with
  | None => (st, [])
  | Some a =>
      let a' := a ++ [item] in
      let s' := set_nth (batch st) a' (store st) in
      if List.length a' =? batchSize
      then ({| store := s' ++ [[]]; batch := List.length s' |}, [batch st])
      else ({| store := s'; batch := batch st |}, [])
  end.

(** [_flush(cb)]: the array of [this.batch] is pushed when it is not
    empty; [this.batch] stays bound to it. *)
Definition _flush (st : State) : list nat :=
  match deref st (batch st) with
  | Some (_ :: _) => [batch st]
  | _ => []
  end.

Fixpoint feed (st : State) (input : list Item) : State * list nat :=
  match input with
  | [] => (st, [])
  | item :: rest =>
      let '(st1, out1) := _transform st item in
      let '(st2, out2) := feed st1 rest in
      (st2, out1 ++ out2)
  end.

(** A whole run: the final store and the names pushed, in order. *)
Definition run (input : list Item) : State * list nat :=
  let '(st, out) := feed constructor input in
  (st, out ++ _flush st).

(** What the consumer of the names sees in a store. *)
Definition contents (st : State) (names : list nat) : list (option (list Item)) :=
  List.map (deref st) names.

End WithItems.

Arguments store {Item} _.
Arguments batch {Item} _.
Arguments mkState {Item} _ _.
Arguments constructor {Item}.
Arguments deref {Item} st r.
Arguments set_nth {Item} r a s.
Arguments _transform {Item} batchSize st item.
Arguments _flush {Item} st.
Arguments feed {Item} batchSize st input.
Arguments run {Item} batchSize input.
Arguments contents {Item} st names.

End BatcherHeap.

(** ** class CSVToJSON extends Transform (the guide's object-mode example) *)
Module CSVToJSON.

(** [s.split(sep)] for a one-character separator: the pieces between the
    separators, one piece more than there are separators. *)
Fixpoint split (sep : ascii) (s : string) : list string :=
  match s with
  | EmptyString => [EmptyString]
  | String c rest =>
      if Ascii.eqb c sep then EmptyString :: split sep rest
      else
        match split sep rest with
        | [] => [String c EmptyString]
        | piece :: pieces => String c piece :: pieces
        end
  end.

(** [pieces.join(sep)]. *)
Fixpoint join (sep : ascii) (pieces : list string) : string :=
  match pieces with
  | [] => EmptyString
  | [piece] => piece
  | piece :: rest => (piece ++ String sep (join sep rest))%string
  end.

(** An object built by the transform, as its own properties: [None] for
    a key it does not have, [Some v] for a key whose value is [v], which
    may be [undefined]. *)
Definition Object : Type := string -> option (JS.maybe string).

(** [{}]. *)
Definition empty : Object := fun _ => None.

(** [obj[key] = v]. Assigning a string or [undefined] to [__proto__]
    goes to the inherited setter, which ignores it: no property is
    made. *)
Definition assign (obj : Object) (key : string) (v : JS.maybe string) : Object :=
  if String.eqb key "__proto__" then obj
  else fun k => if String.eqb k key then Some v else obj k.

(** [headers.forEach((h, i) => { obj[h] = values[i]; })], from index [i]
    on. *)
Fixpoint fill (headers : list string) (values : list string) (i : nat)
  (obj : Object) : Object :=
  match headers with
  | [] => obj
  | h :: rest => fill rest values (S i) (assign obj h (nth_error values i))
  end.

(** [this.headers]: [null] until the first line has been seen. *)
Record State : Type := mkState { headers : option (list string) }.

Definition constructor : State := {| headers := None |}.

(** [_transform(line, encoding, callback)]. An array is never falsy, so
    only the first line takes the first branch. *)
Definition _transform (st : State) (line : string) : State * list Object :=
  match headers st with
  | None => ({| headers := Some (split "," line) |}, [])
  | Some hs => (st, [fill hs (split "," line) 0 empty])
  end.

Fixpoint feed (st : State) (lines : list string) : State * list Object :=
  match lines with
  | [] => (st, [])
  | line :: rest =>
      let '(st1, out1) := _transform st line in
      let '(st2, out2) := feed st1 rest in
      (st2, out1 ++ out2)
  end.

(** The objects pushed for the lines of a file, in order. *)
Definition run (lines : list string) : list Object :=
  snd (feed constructor lines).

(** No separator occurs in the text. *)
Fixpoint free_of (sep : ascii) (s : string) : bool :=
  match s with
  | EmptyString => true
  | String c rest => negb (Ascii.eqb c sep) && free_of sep rest
  end.

End CSVToJSON.

(** ** The database export (the guide's scenario 4) *)
Module DatabaseExport.

(** The rows of one query, [LIMIT 1000]. *)
Definition page_size : nat := 1000.

Section WithRows.

Variable Row : Type.

(** [db.query('SELECT * FROM users LIMIT 1000 OFFSET ?', [offset])], an
    external collaborator: the rows it answers with for an offset. *)
Variable query : nat -> list Row.

(** The loop of the async generator with the step between two offsets as
    a parameter: query at [offset]; stop on an empty answer; otherwise
    yield its rows in order and go on at [offset + step]. [fuel] bounds
    the number of queries; the result is what was yielded and whether the
    generator returned. *)
Fixpoint paged (step fuel offset : nat) : list Row * bool :=
  match fuel with
  | O => ([], false)
  | S fuel' =>
      match query offset with
      | [] => ([], true)
      | records =>
          let '(rest, done) := paged step fuel' (offset + step) in
          (records ++ rest, done)
      end
  end.

(** The generator handed to [Readable.from]: it starts at offset 0 and
    adds 1000 after each page. *)
Definition dbStream (fuel : nat) : list Row * bool := paged page_size fuel 0.

(** The number of queries made within [fuel]. *)
Fixpoint queries (step fuel offset : nat) : nat :=
  match fuel with
  | O => 0
  | S fuel' =>
      match query offset with
      | [] => 1
      | _ => S (queries step fuel' (offset + step))
      end
  end.

End WithRows.

Arguments paged {Row} query step fuel offset.
Arguments dbStream {Row} query fuel.
Arguments queries {Row} query step fuel offset.

(** A table that answers [LIMIT page_size OFFSET offset] from a fixed
    list of rows. *)
Definition table_query {Row : Type} (table : list Row) (offset : nat)
  : list Row :=
  List.firstn page_size (List.skipn offset table).

(** A record of the export, each field already in the text form the
    template literal gives it. *)
Record User : Type := mkUser {
  id : string;
  name : string;
  email : string
}.

(** The transform [toCSV]: [cb(null, `${record.id},${record.name},${record.email}\n`)]. *)
Definition toCSV (record : User) : string :=
  (id record ++ "," ++ name record ++ "," ++ email record
     ++ String RecordGrammar.newline "")%string.

(** The line of a record without its line break, as a line splitter
    hands it on. *)
Definition csv_line (record : User) : string :=
  (id record ++ "," ++ name record ++ "," ++ email record)%string.

End DatabaseExport.

(** ** Definitions used to state the further properties *)

(** ** randomFrom on binary64 numbers *)
Module Binary64.

(** A JavaScript Number is an IEEE 754 binary64 value: a mantissa of 53
    binary digits, exponents below 1024. *)
Definition prec : Z := 53.
Definition emax : Z := 1024.

(** The Number of an array length. *)
Definition of_nat (n : nat) : spec_float :=
  binary_normalize prec emax (Z.of_nat n) 0 false.

(** [x * y], rounded to the nearest Number, ties to even. *)
Definition mul (x y : spec_float) : spec_float := SFmul prec emax x y.

(** [Math.floor(x)] as an integer, for a finite [x]; both zeros give 0.
    [None] stands for NaN and the infinities, which Math.floor returns
    unchanged. *)
Definition Math_floor (x : spec_float) : option Z :=
  match x with
  | S754_zero _ => Some 0%Z
  | S754_finite s m e => Some (Z.shiftl (cond_Zopp s (Z.pos m)) e)
  | _ => None
  end.

(** Math.random() returns a Number that is at least 0 and less than 1. *)
Definition random_ok (r : spec_float) : bool :=
  valid_binary prec emax r
  && SFleb (S754_zero false) r
  && SFltb r (SFone prec emax).

(** [randomFrom(arr)], given the Number [r] that Math.random() returned:
    [arr[Math.floor(r * arr.length)]]. An index that is NaN or infinite
    names no element. *)
Definition randomFrom (arr : list string) (r : spec_float) : JS.maybe string :=
  match Math_floor (mul r (of_nat (List.length arr))) with
  | Some k => JS.index arr k
  | None => None
  end.

(** The Number [m * 2^e]. *)
Definition dyadic (m e : Z) : spec_float :=
  binary_normalize prec emax m e false.

End Binary64.

(** In the store [this.batch] names the newest array, and that array
    holds what the Batcher of the first part holds in its buffer. *)
Definition heap_matches {Item : Type} (st : BatcherHeap.State Item)
  (pst : Batcher.State Item) : Prop :=
  List.length (BatcherHeap.store st) = S (BatcherHeap.batch st)
  /\ BatcherHeap.deref st (BatcherHeap.batch st) = Some (Batcher.batch pst).

(** No field of the record contains a comma. *)
Definition comma_free (u : DatabaseExport.User) : Prop :=
  CSVToJSON.free_of "," (DatabaseExport.id u) = true
  /\ CSVToJSON.free_of "," (DatabaseExport.name u) = true
  /\ CSVToJSON.free_of "," (DatabaseExport.email u) = true.

(** What [k] right shifts of the rounding keep of the number [M]: the
    mantissa and the round bit never stand for more than [M]. *)
Definition shr_inv (M k : Z) (mrs : shr_record) : Prop :=
  (0 <= k
   /\ 0 <= shr_m mrs
   /\ shr_m mrs * 2 ^ k + (if shr_r mrs then 2 ^ (k - 1) else 0) <= M
   /\ (shr_r mrs = true -> 1 <= k))%Z.

(* ================================================================== *)
(** * Part II: properties                                              *)
(* ================================================================== *)

(** ** Batcher *)
Section BatcherFacts.

Context {Item : Type}.
Variable batchSize : nat.

Lemma Batcher_transform_keeps_records (st st' : Batcher.State Item)
  (item : Item) (out : list (list Item)) :
  Batcher._transform batchSize st item = (st', out) ->
  List.concat out ++ Batcher.batch st' = Batcher.batch st ++ [item].
Proof.
  unfold Batcher._transform.
  destruct (List.length (Batcher.batch st ++ [item]) =? batchSize);
    intros H; inversion H; subst; simpl.
  - now rewrite !app_nil_r.
  - reflexivity.
Qed.

Lemma Batcher_feed_keeps_records (input : list Item) :
  forall (st st' : Batcher.State Item) (out : list (list Item)),
    Batcher.feed batchSize st input = (st', out) ->
    List.concat out ++ Batcher.batch st' = Batcher.batch st ++ input.
Proof.
  induction input as [|item rest IH]; intros st st' out H; simpl in H.
  - inversion H; subst; simpl. now rewrite app_nil_r.
  - destruct (Batcher._transform batchSize st item) as [st1 out1] eqn:E1.
    destruct (Batcher.feed batchSize st1 rest) as [st2 out2] eqn:E2.
    inversion H; subst; clear H.
    apply Batcher_transform_keeps_records in E1.
    apply IH in E2.
    rewrite concat_app, <- app_assoc, E2, app_assoc, E1, <- app_assoc.
    reflexivity.
Qed.

Lemma Batcher_flush_keeps_records (st : Batcher.State Item) :
  List.concat (Batcher._flush st) = Batcher.batch st.
Proof.
  unfold Batcher._flush.
  destruct (Batcher.batch st) as [|x b]; simpl; [reflexivity|].
  now rewrite app_nil_r.
Qed.

Lemma Batcher_run_flatten (input : list Item) :
  List.concat (Batcher.run batchSize input) = input.
Proof.
  unfold Batcher.run.
  destruct (Batcher.feed batchSize Batcher.constructor input) as [st out] eqn:E.
  apply Batcher_feed_keeps_records in E. simpl in E.
  now rewrite concat_app, Batcher_flush_keeps_records.
Qed.

Hypothesis batchSize_pos : 0 < batchSize.

(** Between two calls the buffer is shorter than a batch, and a pushed
    batch is a full one. *)
Lemma Batcher_transform_sizes (st st' : Batcher.State Item)
  (item : Item) (out : list (list Item)) :
  List.length (Batcher.batch st) < batchSize ->
  Batcher._transform batchSize st item = (st', out) ->
  List.length (Batcher.batch st') < batchSize
  /\ List.length (Batcher.batch st')
     = (List.length (Batcher.batch st) + 1) mod batchSize
  /\ Forall (fun b => List.length b = batchSize) out.
Proof.
  intros Hlt. unfold Batcher._transform.
  destruct (List.length (Batcher.batch st ++ [item]) =? batchSize) eqn:E;
    intros H; inversion H; subst; clear H; simpl;
    rewrite length_app in *; simpl in *.
  - apply Nat.eqb_eq in E. repeat split; try lia.
    + rewrite E. now rewrite Nat.Div0.mod_same.
    + constructor; [|constructor]. rewrite length_app. simpl. exact E.
  - apply Nat.eqb_neq in E. repeat split; try lia.
    + rewrite Nat.mod_small; lia.
    + constructor.
Qed.

Lemma Batcher_feed_sizes (input : list Item) :
  forall (st st' : Batcher.State Item) (out : list (list Item)),
    List.length (Batcher.batch st) < batchSize ->
    Batcher.feed batchSize st input = (st', out) ->
    List.length (Batcher.batch st') < batchSize
    /\ List.length (Batcher.batch st')
       = (List.length (Batcher.batch st) + List.length input) mod batchSize
    /\ Forall (fun b => List.length b = batchSize) out.
Proof.
  induction input as [|item rest IH]; intros st st' out Hlt H; simpl in H.
  - inversion H; subst; simpl. rewrite Nat.add_0_r.
    rewrite Nat.mod_small by lia. auto.
  - destruct (Batcher._transform batchSize st item) as [st1 out1] eqn:E1.
    destruct (Batcher.feed batchSize st1 rest) as [st2 out2] eqn:E2.
    inversion H; subst; clear H.
    destruct (Batcher_transform_sizes _ _ _ _ Hlt E1) as (L1 & M1 & F1).
    destruct (IH _ _ _ L1 E2) as (L2 & M2 & F2).
    split; [exact L2|]. split.
    + rewrite M2, M1. simpl List.length.
      rewrite Nat.Div0.add_mod_idemp_l. f_equal. lia.
    + apply Forall_app; auto.
Qed.

End BatcherFacts.

(** C2. With a positive batch size every batch of a run holds between 1
    and batchSize records: those pushed by _transform are full, and
    _flush pushes exactly the remaining buffer as one batch when it is
    not empty (then it is shorter than batchSize) and nothing when it is
    empty, which is the case whenever the number of records is a multiple
    of batchSize. *)
Theorem Batcher_batch_sizes :
  forall (Item : Type) (batchSize : nat) (input : list Item),
    0 < batchSize ->
    let st := fst (Batcher.feed batchSize Batcher.constructor input) in
    let pushed := snd (Batcher.feed batchSize Batcher.constructor input) in
    Batcher.run batchSize input = pushed ++ Batcher._flush st
    /\ (forall b, In b (Batcher.run batchSize input) ->
          1 <= List.length b <= batchSize)
    /\ Forall (fun b => List.length b = batchSize) pushed
    /\ (Batcher.batch st <> [] ->
          Batcher._flush st = [Batcher.batch st]
          /\ 1 <= List.length (Batcher.batch st) < batchSize)
    /\ (Batcher.batch st = [] -> Batcher._flush st = [])
    /\ (List.length input mod batchSize = 0 -> Batcher._flush st = []).
Proof.
  intros Item batchSize input Hpos st pushed.
  assert (Hrun : Batcher.run batchSize input = pushed ++ Batcher._flush st).
  { unfold Batcher.run, st, pushed.
    now destruct (Batcher.feed batchSize Batcher.constructor input). }
  destruct (Batcher_feed_sizes batchSize Hpos input Batcher.constructor st pushed)
    as (Hlt & Hmod & Hfull).
  { simpl. exact Hpos. }
  { unfold st, pushed.
    now destruct (Batcher.feed batchSize Batcher.constructor input). }
  simpl in Hmod.
  assert (Hne : Batcher.batch st <> [] ->
                Batcher._flush st = [Batcher.batch st]
                /\ 1 <= List.length (Batcher.batch st) < batchSize).
  { intros Hb. unfold Batcher._flush.
    destruct (Batcher.batch st) as [|x b] eqn:Eb; [congruence|].
    simpl in *. split; [reflexivity|lia]. }
  assert (He : Batcher.batch st = [] -> Batcher._flush st = []).
  { intros Hb. unfold Batcher._flush. now rewrite Hb. }
  split; [exact Hrun|]. split; [|split; [exact Hfull|split; [exact Hne|split]]].
  - intros b Hin. rewrite Hrun in Hin. apply in_app_or in Hin.
    destruct Hin as [Hin|Hin].
    + rewrite Forall_forall in Hfull. rewrite (Hfull b Hin). lia.
    + destruct (Batcher.batch st) as [|x b'] eqn:Eb.
      * rewrite He in Hin by reflexivity. contradiction.
      * destruct Hne as [Hf Hsz]; [discriminate|].
        rewrite Hf in Hin. destruct Hin as [<-|[]]. lia.
  - exact He.
  - intros Hm. apply He. rewrite Hm in Hmod.
    now apply length_zero_iff_nil.
Qed.

Lemma Batcher_batch_sizes_witness :
  0 < Batcher.guide_batchSize
  /\ Batcher.run Batcher.guide_batchSize (seq 1 25)
     = [seq 1 10; seq 11 10; seq 21 5]
  /\ forall b, In b (Batcher.run Batcher.guide_batchSize (seq 1 25)) ->
       1 <= List.length b <= Batcher.guide_batchSize.
Proof.
  split; [unfold Batcher.guide_batchSize; lia|].
  split; [reflexivity|].
  apply (Batcher_batch_sizes nat Batcher.guide_batchSize (seq 1 25)).
  unfold Batcher.guide_batchSize; lia.
Defined.

(** The scenario of the specification: 10 records, batches of 4. *)
Example Batcher_scenario :
  Batcher.run 4 (seq 1 10) = [[1; 2; 3; 4]; [5; 6; 7; 8]; [9; 10]].
Proof. reflexivity. Qed.

(** ** Filter in front of the Batcher *)

Lemma Filter_run_is_filter {Item : Type} (predicate : Item -> option bool)
  (raw : list Item) :
  forall (st : unit) (survivors : list Item),
    Filter.run predicate raw = (st, survivors, None) ->
    survivors = List.filter (Filter.accepts predicate) raw.
Proof.
  unfold Filter.run.
  generalize tt.
  induction raw as [|x rest IH]; intros u st survivors H; simpl in H.
  - now inversion H.
  - unfold Filter.transform at 1 in H.
    change (List.filter (Filter.accepts predicate) (x :: rest))
      with (if Filter.accepts predicate x
            then x :: List.filter (Filter.accepts predicate) rest
            else List.filter (Filter.accepts predicate) rest).
    unfold Filter.accepts at 1.
    destruct (predicate x) as [[|]|]; try discriminate;
      destruct (Pipeline.run_stage (Filter.transform predicate) u rest)
        as [[st2 out2] e] eqn:E; inversion H; subst; simpl;
      now rewrite (IH _ _ _ E).
Qed.

(** C3. Whatever the batch size, the batches of a run, laid end to end,
    are the records that entered the Batcher, in the same order: each
    record is in one batch at one position, the last partial group
    included. Behind a Filter that ran to the end these records are the
    raw records the predicate accepts, in their original order. *)
Theorem Batcher_flatten_preserves_records :
  forall (Item : Type) (batchSize : nat),
    (forall input : list Item,
        List.concat (Batcher.run batchSize input) = input)
    /\ (forall (predicate : Item -> option bool) (raw survivors : list Item)
               (st : unit),
          Filter.run predicate raw = (st, survivors, None) ->
          List.concat (Batcher.run batchSize survivors)
          = List.filter (Filter.accepts predicate) raw).
Proof.
  intros Item batchSize. split.
  - apply Batcher_run_flatten.
  - intros predicate raw survivors st H.
    rewrite Batcher_run_flatten.
    exact (Filter_run_is_filter predicate raw st survivors H).
Qed.

Lemma Batcher_flatten_preserves_records_witness :
  let raw := [(1, "INFO"); (2, "ERROR"); (3, "ERROR"); (4, "WARN");
              (5, "ERROR")] in
  Filter.run is_error_level raw
  = (tt, [(2, "ERROR"); (3, "ERROR"); (5, "ERROR")], None)
  /\ List.concat (Batcher.run 2 [(2, "ERROR"); (3, "ERROR"); (5, "ERROR")])
     = List.filter (Filter.accepts is_error_level) raw.
Proof.
  intros raw. split; [reflexivity|].
  apply (proj2 (Batcher_flatten_preserves_records (nat * string) 2)
               is_error_level raw _ tt).
  reflexivity.
Defined.

(** ** The log generator *)

Lemma draw_ok_range (r : Q) :
  GenerateLogs.draw_ok r = true -> (0 <= r)%Q /\ (r < 1)%Q.
Proof.
  unfold GenerateLogs.draw_ok. intros H.
  apply andb_true_iff in H. destruct H as [H0 H1]. split.
  - now apply Qle_bool_iff.
  - apply Qnot_le_lt. intros Hle. apply Qle_bool_iff in Hle.
    rewrite Hle in H1. discriminate.
Qed.

(** With a draw in the range of Math.random(), randomFrom returns an
    element of a non-empty array, never [undefined]. *)
Lemma randomFrom_picks (arr : list string) (r : Q) :
  GenerateLogs.draw_ok r = true ->
  arr <> [] ->
  exists x, GenerateLogs.randomFrom arr r = Some x /\ In x arr.
Proof.
  intros Hr Harr. apply draw_ok_range in Hr. destruct Hr as [H0 H1].
  unfold GenerateLogs.randomFrom, JS.index, JS.Math_floor.
  set (len := Z.of_nat (List.length arr)).
  assert (Hlen : (0 < len)%Z).
  { unfold len. destruct arr; [congruence|simpl; lia]. }
  assert (Hlo : (0 <= Qfloor (r * inject_Z len))%Z).
  { change 0%Z with (Qfloor 0). apply Qfloor_resp_le.
    apply Qmult_le_0_compat; [exact H0|].
    unfold Qle. simpl. lia. }
  assert (Hhi : (Qfloor (r * inject_Z len) < len)%Z).
  { rewrite Zlt_Qlt. eapply Qle_lt_trans; [apply Qfloor_le|].
    rewrite <- (Qmult_1_l (inject_Z len)) at 2.
    apply Qmult_lt_compat_r; [|exact H1].
    unfold Qlt. simpl. lia. }
  destruct (Qfloor (r * inject_Z len) <? 0)%Z eqn:E.
  { apply Z.ltb_lt in E. lia. }
  destruct (nth_error arr (Z.to_nat (Qfloor (r * inject_Z len)))) as [x|] eqn:En.
  - exists x. split; [reflexivity|]. eapply nth_error_In; eauto.
  - apply nth_error_None in En. subst len. lia.
Qed.

Lemma lookup_level (lvl : string) :
  In lvl GenerateLogs.LOG_LEVELS ->
  exists msgs, GenerateLogs.lookup lvl GenerateLogs.MESSAGES = Some msgs
               /\ msgs <> [].
Proof.
  simpl. intros [H|[H|[H|[H|[]]]]]; subst; simpl;
    eexists; (split; [reflexivity|discriminate]).
Qed.

(** The pieces of a generated line. *)
Lemma generateLogLine_shape (env : GenerateLogs.Env) :
  GenerateLogs.draw_ok (GenerateLogs.draw_level env) = true ->
  GenerateLogs.draw_ok (GenerateLogs.draw_message env) = true ->
  exists lvl msgs msg,
    In lvl GenerateLogs.LOG_LEVELS
    /\ GenerateLogs.lookup lvl GenerateLogs.MESSAGES = Some msgs
    /\ In msg msgs
    /\ GenerateLogs.generateLogLine env
       = Some ("[" ++ JS.slice0 19 (JS.replace_first "T" " "
                        (JS.toISOString (GenerateLogs.clock env)))
                 ++ "] [" ++ lvl ++ "] " ++ msg
                 ++ String RecordGrammar.newline "")%string.
Proof.
  intros Hl Hm.
  destruct (randomFrom_picks GenerateLogs.LOG_LEVELS _ Hl) as (lvl & El & Il).
  { discriminate. }
  destruct (lookup_level lvl Il) as (msgs & Em & Hne).
  destruct (randomFrom_picks msgs _ Hm Hne) as (msg & Eg & Ig).
  exists lvl, msgs, msg. repeat split; auto.
  unfold GenerateLogs.generateLogLine. rewrite El, Em, Eg. reflexivity.
Qed.

(** C10. A generator whose counter lies between 0 and totalLines keeps
    it there: one call of _read returns (it does not throw), leaves
    totalLines alone and pushes one chunk, a data line or the end mark.
    Below totalLines the chunk is a line and currentLine grows by exactly
    one; at totalLines the chunk is the end mark and currentLine stays.
    So currentLine never decreases, and the constructor starts within the
    bounds for a non-negative totalLines. *)
Theorem LogGenerator_read_invariant :
  forall (env : GenerateLogs.Env) (g : GenerateLogs.LogGenerator),
    GenerateLogs.draw_ok (GenerateLogs.draw_level env) = true ->
    GenerateLogs.draw_ok (GenerateLogs.draw_message env) = true ->
    (0 <= GenerateLogs.currentLine g <= GenerateLogs.totalLines g)%Z ->
    (forall total, (0 <= total)%Z ->
       (0 <= GenerateLogs.currentLine (GenerateLogs.constructor total)
          <= GenerateLogs.totalLines (GenerateLogs.constructor total))%Z)
    /\ exists g' pushed console,
         GenerateLogs._read env g = GenerateLogs.Returned g' pushed console
         /\ GenerateLogs.totalLines g' = GenerateLogs.totalLines g
         /\ List.length (List.filter GenerateLogs.is_data pushed) <= 1
         /\ ((GenerateLogs.currentLine g < GenerateLogs.totalLines g)%Z ->
               GenerateLogs.currentLine g' = (GenerateLogs.currentLine g + 1)%Z
               /\ exists line, pushed = [GenerateLogs.Data line])
         /\ ((GenerateLogs.currentLine g = GenerateLogs.totalLines g)%Z ->
               GenerateLogs.currentLine g' = GenerateLogs.currentLine g
               /\ pushed = [GenerateLogs.EndOfStream])
         /\ (0 <= GenerateLogs.currentLine g' <= GenerateLogs.totalLines g')%Z
         /\ (GenerateLogs.currentLine g <= GenerateLogs.currentLine g')%Z.
Proof.
  intros env g Hl Hm Hinv. split.
  { intros total Ht. simpl. lia. }
  destruct (generateLogLine_shape env Hl Hm) as (lvl & msgs & msg & _ & _ & _ & Eline).
  unfold GenerateLogs._read.
  destruct (GenerateLogs.totalLines g <=? GenerateLogs.currentLine g)%Z eqn:E.
  - apply Z.leb_le in E.
    exists g, [GenerateLogs.EndOfStream], []. simpl.
    repeat split; try lia.
  - apply Z.leb_gt in E. rewrite Eline.
    eexists _, _, _. split; [reflexivity|]. simpl.
    repeat split; try lia. eexists; reflexivity.
Qed.

Lemma LogGenerator_read_invariant_witness :
  let g := GenerateLogs.mkLogGenerator 3 1 in
  exists g' pushed console,
    GenerateLogs._read sample_env g = GenerateLogs.Returned g' pushed console
    /\ GenerateLogs.currentLine g' = 2%Z
    /\ List.length (List.filter GenerateLogs.is_data pushed) <= 1.
Proof.
  intros g.
  destruct (LogGenerator_read_invariant sample_env g)
    as (_ & g' & pushed & console & E & _ & Hone & Hinc & _);
    [reflexivity | reflexivity | simpl; lia |].
  exists g', pushed, console. split; [exact E|]. split; [|exact Hone].
  destruct Hinc as [Hc _]; [simpl; lia|]. exact Hc.
Defined.

Lemma filter_is_end_lines (lines : list string) :
  List.filter GenerateLogs.is_end (List.map GenerateLogs.Data lines) = [].
Proof. induction lines; simpl; auto. Qed.

(** A generator that still owes [n] lines pushes them in [n] calls and
    the end mark in the next one. *)
Lemma drive_remaining (envs : nat -> GenerateLogs.Env) :
  (forall k, draws_ok (envs k)) ->
  forall (n fuel k : nat) (g : GenerateLogs.LogGenerator),
    (GenerateLogs.totalLines g - GenerateLogs.currentLine g = Z.of_nat n)%Z ->
    n < fuel ->
    exists lines,
      GenerateLogs.drive fuel envs k g
      = (List.map GenerateLogs.Data lines ++ [GenerateLogs.EndOfStream],
         GenerateLogs.Ended,
         GenerateLogs.mkLogGenerator (GenerateLogs.totalLines g)
           (GenerateLogs.totalLines g))
      /\ List.length lines = n
      /\ forall i, i < n ->
           GenerateLogs.generateLogLine (envs (k + i)) = nth_error lines i.
Proof.
  intros Hok n. induction n as [|n IH]; intros fuel k g Hrem Hfuel.
  - destruct fuel as [|fuel]; [lia|]. exists []. simpl.
    unfold GenerateLogs._read.
    replace (GenerateLogs.totalLines g <=? GenerateLogs.currentLine g)%Z
      with true by (symmetry; apply Z.leb_le; lia).
    simpl. repeat split; try (intros; lia).
    destruct g as [t c]; simpl in *. do 2 f_equal. lia.
  - destruct fuel as [|fuel]; [lia|].
    destruct (Hok k) as [Hl Hm].
    destruct (generateLogLine_shape (envs k) Hl Hm)
      as (lvl & msgs & msg & _ & _ & _ & Eline).
    simpl. unfold GenerateLogs._read.
    replace (GenerateLogs.totalLines g <=? GenerateLogs.currentLine g)%Z
      with false by (symmetry; apply Z.leb_gt; lia).
    rewrite Eline. simpl.
    destruct (IH fuel (S k)
                (GenerateLogs.mkLogGenerator (GenerateLogs.totalLines g)
                   (GenerateLogs.currentLine g + 1)))
      as (lines & Ed & Elen & Enth); [simpl; lia | lia |].
    rewrite Ed. simpl.
    eexists (_ :: lines). split; [reflexivity|]. split; [simpl; lia|].
    intros [|i] Hi; simpl.
    + rewrite Nat.add_0_r. exact Eline.
    + rewrite <- Enth by lia. f_equal. f_equal. lia.
Qed.

(** C9. For a non-negative totalLines, and with every draw in the range
    of Math.random(), a run in which _read may be called more than
    totalLines times pushes exactly totalLines chunks of data, line [i]
    being the one generateLogLine produced in call [i], then pushes the
    end mark once and ends with currentLine = totalLines. With
    totalLines = 0 the first call pushes the end mark and no line. *)
Theorem LogGenerator_pushes_totalLines :
  forall (total : Z) (envs : nat -> GenerateLogs.Env) (fuel : nat),
    (0 <= total)%Z ->
    (forall k, draws_ok (envs k)) ->
    Z.to_nat total < fuel ->
    exists lines,
      GenerateLogs.drive fuel envs 0 (GenerateLogs.constructor total)
      = (List.map GenerateLogs.Data lines ++ [GenerateLogs.EndOfStream],
         GenerateLogs.Ended, GenerateLogs.mkLogGenerator total total)
      /\ Z.of_nat (List.length lines) = total
      /\ (forall i, i < List.length lines ->
            GenerateLogs.generateLogLine (envs i) = nth_error lines i)
      /\ List.length
           (List.filter GenerateLogs.is_end
              (List.map GenerateLogs.Data lines ++ [GenerateLogs.EndOfStream]))
         = 1
      /\ (total = 0%Z -> lines = []).
Proof.
  intros total envs fuel Ht Hok Hfuel.
  destruct (drive_remaining envs Hok (Z.to_nat total) fuel 0
              (GenerateLogs.constructor total))
    as (lines & Ed & Elen & Enth); [simpl; lia | exact Hfuel |].
  exists lines. simpl in Ed. split; [exact Ed|]. split; [lia|].
  split; [|split].
  - intros i Hi. apply (Enth i). lia.
  - rewrite filter_app, filter_is_end_lines. reflexivity.
  - intros ->. simpl in Elen. now apply length_zero_iff_nil.
Qed.

Lemma LogGenerator_pushes_totalLines_witness :
  exists lines,
    GenerateLogs.drive 5 (fun _ => sample_env) 0 (GenerateLogs.constructor 3)
    = (List.map GenerateLogs.Data lines ++ [GenerateLogs.EndOfStream],
       GenerateLogs.Ended, GenerateLogs.mkLogGenerator 3 3)
    /\ Z.of_nat (List.length lines) = 3%Z.
Proof.
  destruct (LogGenerator_pushes_totalLines 3 (fun _ => sample_env) 5)
    as (lines & Ed & Elen & _).
  - lia.
  - intros k. split; reflexivity.
  - simpl. lia.
  - exists lines. split; [exact Ed | exact Elen].
Defined.

(** With no lines to generate the first call already ends the stream. *)
Example LogGenerator_zero_lines :
  GenerateLogs.drive 1 (fun _ => sample_env) 0 (GenerateLogs.constructor 0)
  = ([GenerateLogs.EndOfStream], GenerateLogs.Ended,
     GenerateLogs.mkLogGenerator 0 0).
Proof. reflexivity. Qed.

(** ** The generated line and the record grammar *)

Lemma N_forallb_below (f : N -> bool) (n : N) :
  N_forallb f n = true -> forall k, (k < n)%N -> f k = true.
Proof.
  unfold N_forallb. induction n as [|n IH] using N.peano_ind; intros H k Hk.
  - lia.
  - rewrite N.peano_rect_succ in H. apply andb_true_iff in H.
    destruct H as [Hn Hrest].
    destruct (N.eq_dec k n) as [->|Hne]; [exact Hn|].
    apply IH; [exact Hrest|lia].
Qed.

Lemma digit_cases (k : N) :
  In (digit k)
     ["0"; "1"; "2"; "3"; "4"; "5"; "6"; "7"; "8"; "9"]%char.
Proof.
  unfold digit.
  assert (H : (k mod 10 < 10)%N) by (apply N.mod_upper_bound; lia).
  revert H. generalize (k mod 10)%N. intros j Hj.
  assert (Hc : (j = 0 \/ j = 1 \/ j = 2 \/ j = 3 \/ j = 4 \/ j = 5 \/ j = 6
                \/ j = 7 \/ j = 8 \/ j = 9)%N) by lia.
  repeat (destruct Hc as [->|Hc]; [simpl; tauto|]).
  subst j. simpl. tauto.
Qed.

Lemma is_digit_digit (k : N) : RecordGrammar.is_digit (digit k) = true.
Proof.
  pose proof (digit_cases k) as H. simpl in H.
  repeat (destruct H as [<-|H]; [reflexivity|]). contradiction.
Qed.

Lemma digit_is_not_T (k : N) : Ascii.eqb (digit k) "T" = false.
Proof.
  pose proof (digit_cases k) as H. simpl in H.
  repeat (destruct H as [<-|H]; [reflexivity|]). contradiction.
Qed.

(** Two-digit fields and four-digit years, digit by digit. *)
Lemma pad2_digits (n : N) :
  (n < 100)%N ->
  JS.pad2 n = String (digit (n / 10)) (String (digit n) EmptyString).
Proof.
  intros Hn.
  apply String.eqb_eq.
  apply (N_forallb_below
           (fun n => String.eqb (JS.pad2 n)
                       (String (digit (n / 10)) (String (digit n) EmptyString)))
           100); [vm_compute; reflexivity | exact Hn].
Qed.

Lemma iso_year_digits (y : Z) :
  (0 <= y <= 9999)%Z ->
  JS.iso_year y
  = String (digit (Z.to_N y / 1000)) (String (digit (Z.to_N y / 100))
      (String (digit (Z.to_N y / 10)) (String (digit (Z.to_N y)) EmptyString))).
Proof.
  intros Hy.
  rewrite <- (Z2N.id y) at 1 by lia.
  apply String.eqb_eq.
  apply (N_forallb_below
           (fun n => String.eqb (JS.iso_year (Z.of_N n))
                       (String (digit (n / 1000)) (String (digit (n / 100))
                          (String (digit (n / 10))
                             (String (digit n) EmptyString)))))
           10000); [vm_compute; reflexivity | lia].
Qed.

(** The [now] of generateLogLine for a four-digit year. *)
Lemma now_is_timestamp_text (d : JS.Date) :
  JS.Date_fields_ok d = true ->
  (0 <= JS.year d <= 9999)%Z ->
  JS.slice0 19 (JS.replace_first "T" " " (JS.toISOString d))
  = timestamp_text d.
Proof.
  intros Hf Hy. unfold JS.Date_fields_ok in Hf.
  repeat (apply andb_true_iff in Hf; destruct Hf as [Hf ?]).
  repeat match goal with
         | H : (_ <=? _)%N = true |- _ => apply N.leb_le in H
         | H : (_ <? _)%N = true |- _ => apply N.ltb_lt in H
         end.
  unfold JS.toISOString, timestamp_text.
  rewrite iso_year_digits by lia.
  rewrite !pad2_digits by lia.
  generalize (JS.pad3 (JS.milliseconds d)). intros ms.
  generalize (Z.to_N (JS.year d)). intros y.
  cbn [String.append JS.replace_first].
  rewrite !digit_is_not_T.
  cbn [Ascii.eqb Bool.eqb JS.replace_first].
  reflexivity.
Qed.

Lemma match_bracketed_timestamp (d : JS.Date) (rest : string) :
  RecordGrammar.match_tokens
    (RecordGrammar.Lit "["%char :: RecordGrammar.timestamp_tokens
       ++ [RecordGrammar.Lit "]"; RecordGrammar.Lit " ";
           RecordGrammar.Lit "["]%char)
    ("[" ++ timestamp_text d ++ "] [" ++ rest)%string
  = Some rest.
Proof.
  unfold timestamp_text, RecordGrammar.timestamp_tokens.
  cbn [RecordGrammar.match_tokens List.app String.append].
  rewrite !is_digit_digit.
  reflexivity.
Qed.

(** Every level and message of the script's tables gives a tail
    [LEVEL] Message] that the grammar accepts with that level. *)
Lemma level_and_message_found (lvl msg : string) (msgs : list string) :
  In lvl GenerateLogs.LOG_LEVELS ->
  GenerateLogs.lookup lvl GenerateLogs.MESSAGES = Some msgs ->
  In msg msgs ->
  List.find
    (fun l => RecordGrammar.level_and_message l
                (lvl ++ "] " ++ msg ++ String RecordGrammar.newline "")%string)
    RecordGrammar.LEVELS
  = Some lvl.
Proof.
  intros Il Em Ig. simpl in Il.
  repeat (destruct Il as [<-|Il];
          [ simpl in Em; inversion Em; subst msgs; simpl in Ig;
            repeat (destruct Ig as [<-|Ig]; [vm_compute; reflexivity|]);
            contradiction |]).
  contradiction.
Qed.

(** C4. Whatever the two draws of Math.random(), and for a clock whose
    year has four digits (0 to 9999), generateLogLine returns a line of
    the form [[YYYY-MM-DD HH:MM:SS] [LEVEL] Message] with one newline at
    its end and nowhere else; LEVEL is one of INFO, WARN, ERROR, DEBUG and
    Message one of the messages listed for that level. *)
Theorem generateLogLine_matches_grammar :
  forall env : GenerateLogs.Env,
    draws_ok env ->
    JS.Date_fields_ok (GenerateLogs.clock env) = true ->
    (0 <= JS.year (GenerateLogs.clock env) <= 9999)%Z ->
    exists line lvl msgs msg,
      GenerateLogs.generateLogLine env = Some line
      /\ RecordGrammar.matches line = true
      /\ RecordGrammar.level_of line = Some lvl
      /\ In lvl ["INFO"; "WARN"; "ERROR"; "DEBUG"]%string
      /\ GenerateLogs.lookup lvl GenerateLogs.MESSAGES = Some msgs
      /\ In msg msgs
      /\ line = ("[" ++ timestamp_text (GenerateLogs.clock env) ++ "] ["
                   ++ lvl ++ "] " ++ msg
                   ++ String RecordGrammar.newline "")%string.
Proof.
  intros env [Hl Hm] Hf Hy.
  destruct (generateLogLine_shape env Hl Hm)
    as (lvl & msgs & msg & Il & Em & Ig & Eline).
  rewrite (now_is_timestamp_text _ Hf Hy) in Eline.
  eexists _, lvl, msgs, msg.
  split; [exact Eline|].
  assert (Hlevel :
            RecordGrammar.level_of
              ("[" ++ timestamp_text (GenerateLogs.clock env) ++ "] ["
                 ++ lvl ++ "] " ++ msg
                 ++ String RecordGrammar.newline "")%string
            = Some lvl).
  { unfold RecordGrammar.level_of.
    rewrite match_bracketed_timestamp.
    exact (level_and_message_found lvl msg msgs Il Em Ig). }
  split; [unfold RecordGrammar.matches; now rewrite Hlevel|].
  split; [exact Hlevel|].
  split; [exact Il|]. split; [exact Em|]. split; [exact Ig|reflexivity].
Qed.

Lemma generateLogLine_matches_grammar_witness :
  GenerateLogs.generateLogLine sample_env
  = Some ("[2024-01-01 10:30:45] [DEBUG] Cache miss"
            ++ String RecordGrammar.newline "")%string
  /\ exists line lvl,
       GenerateLogs.generateLogLine sample_env = Some line
       /\ RecordGrammar.matches line = true
       /\ RecordGrammar.level_of line = Some lvl.
Proof.
  split; [reflexivity|].
  destruct (generateLogLine_matches_grammar sample_env)
    as (line & lvl & _ & _ & E & M & L & _).
  - split; reflexivity.
  - reflexivity.
  - simpl. lia.
  - exists line, lvl. auto.
Defined.

(** ** Formatter *)

Lemma Formatter_run_from (lines : list string) :
  forall st : Formatter.State,
    Pipeline.run_stage Formatter.transform st lines
    = ({| Formatter.malformed :=
            Formatter.malformed st
            + List.length (List.filter Formatter.is_malformed lines) |},
       List.flat_map (fun l => match Formatter.parse l with
                               | Some r => [r]
                               | None => []
                               end) lines,
       None).
Proof.
  induction lines as [|l rest IH]; intros st; simpl.
  - destruct st as [m]; simpl. now rewrite Nat.add_0_r.
  - unfold Formatter.transform at 1, Formatter.is_malformed at 1.
    destruct (Formatter.parse l) as [r|]; rewrite IH; simpl.
    + reflexivity.
    + do 3 f_equal. lia.
Qed.

Lemma Formatter_run_parts (lines : list string) :
  Formatter.failure lines = None
  /\ Formatter.malformed_after lines
     = List.length (List.filter Formatter.is_malformed lines)
  /\ Formatter.emitted lines
     = List.flat_map (fun l => match Formatter.parse l with
                               | Some r => [r]
                               | None => []
                               end) lines.
Proof.
  unfold Formatter.failure, Formatter.malformed_after, Formatter.emitted,
    Formatter.run.
  rewrite Formatter_run_from. simpl. auto.
Qed.

(** C5. A line that is not of the Formatter's grammar makes the
    transform carry on: the counter is one higher and nothing is
    emitted. Within a run such a line neither ends the run nor changes
    what the lines before and after it produce; the run reports no error,
    and the report's malformed count is the number of such lines. *)
Theorem Formatter_skips_malformed_line :
  forall (before after : list string) (line : string),
    Formatter.parse line = None ->
    (forall st,
        Formatter.transform st line
        = Pipeline.Continue
            {| Formatter.malformed := Formatter.malformed st + 1 |} [])
    /\ Formatter.failure (before ++ line :: after) = None
    /\ Formatter.emitted (before ++ line :: after)
       = Formatter.emitted before ++ Formatter.emitted after
    /\ Formatter.malformed_after (before ++ line :: after)
       = Formatter.malformed_after before + 1 + Formatter.malformed_after after
    /\ Pipeline.error (Formatter.report (before ++ line :: after)) = None
    /\ Pipeline.malformedCount (Formatter.report (before ++ line :: after))
       = List.length
           (List.filter Formatter.is_malformed (before ++ line :: after))
    /\ Pipeline.itemsOut (Formatter.report (before ++ line :: after))
       + Pipeline.malformedCount (Formatter.report (before ++ line :: after))
       = Pipeline.itemsIn (Formatter.report (before ++ line :: after)).
Proof.
  intros before after line Hbad.
  assert (Hm : Formatter.is_malformed line = true).
  { unfold Formatter.is_malformed. now rewrite Hbad. }
  split.
  { intros st. unfold Formatter.transform. now rewrite Hbad. }
  destruct (Formatter_run_parts (before ++ line :: after)) as (F & M & E).
  destruct (Formatter_run_parts before) as (_ & M1 & E1).
  destruct (Formatter_run_parts after) as (_ & M2 & E2).
  split; [exact F|]. split; [|split; [|split; [|split]]].
  - rewrite E, E1, E2, flat_map_app. simpl. now rewrite Hbad.
  - rewrite M, M1, M2, filter_app, length_app. simpl. rewrite Hm.
    simpl. lia.
  - unfold Formatter.report, Formatter.failure in *.
    destruct (Formatter.run (before ++ line :: after)) as [[st out] e].
    exact F.
  - unfold Formatter.report, Formatter.malformed_after in *.
    destruct (Formatter.run (before ++ line :: after)) as [[st out] e].
    exact M.
  - unfold Formatter.report, Formatter.malformed_after, Formatter.emitted in *.
    destruct (Formatter.run (before ++ line :: after)) as [[st out] e].
    simpl in *. rewrite M, E. clear.
    induction (before ++ line :: after) as [|l ls IH]; simpl; [reflexivity|].
    unfold Formatter.is_malformed at 1.
    destruct (Formatter.parse l); simpl; rewrite ?length_app; simpl; lia.
Qed.

Lemma Formatter_skips_malformed_line_witness :
  let good := "[2024-01-01 10:30:45] [ERROR] Database connection failed"%string in
  Formatter.parse "no brackets here" = None
  /\ Formatter.emitted [good; "no brackets here"; good]%string
     = Formatter.emitted [good] ++ Formatter.emitted [good]
  /\ Formatter.malformed_after [good; "no brackets here"; good]%string = 1
  /\ Formatter.failure [good; "no brackets here"; good]%string = None.
Proof.
  intros good.
  destruct (Formatter_skips_malformed_line [good] [good] "no brackets here")
    as (_ & F & E & M & _); [reflexivity|].
  split; [reflexivity|]. split; [exact E|]. split; [exact M|exact F].
Defined.

(** The line of the challenge text is parsed into its three fields. *)
Example Formatter_parses_challenge_line :
  Formatter.parse "[2024-01-01 10:30:45] [ERROR] Database connection failed"
  = Some (Formatter.mkRecord "2024-01-01 10:30:45" "ERROR"
            "Database connection failed").
Proof. reflexivity. Qed.

(** ** Progress Tracker *)

Lemma ProgressTracker_no_total {Item : Type} (input : list Item) :
  forall st,
    ProgressTracker.totalExpectedItems st = 0 ->
    snd (ProgressTracker.feed st input) = [].
Proof.
  induction input as [|x rest IH]; intros st H0; simpl; [reflexivity|].
  unfold ProgressTracker.transform. rewrite H0. simpl.
  specialize (IH {| ProgressTracker.totalExpectedItems := 0;
                    ProgressTracker.count := ProgressTracker.count st + 1;
                    ProgressTracker.lastDecile := ProgressTracker.lastDecile st |}
                 eq_refl).
  destruct (ProgressTracker.feed _ rest) as [[st2 out2] rep2].
  simpl in *. exact IH.
Qed.

Lemma decile_mono (T c c' : nat) :
  c <= c' -> ProgressTracker.decile T c <= ProgressTracker.decile T c'.
Proof.
  intros H. unfold ProgressTracker.decile.
  apply Nat.Div0.div_le_mono. lia.
Qed.

Lemma sorted_lt_NoDup (l : list nat) : StronglySorted lt l -> NoDup l.
Proof.
  induction 1 as [|x l Hs IH Hall]; constructor; auto.
  intros Hin. rewrite Forall_forall in Hall. specialize (Hall x Hin). lia.
Qed.

Section ProgressTrackerFacts.

Context {Item : Type}.
Variable T : nat.
Hypothesis T_pos : 0 < T.

(** What a stretch of input adds, from a state whose last reported
    decile is the decile of its count. *)
Lemma ProgressTracker_feed_facts (input : list Item) :
  forall st st' out rs,
    ProgressTracker.totalExpectedItems st = T ->
    ProgressTracker.lastDecile st
    = ProgressTracker.decile T (ProgressTracker.count st) ->
    ProgressTracker.feed st input = (st', out, rs) ->
    ProgressTracker.lastDecile st'
    = ProgressTracker.decile T (ProgressTracker.count st + List.length input)
    /\ out = input
    /\ Forall (fun r =>
                 ProgressTracker.percent r
                 = ProgressTracker.decile T (ProgressTracker.at_count r) * 10
                 /\ ProgressTracker.count st < ProgressTracker.at_count r
                    <= ProgressTracker.count st + List.length input
                 /\ ProgressTracker.lastDecile st
                    < ProgressTracker.decile T (ProgressTracker.at_count r)
                 /\ forall c, c < ProgressTracker.at_count r ->
                      ProgressTracker.decile T c
                      < ProgressTracker.decile T (ProgressTracker.at_count r))
              rs
    /\ StronglySorted lt (List.map ProgressTracker.percent rs)
    /\ StronglySorted lt (List.map ProgressTracker.at_count rs)
    /\ (forall c,
          ProgressTracker.count st < c
            <= ProgressTracker.count st + List.length input ->
          ProgressTracker.lastDecile st < ProgressTracker.decile T c ->
          In (ProgressTracker.decile T c * 10)
             (List.map ProgressTracker.percent rs)).
Proof.
  induction input as [|x rest IH]; intros st st' out rs HT Hinv Hfeed;
    simpl in Hfeed.
  - inversion Hfeed; subst; clear Hfeed. simpl. rewrite Nat.add_0_r.
    repeat split; auto; try constructor. intros c Hc. lia.
  - destruct (ProgressTracker.transform st x) as [[st1 out1] rep1] eqn:E1.
    destruct (ProgressTracker.feed st1 rest) as [[st2 out2] rep2] eqn:E2.
    inversion Hfeed; subst st' out rs; clear Hfeed.
    unfold ProgressTracker.transform in E1. rewrite HT in E1.
    replace (T =? 0) with false in E1 by (symmetry; apply Nat.eqb_neq; lia).
    set (c1 := ProgressTracker.count st + 1) in *.
    set (d1 := ProgressTracker.decile T c1) in *.
    assert (Hle : ProgressTracker.lastDecile st <= d1).
    { rewrite Hinv. apply decile_mono. unfold c1. lia. }
    assert (Hst1 : ProgressTracker.totalExpectedItems st1 = T
                   /\ ProgressTracker.count st1 = c1
                   /\ ProgressTracker.lastDecile st1 = d1
                   /\ out1 = [x]).
    { destruct (ProgressTracker.lastDecile st <? d1) eqn:El;
        inversion E1; subst; simpl; repeat split; auto.
      apply Nat.ltb_ge in El. lia. }
    destruct Hst1 as (HT1 & Hc1 & Hd1 & Ho1).
    destruct (IH st1 st2 out2 rep2 HT1) as (Hlast & Hout & Hall & Hsp & Hsc & Hcov);
      [rewrite Hd1, Hc1; reflexivity | exact E2 |].
    rewrite Hc1, Hd1 in *. simpl List.length.
    assert (Hall' :
              Forall (fun r =>
                        ProgressTracker.percent r
                        = ProgressTracker.decile T (ProgressTracker.at_count r) * 10
                        /\ ProgressTracker.count st < ProgressTracker.at_count r
                           <= ProgressTracker.count st + S (List.length rest)
                        /\ ProgressTracker.lastDecile st
                           < ProgressTracker.decile T (ProgressTracker.at_count r)
                        /\ forall c, c < ProgressTracker.at_count r ->
                             ProgressTracker.decile T c
                             < ProgressTracker.decile T (ProgressTracker.at_count r))
                     rep2).
    { eapply Forall_impl; [|exact Hall]. simpl.
      intros r (Hp & Hr & Hd & Hfirst). unfold c1 in Hr.
      repeat split; auto; lia. }
    split; [rewrite Hlast; f_equal; unfold c1; lia|].
    split; [subst out1 out2; reflexivity|].
    destruct (ProgressTracker.lastDecile st <? d1) eqn:El;
      inversion E1; subst rep1; clear E1; simpl.
    + apply Nat.ltb_lt in El.
      split; [|split; [|split]].
      * constructor; [|exact Hall']. simpl. fold c1. fold d1.
        repeat split; auto; try (unfold c1; lia).
        intros c Hc. eapply Nat.le_lt_trans; [|exact El].
        rewrite Hinv. apply decile_mono. unfold c1 in Hc. lia.
      * constructor; [exact Hsp|].
        rewrite Forall_map. eapply Forall_impl; [|exact Hall].
        simpl. intros r (Hp & _ & Hd & _). rewrite Hp. lia.
      * constructor; [exact Hsc|].
        rewrite Forall_map. eapply Forall_impl; [|exact Hall].
        simpl. intros r (_ & Hr & _). lia.
      * intros c Hc Hd.
        destruct (Nat.eq_dec c c1) as [->|Hne]; [left; reflexivity|].
        destruct (Nat.lt_ge_cases d1 (ProgressTracker.decile T c)) as [Hlt|Hge].
        -- right. apply Hcov; [unfold c1 in *; lia|exact Hlt].
        -- left. f_equal.
           assert (d1 <= ProgressTracker.decile T c).
           { apply decile_mono. unfold c1 in *. lia. }
           lia.
    + apply Nat.ltb_ge in El.
      split; [exact Hall'|]. split; [exact Hsp|]. split; [exact Hsc|].
      intros c Hc Hd. apply Hcov.
      * destruct (Nat.eq_dec c c1) as [->|Hne]; [fold d1 in Hd; lia|].
        unfold c1 in *. lia.
      * lia.
Qed.

End ProgressTrackerFacts.

(** C6. With totalExpectedItems = T > 0 every report carries the
    percentage floor(count * 10 / T) * 10 of the count at which it is
    made, and is made at the first count that reaches its decile; the
    percentages of the reports are strictly increasing, so none occurs
    twice, and every decile from 10% on that some count of the run
    reaches is reported exactly once. With T = 0 there is no report.
    With T = 25 and 10 items the reports are made at counts 3, 5, 8
    and 10. *)
Theorem ProgressTracker_reports_each_decile_once :
  forall (Item : Type) (T : nat) (input : list Item),
    let rs := ProgressTracker.reports T input in
    (T = 0 -> rs = [])
    /\ (0 < T ->
          (forall r, In r rs ->
             ProgressTracker.percent r
             = ProgressTracker.at_count r * 10 / T * 10
             /\ 1 <= ProgressTracker.at_count r <= List.length input
             /\ forall c, c < ProgressTracker.at_count r ->
                  c * 10 / T < ProgressTracker.at_count r * 10 / T)
          /\ StronglySorted lt (List.map ProgressTracker.percent rs)
          /\ StronglySorted lt (List.map ProgressTracker.at_count rs)
          /\ NoDup (List.map ProgressTracker.percent rs)
          /\ (forall c, 1 <= c <= List.length input -> 1 <= c * 10 / T ->
                count_occ Nat.eq_dec (List.map ProgressTracker.percent rs)
                  (c * 10 / T * 10) = 1))
    /\ (T = 25 -> List.length input = 10 ->
          List.map ProgressTracker.at_count rs = [3; 5; 8; 10]
          /\ List.map ProgressTracker.percent rs = [10; 20; 30; 40]).
Proof.
  intros Item T input rs. split; [|split].
  - intros ->. unfold rs, ProgressTracker.reports.
    now apply ProgressTracker_no_total.
  - intros HT. unfold rs, ProgressTracker.reports.
    destruct (ProgressTracker.feed (ProgressTracker.init T) input)
      as [[st' out] reps] eqn:E.
    assert (H0 : ProgressTracker.lastDecile (ProgressTracker.init T)
                 = ProgressTracker.decile T
                     (ProgressTracker.count (ProgressTracker.init T))).
    { unfold ProgressTracker.decile. simpl.
      now rewrite Nat.Div0.div_0_l. }
    destruct (ProgressTracker_feed_facts T HT input
                (ProgressTracker.init T) st' out reps eq_refl H0 E)
      as (_ & _ & Hall & Hsp & Hsc & Hcov).
    simpl in *. rewrite Forall_forall in Hall.
    split; [|split; [exact Hsp|split; [exact Hsc|split]]].
    + intros r Hin. destruct (Hall r Hin) as (Hp & Hr & _ & Hfirst).
      unfold ProgressTracker.decile in *. repeat split; auto; lia.
    + now apply sorted_lt_NoDup.
    + intros c Hc Hd.
      apply NoDup_count_occ'; [now apply sorted_lt_NoDup|].
      apply (Hcov c); [lia|exact Hd].
  - intros -> Hlen. unfold rs.
    do 11 (destruct input as [|? input]; try discriminate Hlen).
    split; reflexivity.
Qed.

Lemma ProgressTracker_reports_each_decile_once_witness :
  ProgressTracker.reports 25 (seq 1 10)
  = [ProgressTracker.mkReport 10 3; ProgressTracker.mkReport 20 5;
     ProgressTracker.mkReport 30 8; ProgressTracker.mkReport 40 10]
  /\ List.map ProgressTracker.at_count (ProgressTracker.reports 25 (seq 1 10))
     = [3; 5; 8; 10]
  /\ NoDup (List.map ProgressTracker.percent
              (ProgressTracker.reports 25 (seq 1 10)))
  /\ ProgressTracker.reports 0 (seq 1 10) = [].
Proof.
  split; [reflexivity|].
  destruct (ProgressTracker_reports_each_decile_once nat 25 (seq 1 10))
    as (_ & Hpos & Hscen).
  destruct Hscen as [Hc _]; [reflexivity | reflexivity |].
  destruct Hpos as (_ & _ & _ & Hnd & _); [lia|].
  split; [exact Hc|]. split; [exact Hnd|].
  apply (proj1 (ProgressTracker_reports_each_decile_once nat 0 (seq 1 10))).
  reflexivity.
Defined.

(** ** Rate Governor *)

Section RateGovernorFacts.

Context {Item : Type}.
Variable N : nat.
Hypothesis N_pos : 0 < N.

Lemma RateGovernor_transform_facts (st st' : RateGovernor.State)
  (arrival t : nat) (item item' : Item) :
  RateGovernor.good N st ->
  RateGovernor.transform N st arrival item = (st', (t, item')) ->
  item' = item
  /\ RateGovernor.good N st'
  /\ RateGovernor.busyUntil st' = t
  /\ arrival <= t
  /\ RateGovernor.busyUntil st <= t
  /\ t / RateGovernor.window
     = RateGovernor.windowStart st' / RateGovernor.window
  /\ ((RateGovernor.windowStart st' / RateGovernor.window
       = RateGovernor.windowStart st / RateGovernor.window
       /\ RateGovernor.tokens st' + 1 = RateGovernor.tokens st)
      \/ (RateGovernor.windowStart st / RateGovernor.window
          < RateGovernor.windowStart st' / RateGovernor.window
          /\ RateGovernor.tokens st' + 1 <= N)).
Proof.
  unfold RateGovernor.good, RateGovernor.transform, RateGovernor.roll.
  assert (HW : RateGovernor.window = 1000) by reflexivity.
  generalize dependent RateGovernor.window. intros W HW.
  intros (Hal & Htk & Hbusy).
  set (now := Nat.max arrival (RateGovernor.busyUntil st)).
  assert (Hnow : arrival <= now /\ RateGovernor.busyUntil st <= now)
    by (unfold now; lia).
  clearbody now.
  destruct (RateGovernor.windowStart st + W <=? now) eqn:Eroll;
    [apply Nat.leb_le in Eroll | apply Nat.leb_gt in Eroll];
    cbn [RateGovernor.tokens RateGovernor.windowStart RateGovernor.busyUntil].
  - replace (N =? 0) with false by (symmetry; apply Nat.eqb_neq; lia).
    intros H. injection H as <- <- <-.
    cbn [RateGovernor.tokens RateGovernor.windowStart RateGovernor.busyUntil].
    subst W. repeat split; lia.
  - destruct (RateGovernor.tokens st =? 0) eqn:Etk;
      [apply Nat.eqb_eq in Etk | apply Nat.eqb_neq in Etk];
      intros H; injection H as <- <- <-;
      cbn [RateGovernor.tokens RateGovernor.windowStart RateGovernor.busyUntil];
      subst W; repeat split; lia.
Qed.

Lemma emitted_in_slot_cons (e : nat * Item) (es : list (nat * Item)) (k : nat) :
  RateGovernor.emitted_in_slot (e :: es) k
  = (if RateGovernor.slot e =? k then 1 else 0)
    + RateGovernor.emitted_in_slot es k.
Proof.
  unfold RateGovernor.emitted_in_slot. cbn [List.filter].
  destruct (RateGovernor.slot e =? k); reflexivity.
Qed.

Lemma emitted_in_slot_late (es : list (nat * Item)) (t k : nat) :
  Forall (fun e => t <= fst e) es ->
  k < t / RateGovernor.window ->
  RateGovernor.emitted_in_slot es k = 0.
Proof.
  induction 1 as [|e es He _ IH]; intros Hk; [reflexivity|].
  rewrite emitted_in_slot_cons, IH by exact Hk.
  destruct (RateGovernor.slot e =? k) eqn:E; [|reflexivity].
  apply Nat.eqb_eq in E. unfold RateGovernor.slot, RateGovernor.window in *.
  lia.
Qed.

(** From a good state: nothing is emitted before the state's last
    emission, the current window takes no more emissions than it has
    tokens, every later window at most [N]. *)
Lemma RateGovernor_feed_slots (input : list (nat * Item)) :
  forall st st' es,
    RateGovernor.good N st ->
    RateGovernor.feed N st input = (st', es) ->
    Forall (fun e => RateGovernor.busyUntil st <= fst e) es
    /\ forall k,
         RateGovernor.emitted_in_slot es k
         <= (if k =? RateGovernor.windowStart st / RateGovernor.window
             then RateGovernor.tokens st
             else if k <? RateGovernor.windowStart st / RateGovernor.window
                  then 0 else N).
Proof.
  induction input as [|[arrival item] rest IH]; intros st st' es Hgood Hfeed;
    cbn [RateGovernor.feed] in Hfeed.
  - injection Hfeed as <- <-. split; [constructor|].
    intros k. unfold RateGovernor.emitted_in_slot. cbn [List.filter List.length].
    lia.
  - destruct (RateGovernor.transform N st arrival item) as [st1 [t item']] eqn:E1.
    destruct (RateGovernor.feed N st1 rest) as [st2 es2] eqn:E2.
    injection Hfeed as <- <-.
    destruct (RateGovernor_transform_facts _ _ _ _ _ _ Hgood E1)
      as (_ & Hgood1 & Hbusy1 & _ & Hle & Hslot & Hcase).
    destruct (IH _ _ _ Hgood1 E2) as (Hafter & Hslots).
    rewrite Hbusy1 in Hafter.
    split.
    + constructor; [exact Hle|].
      eapply Forall_impl; [|exact Hafter]. cbn beta. intros e He. lia.
    + intros k. rewrite emitted_in_slot_cons.
      unfold RateGovernor.slot at 1. cbn [fst].
      specialize (Hslots k).
      destruct Hgood as (_ & Htk & _). destruct Hgood1 as (_ & Htk1 & _).
      destruct (Nat.lt_ge_cases k (t / RateGovernor.window)) as [Hlate|Hnot].
      * rewrite (emitted_in_slot_late es2 t k Hafter Hlate).
        replace (t / RateGovernor.window =? k) with false
          by (symmetry; apply Nat.eqb_neq; lia).
        lia.
      * revert Hslots Hslot Hcase Hnot.
        generalize (RateGovernor.emitted_in_slot es2 k).
        generalize (t / RateGovernor.window).
        generalize (RateGovernor.windowStart st1 / RateGovernor.window).
        generalize (RateGovernor.windowStart st / RateGovernor.window).
        intros k0 k1 kt n Hslots Hslot Hcase Hnot. subst kt.
        destruct (Nat.eqb_spec k1 k), (Nat.eqb_spec k k1), (Nat.ltb_spec k k1),
          (Nat.eqb_spec k k0), (Nat.ltb_spec k k0); lia.
Qed.

End RateGovernorFacts.

Lemma filter_length_split {A : Type} (P P' Q : A -> bool) (l : list A) :
  (forall x, In x l -> P x = true -> P' x = true \/ Q x = true) ->
  List.length (List.filter P l)
  <= List.length (List.filter P' l) + List.length (List.filter Q l).
Proof.
  induction l as [|x l IH]; intros H; simpl; [lia|].
  assert (IH' := IH (fun y Hy => H y (or_intror Hy))).
  destruct (P x) eqn:EP.
  - destruct (H x (or_introl eq_refl) EP) as [E|E]; rewrite E; simpl;
      destruct (P' x), (Q x); simpl; lia.
  - destruct (P' x), (Q x); simpl; lia.
Qed.

Lemma filter_length_none {A : Type} (P : A -> bool) (l : list A) :
  (forall x, In x l -> P x = false) -> List.length (List.filter P l) = 0.
Proof.
  induction l as [|x l IH]; intros H; simpl; [reflexivity|].
  rewrite (H x (or_introl eq_refl)). apply IH. intros y Hy. apply H. now right.
Qed.

Section RateGovernorWindows.

Context {Item : Type}.
Variable N : nat.
Variable es : list (nat * Item).
Hypothesis slots_bounded : forall k, RateGovernor.emitted_in_slot es k <= N.

(** Emissions that all fall into [m] consecutive windows of the governor
    are at most [m * N]. *)
Lemma RateGovernor_count_over_slots (m a : nat) :
  forall P : nat * Item -> bool,
    (forall e, In e es -> P e = true ->
               a <= RateGovernor.slot e < a + m) ->
    List.length (List.filter P es) <= m * N.
Proof.
  induction m as [|m IH]; intros P HP.
  - rewrite filter_length_none; [lia|].
    intros e He. destruct (P e) eqn:E; [|reflexivity].
    specialize (HP e He E). lia.
  - pose (P' := fun e : nat * Item => P e && (RateGovernor.slot e <? a + m)).
    pose (Q := fun e : nat * Item => RateGovernor.slot e =? a + m).
    assert (Hsplit := filter_length_split P P' Q es).
    assert (HP' : List.length (List.filter P' es) <= m * N).
    { apply IH. intros e He E. unfold P' in E.
      apply andb_true_iff in E. destruct E as [E1 E2].
      apply Nat.ltb_lt in E2. specialize (HP e He E1). lia. }
    assert (HQ : List.length (List.filter Q es) <= N)
      by apply (slots_bounded (a + m)).
    enough (List.length (List.filter P es)
            <= List.length (List.filter P' es) + List.length (List.filter Q es))
      by (simpl; lia).
    apply Hsplit. intros e He E. unfold P', Q. rewrite E. simpl.
    specialize (HP e He E).
    destruct (Nat.eq_dec (RateGovernor.slot e) (a + m)) as [Heq|Hne].
    + right. now apply Nat.eqb_eq.
    + left. apply Nat.ltb_lt. lia.
Qed.

Lemma RateGovernor_sliding_bound (t w : nat) :
  RateGovernor.emitted_in es t w <= N * (RateGovernor.ceil_seconds w + 1).
Proof.
  unfold RateGovernor.emitted_in. rewrite Nat.mul_comm.
  apply (RateGovernor_count_over_slots _ (t / RateGovernor.window)).
  intros e _ E. apply andb_true_iff in E. destruct E as [E1 E2].
  apply Nat.leb_le in E1. apply Nat.ltb_lt in E2.
  unfold RateGovernor.slot, RateGovernor.window, RateGovernor.ceil_seconds.
  lia.
Qed.

Lemma RateGovernor_aligned_bound (k : nat) :
  RateGovernor.emitted_in es (k * RateGovernor.window) RateGovernor.window <= N.
Proof.
  unfold RateGovernor.emitted_in.
  rewrite <- (Nat.mul_1_l N).
  apply (RateGovernor_count_over_slots 1 k).
  intros e _ E. apply andb_true_iff in E. destruct E as [E1 E2].
  apply Nat.leb_le in E1. apply Nat.ltb_lt in E2.
  unfold RateGovernor.slot, RateGovernor.window in *.
  lia.
Qed.

(** A window of any length that starts on a boundary of the governor
    overlaps ceil(W) of the governor's windows. *)
Lemma RateGovernor_aligned_any (k w : nat) :
  RateGovernor.emitted_in es (k * RateGovernor.window) w
  <= N * RateGovernor.ceil_seconds w.
Proof.
  unfold RateGovernor.emitted_in.
  rewrite (Nat.mul_comm N).
  apply (RateGovernor_count_over_slots _ k).
  intros e _ E. apply andb_true_iff in E. destruct E as [E1 E2].
  apply Nat.leb_le in E1. apply Nat.ltb_lt in E2.
  unfold RateGovernor.slot, RateGovernor.window, RateGovernor.ceil_seconds in *.
  lia.
Qed.

(** What a window holds before the first boundary inside it lies in one
    window of the governor. *)
Lemma RateGovernor_burst_bound (t w : nat) :
  RateGovernor.emitted_in es t
    (Nat.min w (RateGovernor.next_boundary t - t)) <= N.
Proof.
  unfold RateGovernor.emitted_in.
  rewrite <- (Nat.mul_1_l N).
  apply (RateGovernor_count_over_slots 1 (t / RateGovernor.window)).
  intros e _ E. apply andb_true_iff in E. destruct E as [E1 E2].
  apply Nat.leb_le in E1. apply Nat.ltb_lt in E2.
  unfold RateGovernor.next_boundary, RateGovernor.slot, RateGovernor.window,
    RateGovernor.ceil_seconds in *.
  lia.
Qed.

End RateGovernorWindows.

(** A window cut in two at the time [t + d]. *)
Lemma emitted_in_split {Item : Type} (es : list (nat * Item)) (t w d : nat) :
  RateGovernor.emitted_in es t w
  = RateGovernor.emitted_in es t (Nat.min w d)
    + RateGovernor.emitted_in es (t + d) (w - d).
Proof.
  unfold RateGovernor.emitted_in.
  induction es as [|e es IH]; [reflexivity|].
  cbn [List.filter].
  destruct (Nat.leb_spec t (fst e)), (Nat.ltb_spec (fst e) (t + w)),
    (Nat.ltb_spec (fst e) (t + Nat.min w d)),
    (Nat.leb_spec (t + d) (fst e)), (Nat.ltb_spec (fst e) (t + d + (w - d)));
    cbn [andb List.length]; lia.
Qed.

Lemma RateGovernor_feed_keeps_items {Item : Type} (N : nat)
  (input : list (nat * Item)) :
  0 < N ->
  forall st st' es,
    RateGovernor.good N st ->
    RateGovernor.feed N st input = (st', es) ->
    List.map snd es = List.map snd input
    /\ Forall2 (fun i e => fst i <= fst e) input es.
Proof.
  intros HN.
  induction input as [|[arrival item] rest IH]; intros st st' es Hgood Hfeed;
    cbn [RateGovernor.feed] in Hfeed.
  - injection Hfeed as <- <-. split; [reflexivity|constructor].
  - destruct (RateGovernor.transform N st arrival item) as [st1 [t item']] eqn:E1.
    destruct (RateGovernor.feed N st1 rest) as [st2 es2] eqn:E2.
    injection Hfeed as <- <-.
    destruct (RateGovernor_transform_facts N HN _ _ _ _ _ _ Hgood E1)
      as (-> & Hgood1 & _ & Harr & _).
    destruct (IH _ _ _ Hgood1 E2) as (Hitems & Htimes).
    split; [cbn [List.map snd]; now rewrite Hitems|].
    constructor; [exact Harr|exact Htimes].
Qed.

(** C7. With itemsPerSecond = N > 0 no item is dropped: every item that
    enters is emitted, in arrival order and not before it arrived. The
    emissions are paced by the governor's windows: each of them sees at
    most N; a window of W seconds that starts on a boundary of the
    governor sees at most N * ceil(W); a sliding window that starts at
    any time [t] sees at most N * ceil(W) apart from the burst at the
    boundary, which is what it holds before the first boundary at or
    after [t] and is at most N. So a sliding window holds at most
    N * ceil(W) + N emissions. *)
Theorem RateGovernor_paces_without_dropping :
  forall (Item : Type) (N : nat) (input : list (nat * Item)),
    0 < N ->
    let es := RateGovernor.run N input in
    List.map snd es = List.map snd input
    /\ Forall2 (fun i e => fst i <= fst e) input es
    /\ (forall k,
          RateGovernor.emitted_in es (k * RateGovernor.window)
            RateGovernor.window <= N)
    /\ (forall k w,
          RateGovernor.emitted_in es (k * RateGovernor.window) w
          <= N * RateGovernor.ceil_seconds w)
    /\ (forall t w,
          let b := RateGovernor.next_boundary t in
          let burst := RateGovernor.emitted_in es t (Nat.min w (b - t)) in
          burst <= N
          /\ RateGovernor.emitted_in es t w
             = burst + RateGovernor.emitted_in es b (w - (b - t))
          /\ RateGovernor.emitted_in es t w
             <= N * RateGovernor.ceil_seconds w + burst)
    /\ (forall t w,
          RateGovernor.emitted_in es t w
          <= N * (RateGovernor.ceil_seconds w + 1)).
Proof.
  intros Item N input HN es.
  assert (Hgood : RateGovernor.good N (RateGovernor.init N)).
  { unfold RateGovernor.good, RateGovernor.init.
    cbn [RateGovernor.tokens RateGovernor.windowStart RateGovernor.busyUntil].
    rewrite Nat.Div0.mod_0_l. repeat split; lia. }
  unfold es, RateGovernor.run.
  destruct (RateGovernor.feed N (RateGovernor.init N) input) as [st' es'] eqn:E.
  cbn [snd].
  destruct (RateGovernor_feed_keeps_items N input HN _ _ _ Hgood E)
    as (Hitems & Htimes).
  destruct (RateGovernor_feed_slots N HN input _ _ _ Hgood E) as (_ & Hslots).
  assert (Hall : forall k, RateGovernor.emitted_in_slot es' k <= N).
  { intros k. specialize (Hslots k).
    cbn [RateGovernor.init RateGovernor.tokens RateGovernor.windowStart] in Hslots.
    rewrite Nat.Div0.div_0_l in Hslots.
    destruct (k =? 0); [exact Hslots|].
    destruct (k <? 0); lia. }
  split; [exact Hitems|]. split; [exact Htimes|]. split; [|split; [|split]].
  - intros k. now apply RateGovernor_aligned_bound.
  - intros k w. now apply RateGovernor_aligned_any.
  - intros t w.
    set (b := RateGovernor.next_boundary t).
    set (burst := RateGovernor.emitted_in es' t (Nat.min w (b - t))).
    assert (Hb : t <= b /\ b = RateGovernor.ceil_seconds t * RateGovernor.window).
    { unfold b, RateGovernor.next_boundary, RateGovernor.ceil_seconds,
        RateGovernor.window.
      lia. }
    destruct Hb as [Hb1 Hb2].
    assert (Hburst : burst <= N)
      by (unfold burst, b; now apply RateGovernor_burst_bound).
    assert (Hsplit := emitted_in_split es' t w (b - t)).
    replace (t + (b - t)) with b in Hsplit by lia.
    fold burst in Hsplit.
    assert (Hrest : RateGovernor.emitted_in es' b (w - (b - t))
                    <= N * RateGovernor.ceil_seconds w).
    { rewrite Hb2.
      eapply Nat.le_trans; [now apply RateGovernor_aligned_any|].
      apply Nat.mul_le_mono_l.
      unfold RateGovernor.ceil_seconds. apply Nat.Div0.div_le_mono. lia. }
    split; [exact Hburst|]. split; [exact Hsplit|]. lia.
  - intros t w. now apply RateGovernor_sliding_bound.
Qed.

Lemma RateGovernor_paces_without_dropping_witness :
  let input := [(0, "a"); (0, "b"); (0, "c"); (2500, "d")]%string in
  0 < 2
  /\ RateGovernor.run 2 input
     = [(0, "a"); (0, "b"); (1000, "c"); (2500, "d")]%string
  /\ List.map snd (RateGovernor.run 2 input) = List.map snd input
  /\ RateGovernor.emitted_in (RateGovernor.run 2 input) 0 1500
     <= 2 * RateGovernor.ceil_seconds 1500
  /\ RateGovernor.emitted_in (RateGovernor.run 2 input) 0 1500
     <= 2 * (RateGovernor.ceil_seconds 1500 + 1).
Proof.
  intros input.
  destruct (RateGovernor_paces_without_dropping string 2 input)
    as (Hitems & _ & _ & Hal & _ & Hslide); [lia|].
  split; [lia|]. split; [reflexivity|]. split; [exact Hitems|].
  split; [exact (Hal 0 1500)|exact (Hslide 0 1500)].
Defined.

(** The burst at a boundary does occur: with N = 1 an item emitted at
    999 ms and the next at 1000 ms are both in the second that starts at
    999 ms. The first of them is the burst before the boundary at
    1000 ms, the second is the one emission of the governor's next
    window. *)
Example RateGovernor_burst_is_reached :
  let es := RateGovernor.run 1 [(999, "a"); (1000, "b")]%string in
  es = [(999, "a"); (1000, "b")]%string
  /\ RateGovernor.next_boundary 999 = 1000
  /\ RateGovernor.emitted_in es 999
       (Nat.min 1000 (RateGovernor.next_boundary 999 - 999)) = 1
  /\ RateGovernor.emitted_in es 999 1000
     = 1 * RateGovernor.ceil_seconds 1000 + 1.
Proof.
  intros es.
  assert (E : es = [(999, "a"); (1000, "b")]%string) by (vm_compute; reflexivity).
  split; [exact E|].
  repeat split; vm_compute; reflexivity.
Qed.

(** ** Flow Controller *)

Section FlowControllerFacts.

Context {Item : Type}.

Lemma offer_keeps_link (l l' : FlowController.Link Item) (r : Item) :
  FlowController.offer l r = Some l' ->
  FlowController.link_ok l ->
  FlowController.link_ok l'
  /\ FlowController.capacity l' = FlowController.capacity l.
Proof.
  unfold FlowController.offer, FlowController.link_ok.
  destruct (0 <? FlowController.credit l) eqn:E; [|discriminate].
  apply Nat.ltb_lt in E. intros H; inversion H; subst; clear H. simpl.
  rewrite length_app. simpl. intros Hok. split; [lia|reflexivity].
Qed.

Lemma take_keeps_link (l l' : FlowController.Link Item) (r : Item) :
  FlowController.take l = Some (r, l') ->
  FlowController.link_ok l ->
  FlowController.link_ok l'
  /\ FlowController.capacity l' = FlowController.capacity l.
Proof.
  unfold FlowController.take, FlowController.link_ok.
  destruct (FlowController.buffer l) as [|x rest] eqn:E; [discriminate|].
  intros H; inversion H; subst; clear H. simpl.
  intros Hok. split; [lia|reflexivity].
Qed.

(** Replacing a link by one of the same capacity that respects its
    credit keeps both properties of the list of links. *)
Lemma update_keeps_links (ls : list (FlowController.Link Item)) :
  forall (i : nat) (l l' : FlowController.Link Item),
    nth_error ls i = Some l ->
    FlowController.capacity l' = FlowController.capacity l ->
    FlowController.link_ok l' ->
    Forall FlowController.link_ok ls ->
    Forall FlowController.link_ok (FlowController.update i l' ls)
    /\ List.map FlowController.capacity (FlowController.update i l' ls)
       = List.map FlowController.capacity ls.
Proof.
  induction ls as [|x ls IH]; intros i l l' Hnth Hcap Hok Hall.
  - destruct i; discriminate.
  - inversion Hall; subst. destruct i as [|i]; simpl in *.
    + inversion Hnth; subst. split; [constructor; auto|]. now rewrite Hcap.
    + destruct (IH i l l' Hnth Hcap Hok) as [Hall' Hcaps']; [assumption|].
      split; [constructor; auto|]. now rewrite Hcaps'.
Qed.

Lemma nth_error_update_other (ls : list (FlowController.Link Item)) :
  forall (i j : nat) (x : FlowController.Link Item),
    i <> j ->
    nth_error (FlowController.update i x ls) j = nth_error ls j.
Proof.
  induction ls as [|y ls IH]; intros i j x Hne; simpl.
  - destruct i; reflexivity.
  - destruct i as [|i], j as [|j]; simpl; try reflexivity; try congruence.
    apply IH. congruence.
Qed.

Lemma step_keeps_links (caps : list nat) (p : FlowController.Pipeline Item)
  (a : FlowController.Action Item) :
  FlowController.links_ok caps p -> FlowController.links_ok caps (FlowController.step p a).
Proof.
  unfold FlowController.links_ok. intros [Hall Hcaps].
  assert (Hin : forall i l, nth_error (FlowController.links p) i = Some l ->
                            FlowController.link_ok l).
  { intros i l Hn. rewrite Forall_forall in Hall. apply Hall.
    eapply nth_error_In; eauto. }
  destruct a as [|i out|]; unfold FlowController.step.
  - destruct (FlowController.source p) as [|r rest]; [auto|].
    destruct (nth_error (FlowController.links p) 0) as [l|] eqn:E0; [|auto].
    destruct (FlowController.offer l r) as [l'|] eqn:Eo; [|auto].
    cbn [FlowController.links].
    destruct (offer_keeps_link _ _ _ Eo (Hin _ _ E0)) as [Hok Hcap].
    destruct (update_keeps_links _ 0 l l' E0 Hcap Hok Hall) as [H1 H2].
    split; [exact H1|congruence].
  - destruct (nth_error (FlowController.links p) i) as [up|] eqn:Eu; [|auto].
    destruct (nth_error (FlowController.links p) (S i)) as [down|] eqn:Ed; [|auto].
    destruct (FlowController.take up) as [[r up']|] eqn:Et; [|auto].
    destruct (take_keeps_link _ _ _ Et (Hin _ _ Eu)) as [Hok Hcap].
    destruct (update_keeps_links _ i up up' Eu Hcap Hok Hall) as [H1 H2].
    destruct out as [o|]; [|cbn [FlowController.links]; split; [exact H1|congruence]].
    destruct (FlowController.offer down o) as [down'|] eqn:Eo; [|auto].
    cbn [FlowController.links].
    destruct (offer_keeps_link _ _ _ Eo (Hin _ _ Ed)) as [Hok' Hcap'].
    assert (Ed' : nth_error (FlowController.update i up' (FlowController.links p))
                    (S i) = Some down).
    { rewrite nth_error_update_other by lia. exact Ed. }
    destruct (update_keeps_links _ (S i) down down' Ed' Hcap' Hok' H1) as [H3 H4].
    split; [exact H3|congruence].
  - cbv zeta.
    destruct (nth_error (FlowController.links p)
                (List.length (FlowController.links p) - 1)) as [l|] eqn:El; [|auto].
    destruct (FlowController.take l) as [[r l']|] eqn:Et; [|auto].
    cbn [FlowController.links].
    destruct (take_keeps_link _ _ _ Et (Hin _ _ El)) as [Hok Hcap].
    destruct (update_keeps_links _ _ l l' El Hcap Hok Hall) as [H1 H2].
    split; [exact H1|congruence].
Qed.

Lemma run_keeps_links (caps : list nat) (schedule : list (FlowController.Action Item)) :
  forall p : FlowController.Pipeline Item,
    FlowController.links_ok caps p -> FlowController.links_ok caps (FlowController.run schedule p).
Proof.
  unfold FlowController.run.
  induction schedule as [|a rest IH]; intros p Hp; simpl; [exact Hp|].
  apply IH. now apply step_keeps_links.
Qed.

Lemma init_links_ok (caps : list nat) (input : list Item) :
  FlowController.links_ok caps (FlowController.init caps input).
Proof.
  unfold FlowController.links_ok, FlowController.init. simpl. split.
  - apply Forall_forall. intros l Hl. apply in_map_iff in Hl.
    destruct Hl as (c & <- & _). reflexivity.
  - rewrite map_map. simpl. apply map_id.
Qed.

Lemma links_ok_bounded (caps : list nat) (p : FlowController.Pipeline Item) :
  FlowController.links_ok caps p ->
  FlowController.buffered p <= list_sum caps
  /\ Forall (fun l => List.length (FlowController.buffer l)
                      <= FlowController.capacity l)
            (FlowController.links p).
Proof.
  unfold FlowController.links_ok, FlowController.buffered. intros [Hall <-].
  induction Hall as [|l ls Hl _ IH]; simpl.
  - split; [lia|constructor].
  - destruct IH as [IH1 IH2]. unfold FlowController.link_ok in Hl.
    split; [lia|]. constructor; [lia|exact IH2].
Qed.

End FlowControllerFacts.

(** C1. Whatever the input and however the steps of source, stages and
    sink are scheduled, each link holds at most its capacity, so the
    records buffered over all links are at most the sum of the
    capacities; the Batcher's own buffer stays below batchSize after any
    input, so together with it the total stays within the sum of the
    capacities plus batchSize. *)
Theorem buffered_records_bounded_by_capacities :
  forall (Item : Type) (caps : list nat) (input : list Item)
         (schedule : list (FlowController.Action Item))
         (batchSize : nat) (batched : list Item),
    0 < batchSize ->
    let p := FlowController.run schedule (FlowController.init caps input) in
    let st := fst (Batcher.feed batchSize Batcher.constructor batched) in
    FlowController.buffered p <= list_sum caps
    /\ Forall (fun l => List.length (FlowController.buffer l)
                        <= FlowController.capacity l)
              (FlowController.links p)
    /\ List.map FlowController.capacity (FlowController.links p) = caps
    /\ List.length (Batcher.batch st) < batchSize
    /\ FlowController.buffered p + List.length (Batcher.batch st)
       <= list_sum caps + batchSize.
Proof.
  intros Item caps input schedule batchSize batched Hpos p st.
  assert (Hok : FlowController.links_ok caps p).
  { apply run_keeps_links. apply init_links_ok. }
  destruct (links_ok_bounded caps p Hok) as [Hsum Hall].
  assert (Hb : List.length (Batcher.batch st) < batchSize).
  { destruct (Batcher.feed batchSize Batcher.constructor batched)
      as [st' out] eqn:E.
    destruct (Batcher_feed_sizes batchSize Hpos batched
                Batcher.constructor st' out Hpos E) as (Hlt & _).
    exact Hlt. }
  split; [exact Hsum|]. split; [exact Hall|].
  split; [exact (proj2 Hok)|]. split; [exact Hb|lia].
Qed.

Lemma buffered_records_bounded_by_capacities_witness :
  let schedule := [FlowController.Pull; FlowController.Pull;
                   FlowController.Pull; FlowController.Move 0 (Some 7);
                   FlowController.Pull; FlowController.Pull] in
  let p := FlowController.run schedule
             (FlowController.init [2; 1] [1; 2; 3; 4; 5; 6; 7; 8]) in
  0 < 4
  /\ List.map (fun l => FlowController.buffer l) (FlowController.links p)
     = [[2; 3]; [7]]
  /\ FlowController.buffered p <= list_sum [2; 1].
Proof.
  intros schedule p.
  split; [lia|]. split; [reflexivity|].
  apply (buffered_records_bounded_by_capacities nat [2; 1]
           [1; 2; 3; 4; 5; 6; 7; 8] schedule 4 [1; 2; 3; 4; 5]).
  lia.
Defined.

(** ** Orchestrator *)

Section OrchestratorFacts.

Context {Batch : Type}.
Variable sink : Batch -> option string.

Lemma run_app (tr1 tr2 : list (Orchestrator.Event Batch))
  (st : Orchestrator.State Batch) :
  Orchestrator.run sink (tr1 ++ tr2) st
  = Orchestrator.run sink tr2 (Orchestrator.run sink tr1 st).
Proof. unfold Orchestrator.run. apply fold_left_app. Qed.

Lemma failed_is_final (tr : list (Orchestrator.Event Batch)) :
  forall st,
    Orchestrator.phase st = Orchestrator.Failed ->
    Orchestrator.run sink tr st = st.
Proof.
  induction tr as [|ev tr IH]; intros st Hph; simpl; [reflexivity|].
  assert (Hstep : Orchestrator.step sink st ev = st).
  { unfold Orchestrator.step. rewrite Hph. now destruct ev. }
  rewrite Hstep. now apply IH.
Qed.

Lemma step_in_teardown (st : Orchestrator.State Batch)
  (ev : Orchestrator.Event Batch) :
  Orchestrator.phase st = Orchestrator.Failing ->
  Orchestrator.step sink st ev
  = match ev with
    | Orchestrator.Fatal e =>
        Orchestrator.mkState Batch Orchestrator.Failing
          (Orchestrator.rootCause st) (Orchestrator.recorded st ++ [e])
          (Orchestrator.delivered st)
    | Orchestrator.ShutdownAcked =>
        Orchestrator.mkState Batch Orchestrator.Failed
          (Orchestrator.rootCause st) (Orchestrator.recorded st)
          (Orchestrator.delivered st)
    | _ => st
    end.
Proof.
  intros Hph. unfold Orchestrator.step. rewrite Hph. now destruct ev.
Qed.

(** During the teardown the cause and the delivered batches stay as
    they are, errors are only recorded, and the acknowledgement ends it. *)
Lemma teardown_keeps_cause (tr : list (Orchestrator.Event Batch)) :
  forall st,
    Orchestrator.phase st = Orchestrator.Failing ->
    Orchestrator.rootCause (Orchestrator.run sink tr st)
    = Orchestrator.rootCause st
    /\ Orchestrator.delivered (Orchestrator.run sink tr st)
       = Orchestrator.delivered st
    /\ Orchestrator.recorded (Orchestrator.run sink tr st)
       = Orchestrator.recorded st ++ Orchestrator.teardown_errors tr
    /\ Orchestrator.phase (Orchestrator.run sink tr st)
       = (if existsb Orchestrator.is_ack tr
          then Orchestrator.Failed else Orchestrator.Failing).
Proof.
  induction tr as [|ev tr IH]; intros st Hph.
  - simpl. rewrite app_nil_r. auto.
  - change (Orchestrator.run sink (ev :: tr) st)
      with (Orchestrator.run sink tr (Orchestrator.step sink st ev)).
    rewrite (step_in_teardown st ev Hph).
    destruct ev; cbn [Orchestrator.teardown_errors existsb Orchestrator.is_ack orb];
      try (exact (IH st Hph)).
    + destruct (IH (Orchestrator.mkState Batch Orchestrator.Failing
                      (Orchestrator.rootCause st)
                      (Orchestrator.recorded st ++ [e])
                      (Orchestrator.delivered st)) eq_refl)
        as (H1 & H2 & H3 & H4).
      cbn [Orchestrator.rootCause Orchestrator.recorded Orchestrator.delivered]
        in *.
      rewrite H3, <- app_assoc. auto.
    + rewrite failed_is_final by reflexivity.
      cbn [Orchestrator.rootCause Orchestrator.recorded Orchestrator.delivered
             Orchestrator.phase].
      rewrite app_nil_r. auto.
Qed.

(** Outside the teardown there is neither a cause nor a recorded
    error. *)
Lemma step_keeps_clean (st : Orchestrator.State Batch)
  (ev : Orchestrator.Event Batch) :
  Orchestrator.clean_or_failing st ->
  Orchestrator.clean_or_failing (Orchestrator.step sink st ev).
Proof.
  unfold Orchestrator.clean_or_failing.
  intros [[Hph|Hph]|[Hc Hr]].
  - left. rewrite (step_in_teardown st ev Hph).
    destruct ev; cbn [Orchestrator.phase]; auto.
  - left. right.
    change (Orchestrator.step sink st ev)
      with (Orchestrator.run sink [ev] st).
    now rewrite failed_is_final.
  - destruct st as [ph c r d].
    cbn [Orchestrator.rootCause Orchestrator.recorded] in Hc, Hr. subst c r.
    destruct ph, ev; cbn;
      repeat match goal with
             | |- context [sink ?b] => destruct (sink b)
             | |- context [Pipeline.fatal ?k] => destruct (Pipeline.fatal k)
             end; cbn; tauto.
Qed.

Lemma run_keeps_clean (tr : list (Orchestrator.Event Batch)) :
  forall st,
    Orchestrator.clean_or_failing st ->
    Orchestrator.clean_or_failing (Orchestrator.run sink tr st).
Proof.
  induction tr as [|ev tr IH]; intros st Hst; [exact Hst|].
  apply (IH (Orchestrator.step sink st ev)). now apply step_keeps_clean.
Qed.

Lemma clean_until_failure (tr : list (Orchestrator.Event Batch)) :
  Orchestrator.live
    (Orchestrator.phase (Orchestrator.run sink tr Orchestrator.init)) = true ->
  Orchestrator.rootCause (Orchestrator.run sink tr Orchestrator.init) = None
  /\ Orchestrator.recorded (Orchestrator.run sink tr Orchestrator.init) = [].
Proof.
  intros Hlive.
  destruct (run_keeps_clean tr Orchestrator.init) as [[Hph|Hph]|Hclean].
  - right. split; reflexivity.
  - rewrite Hph in Hlive. discriminate.
  - rewrite Hph in Hlive. discriminate.
  - exact Hclean.
Qed.

(** An event that brings a fatal error into a live pipeline starts the
    teardown with that error as the cause. *)
Lemma first_error_starts_teardown (st : Orchestrator.State Batch)
  (ev : Orchestrator.Event Batch) (e : Pipeline.ProcessingError) :
  Orchestrator.live (Orchestrator.phase st) = true ->
  Orchestrator.raises sink ev = Some e ->
  Orchestrator.phase (Orchestrator.step sink st ev) = Orchestrator.Failing
  /\ Orchestrator.rootCause (Orchestrator.step sink st ev) = Some e
  /\ Orchestrator.recorded (Orchestrator.step sink st ev)
     = Orchestrator.recorded st
  /\ Orchestrator.delivered (Orchestrator.step sink st ev)
     = match ev with
       | Orchestrator.BatchReady b => Orchestrator.delivered st ++ [b]
       | _ => Orchestrator.delivered st
       end.
Proof.
  destruct st as [ph c r d]. unfold Orchestrator.step. simpl.
  intros Hlive Hraise.
  destruct ph; try discriminate; destruct ev; simpl in *; try discriminate;
    match type of Hraise with
    | context [sink ?b] =>
        destruct (sink b) as [cause|]; simpl in *; [|discriminate]
    | context [Pipeline.fatal ?k] =>
        destruct (Pipeline.fatal k); [|discriminate]
    end;
    inversion Hraise; subst; auto.
Qed.

End OrchestratorFacts.

(** C8. When an event brings a fatal error into a running (or draining)
    pipeline, then whatever happens afterwards that error stays the
    cause: the Orchestrator is in Failing until the teardown is
    acknowledged and in Failed from then on, where it raises exactly that
    one error, with its stage name, to the caller; errors reported during
    the teardown are recorded and not raised. Nothing is delivered to the
    Sink after the failure: if the Sink itself failed on a batch, that
    batch is the last one delivered and the cause names the Sink. *)
Theorem Orchestrator_surfaces_first_error :
  forall (Batch : Type) (sink : Batch -> option string)
         (tr1 tr2 : list (Orchestrator.Event Batch))
         (ev : Orchestrator.Event Batch) (e : Pipeline.ProcessingError),
    Orchestrator.live
      (Orchestrator.phase (Orchestrator.run sink tr1 Orchestrator.init)) = true ->
    Orchestrator.raises sink ev = Some e ->
    let before := Orchestrator.run sink tr1 Orchestrator.init in
    let st := Orchestrator.run sink (tr1 ++ ev :: tr2) Orchestrator.init in
    Orchestrator.rootCause st = Some e
    /\ Orchestrator.recorded st = Orchestrator.teardown_errors tr2
    /\ (existsb Orchestrator.is_ack tr2 = true ->
          Orchestrator.phase st = Orchestrator.Failed
          /\ Orchestrator.surfaced st = [e])
    /\ (existsb Orchestrator.is_ack tr2 = false ->
          Orchestrator.phase st = Orchestrator.Failing
          /\ Orchestrator.surfaced st = [])
    /\ List.length (Orchestrator.surfaced st) <= 1
    /\ Orchestrator.delivered st
       = match ev with
         | Orchestrator.BatchReady b => Orchestrator.delivered before ++ [b]
         | _ => Orchestrator.delivered before
         end
    /\ (forall b c,
          ev = Orchestrator.BatchReady b -> sink b = Some c ->
          e = Orchestrator.sink_error c
          /\ Pipeline.stageName e = "Sink"
          /\ Pipeline.kind e = Pipeline.SinkError
          /\ Orchestrator.delivered st = Orchestrator.delivered before ++ [b]).
Proof.
  intros Batch sink tr1 tr2 ev e Hlive Hraise before st.
  destruct (clean_until_failure sink tr1 Hlive) as [_ Hrec].
  destruct (first_error_starts_teardown sink before ev e Hlive Hraise)
    as (Hph & Hcause & Hrec1 & Hdel).
  destruct (teardown_keeps_cause sink tr2 _ Hph) as (Hc2 & Hd2 & Hr2 & Hp2).
  assert (Est : st = Orchestrator.run sink tr2 (Orchestrator.step sink before ev)).
  { unfold st, before. now rewrite run_app. }
  rewrite <- Est in Hc2, Hd2, Hr2, Hp2.
  fold before in Hrec. rewrite Hrec1, Hrec in Hr2. simpl in Hr2.
  rewrite Hcause in Hc2. rewrite Hdel in Hd2.
  assert (Hsurf : Orchestrator.surfaced st
                  = if existsb Orchestrator.is_ack tr2 then [e] else []).
  { unfold Orchestrator.surfaced. rewrite Hp2, Hc2.
    now destruct (existsb Orchestrator.is_ack tr2). }
  split; [exact Hc2|]. split; [exact Hr2|].
  split; [intros Hack; rewrite Hsurf, Hp2, Hack; auto|].
  split; [intros Hack; rewrite Hsurf, Hp2, Hack; auto|].
  split; [rewrite Hsurf; destruct (existsb Orchestrator.is_ack tr2); simpl; lia|].
  split; [exact Hd2|].
  intros b c -> Hsink. simpl in Hraise. rewrite Hsink in Hraise.
  inversion Hraise; subst. repeat split; auto.
Qed.

Lemma Orchestrator_surfaces_first_error_witness :
  let tr1 := [Orchestrator.Start; Orchestrator.BatchReady 1] in
  let tr2 := [Orchestrator.BatchReady 4;
              Orchestrator.Fatal
                (Pipeline.mkError Pipeline.StageError "Filter" "late");
              Orchestrator.ShutdownAcked; Orchestrator.BatchReady 5] in
  let st := Orchestrator.run sample_sink (tr1 ++ Orchestrator.BatchReady 3 :: tr2)
              Orchestrator.init in
  Orchestrator.delivered st = [1; 3]
  /\ Orchestrator.phase st = Orchestrator.Failed
  /\ Orchestrator.surfaced st = [Orchestrator.sink_error "disk full"]
  /\ Orchestrator.recorded st
     = [Pipeline.mkError Pipeline.StageError "Filter" "late"].
Proof.
  intros tr1 tr2 st.
  destruct (Orchestrator_surfaces_first_error nat sample_sink tr1 tr2
              (Orchestrator.BatchReady 3) (Orchestrator.sink_error "disk full"))
    as (_ & Hrec & Hack & _ & _ & Hdel & _); [reflexivity | reflexivity |].
  destruct Hack as [Hph Hsurf]; [reflexivity|].
  split; [exact Hdel|]. split; [exact Hph|]. split; [exact Hsurf|exact Hrec].
Defined.

(* ================================================================== *)
(** * Part III: further properties of the code                         *)
(* ================================================================== *)

(** ** randomFrom *)

Section Binary64Facts.

Local Open Scope Z_scope.

(** A positive number of [d] binary digits lies from 2^(d-1) up to 2^d. *)
Lemma digits2_pos_bounds (p : positive) :
  2 ^ (Z.pos (digits2_pos p) - 1) <= Z.pos p < 2 ^ Z.pos (digits2_pos p).
Proof.
  induction p as [p IH|p IH|]; cbn [digits2_pos].
  - rewrite Pos2Z.inj_succ.
    replace (Z.succ (Z.pos (digits2_pos p)) - 1)
      with (Z.succ (Z.pos (digits2_pos p) - 1)) by lia.
    rewrite !Z.pow_succ_r by lia. lia.
  - rewrite Pos2Z.inj_succ.
    replace (Z.succ (Z.pos (digits2_pos p)) - 1)
      with (Z.succ (Z.pos (digits2_pos p) - 1)) by lia.
    rewrite !Z.pow_succ_r by lia. lia.
  - cbn. lia.
Qed.

(** One step of the right shift: the mantissa is halved and the bit that
    falls out becomes the round bit. *)
Lemma shr_1_spec (mrs : shr_record) :
  0 <= shr_m mrs ->
  0 <= shr_m (shr_1 mrs)
  /\ shr_m mrs = 2 * shr_m (shr_1 mrs) + (if shr_r (shr_1 mrs) then 1 else 0).
Proof.
  destruct mrs as [m r s]. cbn [shr_m].
  destruct m as [|[p|p|]|p]; cbn [shr_1 shr_m shr_r]; lia.
Qed.

Lemma shr_inv_step (M k : Z) (mrs : shr_record) :
  shr_inv M k mrs -> shr_inv M (k + 1) (shr_1 mrs).
Proof.
  intros (Hk & Hm & Hle & Hr).
  destruct (shr_1_spec mrs Hm) as (Hm' & Heq).
  unfold shr_inv.
  replace (k + 1 - 1) with k by lia.
  rewrite Z.pow_add_r, Z.pow_1_r by lia.
  assert (Hp : 0 < 2 ^ k) by (apply Z.pow_pos_nonneg; lia).
  assert (Hq : 0 <= (if shr_r mrs then 2 ^ (k - 1) else 0)).
  { destruct (shr_r mrs); [|lia]. apply Z.pow_nonneg. lia. }
  repeat split; try lia.
  rewrite Heq in Hle.
  destruct (shr_r (shr_1 mrs)); nia.
Qed.

(** An invariant that counts the steps holds after [iter_pos]. *)
Lemma iter_pos_inv {A : Type} (f : A -> A) (Inv : Z -> A -> Prop) :
  (forall k x, Inv k x -> Inv (k + 1) (f x)) ->
  forall (p : positive) (k : Z) (x : A),
    Inv k x -> Inv (k + Z.pos p) (iter_pos f p x).
Proof.
  intros Hstep.
  induction p as [p IH|p IH|]; intros k x Hx; cbn [iter_pos].
  - replace (k + Z.pos p~1) with (k + 1 + Z.pos p + Z.pos p) by lia.
    apply IH, IH, Hstep, Hx.
  - replace (k + Z.pos p~0) with (k + Z.pos p + Z.pos p) by lia.
    apply IH, IH, Hx.
  - apply Hstep, Hx.
Qed.

(** The shift by [n] places of the rounding, nothing for [n <= 0]. *)
Lemma shr_spec (M : Z) (mrs : shr_record) (e n : Z) :
  shr_inv M 0 mrs ->
  let '(mrs', e') := shr mrs e n in
  e' = e + Z.max n 0 /\ shr_inv M (Z.max n 0) mrs'.
Proof.
  intros H. destruct n as [|p|p]; cbn [shr].
  - split; [lia|exact H].
  - split; [lia|].
    replace (Z.max (Z.pos p) 0) with (0 + Z.pos p) by lia.
    apply (iter_pos_inv shr_1 (shr_inv M) (shr_inv_step M)). exact H.
  - split; [lia|exact H].
Qed.

(** Rounding to nearest adds one to the mantissa only when the round bit
    is set. *)
Lemma round_nearest_even_bound (mrs : shr_record) :
  0 <= shr_m mrs ->
  0 <= round_nearest_even (shr_m mrs) (loc_of_shr_record mrs)
       <= shr_m mrs + (if shr_r mrs then 1 else 0).
Proof.
  destruct mrs as [m r s]. cbn [shr_m shr_r]. intros Hm.
  destruct r, s; cbn [loc_of_shr_record round_nearest_even];
    try destruct (Z.even m); lia.
Qed.

Lemma shr_inv_start (M : Z) : 0 <= M -> shr_inv M 0 (shr_record_of_loc M loc_Exact).
Proof.
  intros H. unfold shr_inv. cbn [shr_record_of_loc shr_m shr_r].
  rewrite Z.pow_0_r. repeat split; try lia; discriminate.
Qed.

(** The rounding of [P * 2^E] to binary64: in units of [2^E] the result
    is at most [P] and half a unit of the last place kept. *)
Lemma binary_round_aux_upper (P : positive) (E : Z) :
  let n := Z.max (fexp Binary64.prec Binary64.emax (Zdigits2 (Z.pos P) + E) - E) 0 in
  exists m3 e3,
    0 <= m3 /\ E <= e3
    /\ m3 * 2 ^ (e3 - E) <= Z.pos P + 2 ^ (n - 1)
    /\ binary_round_aux Binary64.prec Binary64.emax false (Z.pos P) E loc_Exact
       = match m3 with
         | Z0 => S754_zero false
         | Z.pos m =>
             if e3 <=? Binary64.emax - Binary64.prec
             then S754_finite false m e3 else S754_infinity false
         | Z.neg _ => S754_nan
         end.
Proof.
  intros n. unfold binary_round_aux, shr_fexp.
  assert (H1 := shr_spec (Z.pos P) (shr_record_of_loc (Z.pos P) loc_Exact) E
                  (fexp Binary64.prec Binary64.emax (Zdigits2 (Z.pos P) + E) - E)
                  (shr_inv_start _ (Pos2Z.is_nonneg P))).
  fold n in H1.
  destruct (shr _ E _) as [mrs' e'].
  destruct H1 as (He' & Hn & Hm' & Hle & Hr).
  assert (H2 := round_nearest_even_bound mrs' Hm').
  set (m2 := round_nearest_even (shr_m mrs') (loc_of_shr_record mrs')) in *.
  assert (H3 := shr_spec m2 (shr_record_of_loc m2 loc_Exact) e'
                  (fexp Binary64.prec Binary64.emax (Zdigits2 m2 + e') - e')
                  (shr_inv_start _ (proj1 H2))).
  set (n2 := Z.max (fexp Binary64.prec Binary64.emax (Zdigits2 m2 + e') - e') 0) in *.
  destruct (shr _ e' _) as [mrs'' e''].
  destruct H3 as (He'' & Hn2 & Hm'' & Hle2 & _).
  exists (shr_m mrs''), e''.
  split; [exact Hm''|]. split; [lia|]. split; [|reflexivity].
  replace (e'' - E) with (n2 + n) by lia.
  rewrite Z.pow_add_r by lia.
  assert (Hp : 0 < 2 ^ n) by (apply Z.pow_pos_nonneg; lia).
  assert (Hp2 : 0 < 2 ^ n2) by (apply Z.pow_pos_nonneg; lia).
  assert (Hq : 0 <= 2 ^ (n - 1)) by (apply Z.pow_nonneg; lia).
  assert (Hle2' : shr_m mrs'' * 2 ^ n2 <= m2).
  { destruct (shr_r mrs''); [|lia].
    assert (0 <= 2 ^ (n2 - 1)) by (apply Z.pow_nonneg; lia). lia. }
  assert (Hm2 : m2 * 2 ^ n <= Z.pos P + 2 ^ (n - 1)).
  { destruct (shr_r mrs').
    - assert (1 <= n) by (apply Hr; reflexivity).
      assert (E2 : 2 ^ n = 2 * 2 ^ (n - 1)).
      { replace n with (Z.succ (n - 1)) at 1 by lia.
        apply Z.pow_succ_r. lia. }
      nia.
    - nia. }
  nia.
Qed.

Lemma iter_xO_spec (p q : positive) :
  digits2_pos (Pos.iter xO p q) = (digits2_pos p + q)%positive
  /\ Z.pos (Pos.iter xO p q) = Z.pos p * 2 ^ Z.pos q.
Proof.
  induction q as [|q IH] using Pos.peano_ind.
  - cbn [Pos.iter digits2_pos]. split; [now rewrite Pos.add_1_r|].
    rewrite Z.pow_1_r. lia.
  - rewrite Pos.iter_succ. destruct IH as [IH1 IH2].
    cbn [digits2_pos]. rewrite IH1. split; [lia|].
    rewrite Pos2Z.inj_succ, Z.pow_succ_r by lia. lia.
Qed.

Lemma digits_le_53 (p : positive) : Z.pos p < 2 ^ 53 -> Z.pos (digits2_pos p) <= 53.
Proof.
  intros H. destruct (digits2_pos_bounds p) as [Hlo _].
  assert (Hlt : 2 ^ (Z.pos (digits2_pos p) - 1) < 2 ^ 53) by lia.
  apply Z.pow_lt_mono_r_iff in Hlt; lia.
Qed.

(** A number that has 53 digits is not rounded. *)
Lemma binary_round_aux_53 (mz : positive) (ez : Z) :
  Z.pos (digits2_pos mz) = 53 -> -1074 <= ez <= 971 ->
  binary_round_aux Binary64.prec Binary64.emax false (Z.pos mz) ez loc_Exact
  = S754_finite false mz ez.
Proof.
  intros Hd He.
  unfold binary_round_aux, shr_fexp.
  cbn [Zdigits2]. rewrite Hd.
  assert (Hn : fexp Binary64.prec Binary64.emax (53 + ez) - ez = 0).
  { unfold fexp, emin, Binary64.prec, Binary64.emax. lia. }
  rewrite Hn. cbn [shr shr_record_of_loc shr_m loc_of_shr_record round_nearest_even].
  cbn [Zdigits2]. rewrite Hd, Hn.
  cbn [shr shr_m].
  replace (ez <=? Binary64.emax - Binary64.prec) with true; [reflexivity|].
  symmetry. apply Z.leb_le. unfold Binary64.prec, Binary64.emax. lia.
Qed.

(** The Number of an array length: the length itself, with a mantissa
    of 53 digits. *)
Lemma of_nat_spec (L : nat) :
  (0 < L)%nat -> Z.of_nat L < 2 ^ 53 ->
  exists K eK,
    Binary64.of_nat L = S754_finite false K eK
    /\ Z.pos K = Z.of_nat L * 2 ^ (- eK)
    /\ -52 <= eK <= 0.
Proof.
  intros HL Hlt. unfold Binary64.of_nat.
  destruct (Z.of_nat L) as [|p|p] eqn:EL; try lia.
  cbn [binary_normalize]. unfold binary_round.
  assert (Hd := digits_le_53 p Hlt).
  assert (Hfe : fexp Binary64.prec Binary64.emax (Z.pos (digits2_pos p) + 0)
                = Z.pos (digits2_pos p) - 53).
  { unfold fexp, emin, Binary64.prec, Binary64.emax. lia. }
  rewrite Hfe. unfold shl_align.
  destruct (Z.pos (digits2_pos p) - 53 - 0) as [|q|q] eqn:Eq; try lia.
  - exists p, 0. rewrite binary_round_aux_53 by lia.
    split; [reflexivity|]. cbn. lia.
  - destruct (iter_xO_spec p q) as [H1 H2].
    exists (Pos.iter xO p q), (Z.pos (digits2_pos p) - 53).
    rewrite binary_round_aux_53; [| rewrite H1; lia | lia].
    split; [reflexivity|]. split; [|lia].
    rewrite H2. f_equal. f_equal. lia.
Qed.

Lemma SFone_value :
  SFone Binary64.prec Binary64.emax = S754_finite false 4503599627370496 (-52).
Proof. vm_compute. reflexivity. Qed.

Lemma SFltb_finite (m m' : positive) (e e' : Z) :
  SFltb (S754_finite false m e) (S754_finite false m' e') = true ->
  e < e' \/ (e = e' /\ Z.pos m < Z.pos m').
Proof.
  unfold SFltb, SFcompare.
  destruct (e ?= e') eqn:Ecmp; try discriminate.
  - apply Z.compare_eq in Ecmp.
    rewrite Pos.compare_cont_spec. cbn [Pos.switch_Eq].
    destruct (m ?= m')%positive eqn:Em; try discriminate.
    apply Pos.compare_lt_iff in Em. intros _. right.
    split; [exact Ecmp|]. apply Pos2Z.pos_lt_pos. exact Em.
  - apply Z.compare_lt_iff in Ecmp. intros _. now left.
Qed.

Lemma random_ok_cases (r : spec_float) :
  Binary64.random_ok r = true ->
  (exists s, r = S754_zero s)
  \/ (exists m e, r = S754_finite false m e
                  /\ Z.pos m < 2 ^ 53 /\ -1074 <= e <= -53).
Proof.
  unfold Binary64.random_ok. rewrite SFone_value.
  destruct r as [s|s| |s m e].
  - intros _. left. now exists s.
  - destruct s; cbn; discriminate.
  - cbn. discriminate.
  - intros H. apply andb_true_iff in H. destruct H as [H Hlt].
    apply andb_true_iff in H. destruct H as [Hv Hle].
    destruct s; [cbn in Hle; discriminate|].
    right. exists m, e. split; [reflexivity|].
    cbn [valid_binary] in Hv. unfold bounded, canonical_mantissa in Hv.
    apply andb_true_iff in Hv. destruct Hv as [Hc _].
    apply Z.eqb_eq in Hc.
    unfold fexp, emin, Binary64.prec, Binary64.emax in Hc.
    destruct (digits2_pos_bounds m) as [Hlo Hhi].
    assert (Hd : Z.pos (digits2_pos m) <= 53) by lia.
    assert (Hp : 2 ^ Z.pos (digits2_pos m) <= 2 ^ 53)
      by (apply Z.pow_le_mono_r; lia).
    split; [lia|]. split; [lia|].
    apply SFltb_finite in Hlt.
    destruct Hlt as [Hlt|[He Hm]]; [lia|].
    assert (Hd53 : Z.pos (digits2_pos m) = 53) by lia.
    rewrite Hd53 in Hlo. 
    assert (Hc2 : 2 ^ (53 - 1) = 4503599627370496) by reflexivity.
    lia.
Qed.

Lemma pow2_pos (x : Z) : 0 <= x -> 0 < 2 ^ x.
Proof. intros H. apply Z.pow_pos_nonneg; lia. Qed.

(** Math.floor(r * n) for a Number [r] in the range of Math.random() and
    an array length [n]: an integer from 0 to n - 1. *)
Lemma floor_of_product_in_range (r : spec_float) (L : nat) :
  Binary64.random_ok r = true ->
  (0 < L)%nat -> Z.of_nat L < 2 ^ 53 ->
  exists k,
    Binary64.Math_floor (Binary64.mul r (Binary64.of_nat L)) = Some k
    /\ 0 <= k < Z.of_nat L.
Proof.
  intros Hr HL Hlt.
  destruct (of_nat_spec L HL Hlt) as (K & eK & -> & HK & HeK).
  destruct (random_ok_cases r Hr) as [[s ->]|(m & e & -> & Hm & He)].
  - exists 0. split; [reflexivity|lia].
  - unfold Binary64.mul. cbn [SFmul xorb].
    set (E := e + eK).
    destruct (binary_round_aux_upper (m * K) E) as (m3 & e3 & Hm3 & He3 & Hup & ->).
    set (d := Zdigits2 (Z.pos (m * K)) + E) in Hup.
    set (n := Z.max (fexp Binary64.prec Binary64.emax d - E) 0) in Hup.
    (* the bound, in units of 2^E *)
    assert (HB : Z.of_nat L * 2 ^ (- E) = Z.pos K * 2 ^ (- e)).
    { rewrite HK. unfold E.
      replace (- (e + eK)) with (- eK + - e) by lia.
      rewrite Z.pow_add_r by lia. ring. }
    assert (H53 : 2 ^ 53 <= 2 ^ (- e)) by (apply Z.pow_le_mono_r; lia).
    assert (HKpos : 2 ^ (- eK) <= Z.pos K).
    { rewrite HK. assert (0 < 2 ^ (- eK)) by (apply pow2_pos; lia). nia. }
    assert (Hhalf : 2 ^ (n - 1) < Z.pos K).
    { destruct (digits2_pos_bounds (m * K)) as [Hlo _].
      assert (Hcases : n <= 0
                       \/ n = Z.pos (digits2_pos (m * K)) - 53
                       \/ (0 < n /\ n = -1074 - E)).
      { unfold n, d, fexp, emin, Binary64.prec, Binary64.emax.
        cbn [Zdigits2]. lia. }
      clearbody n.
      destruct Hcases as [Hn|[Hn|[Hn0 Hn]]].
      - rewrite Z.pow_neg_r by lia. lia.
      - (* the product has more than 53 digits *)
        destruct (Z_lt_le_dec (n - 1) 0) as [Hneg|Hnn].
        { rewrite Z.pow_neg_r by lia. lia. }
        assert (Hsplit : 2 ^ (Z.pos (digits2_pos (m * K)) - 1)
                         = 2 ^ (n - 1) * 2 ^ 53).
        { rewrite <- Z.pow_add_r by lia. f_equal; lia. }
        rewrite Hsplit, Pos2Z.inj_mul in Hlo.
        assert (0 < 2 ^ (n - 1)) by (apply pow2_pos; lia).
        nia.
      - (* below the normal range *)
        eapply Z.lt_le_trans; [|exact HKpos].
        apply Z.pow_lt_mono_r; unfold E in *; lia. }
    assert (Hbound : m3 * 2 ^ (e3 - E) < Z.of_nat L * 2 ^ (- E)).
    { rewrite HB. rewrite Pos2Z.inj_mul in Hup. nia. }
    destruct m3 as [|m3|m3]; [| |lia].
    + exists 0. split; [reflexivity|lia].
    + assert (HpE : 0 < 2 ^ (e3 - E)) by (apply pow2_pos; lia).
      assert (HnE : 0 < 2 ^ (- E)) by (apply pow2_pos; unfold E; lia).
      assert (He53 : e3 < 53).
      { assert (Hlt2 : 2 ^ (e3 - E) < 2 ^ (53 + - E)).
        { rewrite Z.pow_add_r by (unfold E; lia). nia. }
        apply Z.pow_lt_mono_r_iff in Hlt2; unfold E in *; lia. }
      replace (e3 <=? Binary64.emax - Binary64.prec) with true
        by (symmetry; apply Z.leb_le; unfold Binary64.emax, Binary64.prec; lia).
      cbn [Binary64.Math_floor cond_Zopp].
      eexists. split; [reflexivity|].
      destruct (Z_lt_le_dec e3 0) as [Hneg|Hnn].
      * rewrite <- (Z.opp_involutive e3) at 1 2.
        rewrite Z.shiftl_opp_r, Z.shiftr_div_pow2 by lia.
        assert (Hp3 : 0 < 2 ^ (- e3)) by (apply pow2_pos; lia).
        split; [apply Z.div_pos; lia|].
        apply Z.div_lt_upper_bound; [lia|].
        assert (Hs : 2 ^ (- E) = 2 ^ (- e3) * 2 ^ (e3 - E)).
        { rewrite <- Z.pow_add_r by lia. f_equal; lia. }
        rewrite Hs in Hbound. nia.
      * rewrite Z.shiftl_mul_pow2 by lia.
        assert (Hp3 : 0 < 2 ^ e3) by (apply pow2_pos; lia).
        split; [lia|].
        assert (Hs : 2 ^ (e3 - E) = 2 ^ e3 * 2 ^ (- E)).
        { rewrite <- Z.pow_add_r by (unfold E; lia). f_equal; lia. }
        rewrite Hs in Hbound. nia.
Qed.

End Binary64Facts.

(** With the product taken exactly, the draw i / length returns the
    element at index [i]. *)
Lemma randomFrom_exact_reaches (arr : list string) (i : nat) (x : string) :
  nth_error arr i = Some x ->
  let q := (Z.of_nat i # Pos.of_nat (List.length arr))%Q in
  GenerateLogs.draw_ok q = true /\ GenerateLogs.randomFrom arr q = Some x.
Proof.
  intros Hx q.
  assert (Hi : i < List.length arr) by (apply nth_error_Some; congruence).
  assert (Hpos : Z.pos (Pos.of_nat (List.length arr))
                 = Z.of_nat (List.length arr)).
  { destruct (List.length arr) as [|n']; [lia|].
    rewrite <- Pos.of_nat_succ. lia. }
  assert (Heq : (q * inject_Z (Z.of_nat (List.length arr))
                 == inject_Z (Z.of_nat i))%Q).
  { unfold q, Qeq, Qmult, inject_Z. simpl Qnum. simpl Qden.
    rewrite Pos.mul_1_r, Hpos. ring. }
  split.
  - unfold GenerateLogs.draw_ok. apply andb_true_iff. split.
    + apply Qle_bool_iff. unfold q, Qle. simpl. lia.
    + apply negb_true_iff. apply not_true_iff_false. intros H.
      apply Qle_bool_iff in H. unfold q, Qle in H. simpl in H. lia.
  - unfold GenerateLogs.randomFrom, JS.index, JS.Math_floor.
    rewrite (Qfloor_comp _ _ Heq), Qfloor_Z.
    replace (Z.of_nat i <? 0)%Z with false by (symmetry; apply Z.ltb_ge; lia).
    now rewrite Nat2Z.id.
Qed.

(** X1. randomFrom never reads outside its array. For every Number [r]
    that Math.random() can return and every array that is not empty
    (array lengths are below 2^32, the statement holds below 2^53), the
    product [r * arr.length], rounded to binary64, has a floor from 0 to
    [arr.length - 1], although the rounding can carry the product up to
    the next integer; so randomFrom returns an element of the array,
    never undefined. The element is also one that the exact product
    selects for some draw, so the lines the script can produce are lines
    of [GenerateLogs.generateLogLine]. *)
Theorem randomFrom_binary64_stays_in_the_array :
  forall (arr : list string) (r : spec_float),
    Binary64.random_ok r = true ->
    arr <> [] ->
    (Z.of_nat (List.length arr) < 2 ^ 53)%Z ->
    exists (i : nat) (x : string),
      Binary64.Math_floor
        (Binary64.mul r (Binary64.of_nat (List.length arr)))
      = Some (Z.of_nat i)
      /\ i < List.length arr
      /\ nth_error arr i = Some x
      /\ Binary64.randomFrom arr r = Some x
      /\ exists q : Q,
           GenerateLogs.draw_ok q = true
           /\ GenerateLogs.randomFrom arr q = Some x.
Proof.
  intros arr r Hr Hne Hlen.
  assert (HL : 0 < List.length arr) by (destruct arr; [congruence|cbn; lia]).
  destruct (floor_of_product_in_range r _ Hr HL Hlen) as (k & Hk & Hrange).
  assert (Hi : Z.to_nat k < List.length arr) by lia.
  destruct (nth_error arr (Z.to_nat k)) as [x|] eqn:Ex;
    [|apply nth_error_None in Ex; lia].
  exists (Z.to_nat k), x.
  rewrite Z2Nat.id by lia.
  split; [exact Hk|]. split; [exact Hi|]. split; [exact Ex|]. split.
  - unfold Binary64.randomFrom. rewrite Hk. unfold JS.index.
    replace (k <? 0)%Z with false by (symmetry; apply Z.ltb_ge; lia).
    exact Ex.
  - eexists. exact (randomFrom_exact_reaches arr _ x Ex).
Qed.

Lemma randomFrom_binary64_stays_in_the_array_witness :
  exists (i : nat) (x : string),
    Binary64.Math_floor
      (Binary64.mul (S754_finite false 5404319552844595 (-53))
         (Binary64.of_nat 5))
    = Some (Z.of_nat i)
    /\ i < 5
    /\ nth_error ["Database connection failed"; "Timeout exceeded";
                  "File not found"; "Auth failed"; "Null pointer"] i = Some x
    /\ Binary64.randomFrom
         ["Database connection failed"; "Timeout exceeded";
          "File not found"; "Auth failed"; "Null pointer"]
         (S754_finite false 5404319552844595 (-53)) = Some x
    /\ exists q : Q,
         GenerateLogs.draw_ok q = true
         /\ GenerateLogs.randomFrom
              ["Database connection failed"; "Timeout exceeded";
               "File not found"; "Auth failed"; "Null pointer"] q = Some x.
Proof.
  apply (randomFrom_binary64_stays_in_the_array
           ["Database connection failed"; "Timeout exceeded";
            "File not found"; "Auth failed"; "Null pointer"]
           (S754_finite false 5404319552844595 (-53))).
  - vm_compute. reflexivity.
  - discriminate.
  - vm_compute. reflexivity.
Defined.

(** [arr[0]] of an empty array, whatever the product is. *)
Lemma randomFrom_binary64_empty (r : spec_float) : Binary64.randomFrom [] r = None.
Proof.
  unfold Binary64.randomFrom.
  destruct (Binary64.Math_floor _) as [k|]; [|reflexivity].
  unfold JS.index. destruct (k <? 0)%Z; [reflexivity|].
  now destruct (Z.to_nat k).
Qed.

Lemma randomFrom_binary64_reaches_4 (a b c d x : string) :
  In x [a; b; c; d] ->
  exists r, Binary64.random_ok r = true
            /\ Binary64.randomFrom [a; b; c; d] r = Some x.
Proof.
  intros [<-|[<-|[<-|[<-|[]]]]].
  - exists (Binary64.dyadic 0 0). split; vm_compute; reflexivity.
  - exists (Binary64.dyadic 1 (-2)). split; vm_compute; reflexivity.
  - exists (Binary64.dyadic 1 (-1)). split; vm_compute; reflexivity.
  - exists (Binary64.dyadic 3 (-2)). split; vm_compute; reflexivity.
Qed.

Lemma randomFrom_binary64_reaches_5 (a b c d e x : string) :
  In x [a; b; c; d; e] ->
  exists r, Binary64.random_ok r = true
            /\ Binary64.randomFrom [a; b; c; d; e] r = Some x.
Proof.
  intros [<-|[<-|[<-|[<-|[<-|[]]]]]].
  - exists (Binary64.dyadic 0 0). split; vm_compute; reflexivity.
  - exists (Binary64.dyadic 1 (-2)). split; vm_compute; reflexivity.
  - exists (Binary64.dyadic 1 (-1)). split; vm_compute; reflexivity.
  - exists (Binary64.dyadic 5 (-3)). split; vm_compute; reflexivity.
  - exists (Binary64.dyadic 7 (-3)). split; vm_compute; reflexivity.
Qed.

(** X2. On an empty array randomFrom returns undefined whatever Number
    is drawn. Every level of LOG_LEVELS and every message of each list
    of MESSAGES is returned for some Number in the range of
    Math.random(): no entry of the tables is out of reach of the
    rounded product. *)
Theorem randomFrom_binary64_reaches_the_tables :
  (forall r : spec_float, Binary64.randomFrom [] r = None)
  /\ (forall lvl : string,
        In lvl GenerateLogs.LOG_LEVELS ->
        exists r, Binary64.random_ok r = true
                  /\ Binary64.randomFrom GenerateLogs.LOG_LEVELS r = Some lvl)
  /\ (forall (lvl : string) (msgs : list string) (msg : string),
        GenerateLogs.lookup lvl GenerateLogs.MESSAGES = Some msgs ->
        In msg msgs ->
        exists r, Binary64.random_ok r = true
                  /\ Binary64.randomFrom msgs r = Some msg).
Proof.
  split; [exact randomFrom_binary64_empty|]. split.
  - intros lvl. apply randomFrom_binary64_reaches_4.
  - intros lvl msgs msg Hl.
    unfold GenerateLogs.MESSAGES in Hl. cbn [GenerateLogs.lookup] in Hl.
    repeat match type of Hl with
           | (if ?c then _ else _) = _ => destruct c
           end;
      try discriminate;
      injection Hl as <-; apply randomFrom_binary64_reaches_5.
Qed.

Lemma randomFrom_binary64_reaches_the_tables_witness :
  exists r, Binary64.random_ok r = true
            /\ Binary64.randomFrom
                 ["Database connection failed"; "Timeout exceeded";
                  "File not found"; "Auth failed"; "Null pointer"] r
               = Some "Null pointer".
Proof.
  apply (proj2 (proj2 randomFrom_binary64_reaches_the_tables) "ERROR").
  - reflexivity.
  - do 4 right. left. reflexivity.
Defined.

(** The rounding shows: the Number nearest to 0.6 is below 0.6, its
    exact product with 5 is below 3, and its binary64 product with 5 is
    3. The script picks the fourth message where the exact product
    selects the third. *)
Example randomFrom_rounding_matters :
  let msgs := ["Database connection failed"; "Timeout exceeded";
               "File not found"; "Auth failed"; "Null pointer"] in
  let r := S754_finite false 5404319552844595 (-53) in
  let q := (5404319552844595 # 9007199254740992)%Q in
  Binary64.random_ok r = true
  /\ Binary64.randomFrom msgs r = Some "Auth failed"
  /\ GenerateLogs.randomFrom msgs q = Some "File not found".
Proof. vm_compute. repeat split. Qed.

(** ** The generated line outside the four-digit years, and under the
    error scan *)

(** X3. For a clock whose year has more than four digits or is negative,
    toISOString writes a sign and six digits, and the line that
    generateLogLine cuts out of it is not of the record grammar: it has a
    sign where the grammar has the first digit of the year. *)
Theorem generateLogLine_breaks_beyond_year_9999 :
  forall env : GenerateLogs.Env,
    draws_ok env ->
    (JS.year (GenerateLogs.clock env) < 0
     \/ 9999 < JS.year (GenerateLogs.clock env))%Z ->
    exists line,
      GenerateLogs.generateLogLine env = Some line
      /\ RecordGrammar.matches line = false.
Proof.
  intros env [Hl Hm] Hy.
  destruct (generateLogLine_shape env Hl Hm)
    as (lvl & msgs & msg & _ & _ & _ & Eline).
  eexists. split; [exact Eline|].
  unfold JS.toISOString, JS.iso_year.
  replace ((0 <=? JS.year (GenerateLogs.clock env))
           && (JS.year (GenerateLogs.clock env) <=? 9999))%Z%bool
    with false
    by (symmetry; apply andb_false_iff; rewrite Z.leb_gt, Z.leb_gt; lia).
  destruct (JS.year (GenerateLogs.clock env) <? 0)%Z;
    cbn [String.append JS.replace_first Ascii.eqb Bool.eqb JS.slice0
           String.substring];
    reflexivity.
Qed.

Lemma generateLogLine_breaks_beyond_year_9999_witness :
  exists line,
    GenerateLogs.generateLogLine
      (GenerateLogs.mkEnv (JS.mkDate 10000 1 1 0 0 0 0) (3 # 4) (1 # 5))
    = Some line
    /\ RecordGrammar.matches line = false.
Proof.
  apply generateLogLine_breaks_beyond_year_9999.
  - split; reflexivity.
  - right. simpl. lia.
Defined.

Lemma includes_ERROR_skip (c : ascii) (s : string) :
  Ascii.eqb "E" c = false ->
  ErrorScan.includes "ERROR" (String c s) = ErrorScan.includes "ERROR" s.
Proof.
  intros H. cbn [ErrorScan.includes ErrorScan.startsWith]. now rewrite H.
Qed.

Lemma digit_is_not_E (k : N) : Ascii.eqb "E" (digit k) = false.
Proof.
  pose proof (digit_cases k) as H. simpl in H.
  repeat (destruct H as [<-|H]; [reflexivity|]). contradiction.
Qed.

(** The error scan of a line of the generator looks past the timestamp. *)
Lemma includes_ERROR_after_timestamp (d : JS.Date) (rest : string) :
  ErrorScan.includes "ERROR"
    ("[" ++ timestamp_text d ++ "] [" ++ rest)%string
  = ErrorScan.includes "ERROR" rest.
Proof.
  unfold timestamp_text. cbn [String.append].
  repeat (rewrite includes_ERROR_skip
            by (first [apply digit_is_not_E | reflexivity])).
  reflexivity.
Qed.

Lemma string_app_assoc (a b c : string) :
  ((a ++ b) ++ c = a ++ (b ++ c))%string.
Proof. induction a as [|x a IH]; simpl; [reflexivity|now rewrite IH]. Qed.

(** X4. A line of the generator (four-digit year) contains the text
    ERROR exactly when its level is ERROR: no message of another level
    and no timestamp contains it. So the guide's error counter, which
    receives the line without its line break, counts it exactly when its
    level is ERROR. *)
Theorem error_scan_counts_error_level :
  forall (env : GenerateLogs.Env) (errorCount : nat),
    draws_ok env ->
    JS.Date_fields_ok (GenerateLogs.clock env) = true ->
    (0 <= JS.year (GenerateLogs.clock env) <= 9999)%Z ->
    exists line body lvl,
      GenerateLogs.generateLogLine env = Some line
      /\ line = (body ++ String RecordGrammar.newline "")%string
      /\ RecordGrammar.level_of line = Some lvl
      /\ ErrorScan.includes "ERROR" line = String.eqb lvl "ERROR"
      /\ ErrorScan.includes "ERROR" body = String.eqb lvl "ERROR"
      /\ ErrorScan.on_line errorCount body
         = if String.eqb lvl "ERROR" then errorCount + 1 else errorCount.
Proof.
  intros env errorCount [Hl Hm] Hf Hy.
  destruct (generateLogLine_shape env Hl Hm)
    as (lvl & msgs & msg & Il & Em & Ig & Eline).
  rewrite (now_is_timestamp_text _ Hf Hy) in Eline.
  exists ("[" ++ timestamp_text (GenerateLogs.clock env) ++ "] ["
            ++ lvl ++ "] " ++ msg ++ String RecordGrammar.newline "")%string,
         ("[" ++ timestamp_text (GenerateLogs.clock env) ++ "] ["
            ++ lvl ++ "] " ++ msg)%string,
         lvl.
  assert (Hinc :
            ErrorScan.includes "ERROR"
              ("[" ++ timestamp_text (GenerateLogs.clock env) ++ "] ["
                 ++ lvl ++ "] " ++ msg
                 ++ String RecordGrammar.newline "")%string
            = String.eqb lvl "ERROR"
            /\ ErrorScan.includes "ERROR"
                 ("[" ++ timestamp_text (GenerateLogs.clock env) ++ "] ["
                    ++ lvl ++ "] " ++ msg)%string
               = String.eqb lvl "ERROR").
  { rewrite !includes_ERROR_after_timestamp.
    simpl in Il.
    repeat (destruct Il as [<-|Il];
            [ simpl in Em; inversion Em; subst msgs; simpl in Ig;
              repeat (destruct Ig as [<-|Ig];
                      [split; vm_compute; reflexivity|]);
              contradiction |]).
    contradiction. }
  destruct Hinc as [Hinc1 Hinc2].
  split; [exact Eline|]. split.
  { now rewrite !string_app_assoc. }
  split.
  - unfold RecordGrammar.level_of.
    rewrite match_bracketed_timestamp.
    exact (level_and_message_found lvl msg msgs Il Em Ig).
  - split; [exact Hinc1|]. split; [exact Hinc2|].
    unfold ErrorScan.on_line. now rewrite Hinc2.
Qed.

Lemma error_scan_counts_error_level_witness :
  exists line body lvl,
    GenerateLogs.generateLogLine sample_env = Some line
    /\ line = (body ++ String RecordGrammar.newline "")%string
    /\ RecordGrammar.level_of line = Some lvl
    /\ ErrorScan.includes "ERROR" body = String.eqb lvl "ERROR".
Proof.
  destruct (error_scan_counts_error_level sample_env 0)
    as (line & body & lvl & E & B & L & _ & I & _).
  - split; reflexivity.
  - reflexivity.
  - simpl. lia.
  - exists line, body, lvl. auto.
Defined.

(** ** The console output of a run of the generator *)

Lemma drive_console_remaining (envs : nat -> GenerateLogs.Env) :
  (forall k, draws_ok (envs k)) ->
  forall (n fuel k : nat) (g : GenerateLogs.LogGenerator),
    (0 <= GenerateLogs.currentLine g)%Z ->
    (GenerateLogs.totalLines g - GenerateLogs.currentLine g = Z.of_nat n)%Z ->
    n < fuel ->
    Forall (fun l =>
              GenerateLogs.target l = GenerateLogs.totalLines g
              /\ (GenerateLogs.generated l mod 10000 = 0)%Z
              /\ (GenerateLogs.currentLine g < GenerateLogs.generated l
                  <= GenerateLogs.totalLines g)%Z)
           (GenerateLogFile.drive_console fuel envs k g)
    /\ StronglySorted Z.lt
         (List.map GenerateLogs.generated
            (GenerateLogFile.drive_console fuel envs k g))
    /\ (Z.of_nat (List.length (GenerateLogFile.drive_console fuel envs k g))
        = GenerateLogs.totalLines g / 10000
          - GenerateLogs.currentLine g / 10000)%Z.
Proof.
  intros Hok n. induction n as [|n IH]; intros fuel k g Hcur Hrem Hfuel.
  - destruct fuel as [|fuel]; [lia|].
    cbn [GenerateLogFile.drive_console]. unfold GenerateLogs._read.
    replace (GenerateLogs.totalLines g <=? GenerateLogs.currentLine g)%Z
      with true by (symmetry; apply Z.leb_le; lia).
    cbn [existsb GenerateLogs.is_end orb List.map List.length].
    split; [constructor|]. split; [constructor|].
    replace (GenerateLogs.totalLines g) with (GenerateLogs.currentLine g) by lia.
    lia.
  - destruct fuel as [|fuel]; [lia|].
    destruct (Hok k) as [Hl Hm].
    destruct (generateLogLine_shape (envs k) Hl Hm)
      as (lvl & msgs & msg & _ & _ & _ & Eline).
    cbn [GenerateLogFile.drive_console]. unfold GenerateLogs._read.
    replace (GenerateLogs.totalLines g <=? GenerateLogs.currentLine g)%Z
      with false by (symmetry; apply Z.leb_gt; lia).
    rewrite Eline.
    cbn [existsb GenerateLogs.is_end orb GenerateLogs.currentLine
           GenerateLogs.totalLines].
    destruct (IH fuel (S k)
                (GenerateLogs.mkLogGenerator (GenerateLogs.totalLines g)
                   (GenerateLogs.currentLine g + 1)))
      as (Hall & Hsorted & Hlen);
      [cbn [GenerateLogs.currentLine]; lia
      | cbn [GenerateLogs.currentLine GenerateLogs.totalLines]; lia
      | lia |].
    cbn [GenerateLogs.currentLine GenerateLogs.totalLines] in Hall, Hlen.
    set (rest := GenerateLogFile.drive_console fuel envs (S k)
                   (GenerateLogs.mkLogGenerator (GenerateLogs.totalLines g)
                      (GenerateLogs.currentLine g + 1))) in *.
    assert (Hall' :
              Forall (fun l =>
                        GenerateLogs.target l = GenerateLogs.totalLines g
                        /\ (GenerateLogs.generated l mod 10000 = 0)%Z
                        /\ (GenerateLogs.currentLine g
                            < GenerateLogs.generated l
                            <= GenerateLogs.totalLines g)%Z) rest).
    { eapply Forall_impl; [|exact Hall]. cbn beta.
      intros l (Ht & Hmod & Hr). repeat split; auto; lia. }
    rewrite Z.rem_mod_nonneg by lia.
    destruct ((GenerateLogs.currentLine g + 1) mod 10000 =? 0)%Z eqn:E;
      [apply Z.eqb_eq in E | apply Z.eqb_neq in E].
    + cbn [List.app List.map List.length]. split; [|split].
      * constructor; [|exact Hall'].
        cbn [GenerateLogs.target GenerateLogs.generated]. lia.
      * constructor; [exact Hsorted|].
        rewrite Forall_map. eapply Forall_impl; [|exact Hall]. cbn beta.
        cbn [GenerateLogs.generated]. intros l (_ & _ & Hr). lia.
      * rewrite Nat2Z.inj_succ, Hlen. lia.
    + cbn [List.app]. split; [exact Hall'|]. split; [exact Hsorted|].
      rewrite Hlen. lia.
Qed.

(** X5. In a complete run of the generator the progress messages are
    printed exactly at the multiples of 10,000 up to totalLines: each
    reports a multiple of 10,000 as the lines generated and totalLines as
    the target, they are in increasing order, and there are
    floor(totalLines / 10000) of them. *)
Theorem LogGenerator_progress_every_10000 :
  forall (total : Z) (envs : nat -> GenerateLogs.Env) (fuel : nat),
    (0 <= total)%Z ->
    (forall k, draws_ok (envs k)) ->
    Z.to_nat total < fuel ->
    let logs := GenerateLogFile.drive_console fuel envs 0
                  (GenerateLogs.constructor total) in
    Forall (fun l =>
              GenerateLogs.target l = total
              /\ (GenerateLogs.generated l mod 10000 = 0)%Z
              /\ (0 < GenerateLogs.generated l <= total)%Z) logs
    /\ StronglySorted Z.lt (List.map GenerateLogs.generated logs)
    /\ (Z.of_nat (List.length logs) = total / 10000)%Z.
Proof.
  intros total envs fuel Ht Hok Hfuel logs.
  destruct (drive_console_remaining envs Hok (Z.to_nat total) fuel 0
              (GenerateLogs.constructor total))
    as (Hall & Hsorted & Hlen).
  - cbn [GenerateLogs.constructor GenerateLogs.currentLine]. lia.
  - cbn [GenerateLogs.constructor GenerateLogs.currentLine
           GenerateLogs.totalLines]. lia.
  - exact Hfuel.
  - cbn [GenerateLogs.constructor GenerateLogs.currentLine
           GenerateLogs.totalLines] in Hall, Hlen.
    split; [exact Hall|]. split; [exact Hsorted|].
    fold logs in Hlen. rewrite Hlen. rewrite Z.div_0_l by lia. lia.
Qed.

Lemma LogGenerator_progress_every_10000_witness :
  Z.of_nat
    (List.length
       (GenerateLogFile.drive_console (Z.to_nat 25001) (fun _ => sample_env) 0
          (GenerateLogs.constructor 25000)))
  = (25000 / 10000)%Z.
Proof.
  apply (LogGenerator_progress_every_10000 25000 (fun _ => sample_env)
           (Z.to_nat 25001)).
  - lia.
  - intros k. split; reflexivity.
  - lia.
Defined.

(** ** The file written by generateLogFile *)

Lemma count_newlines_app (a b : string) :
  GenerateLogFile.count_newlines (a ++ b)
  = GenerateLogFile.count_newlines a + GenerateLogFile.count_newlines b.
Proof.
  induction a as [|c a IH]; simpl; [reflexivity|]. rewrite IH. lia.
Qed.

Lemma count_newlines_skip (c : ascii) (s : string) :
  Ascii.eqb c RecordGrammar.newline = false ->
  GenerateLogFile.count_newlines (String c s)
  = GenerateLogFile.count_newlines s.
Proof. intros H. cbn [GenerateLogFile.count_newlines]. now rewrite H. Qed.

Lemma digit_is_not_newline (k : N) :
  Ascii.eqb (digit k) RecordGrammar.newline = false.
Proof.
  pose proof (digit_cases k) as H. simpl in H.
  repeat (destruct H as [<-|H]; [reflexivity|]). contradiction.
Qed.

Lemma count_newlines_after_timestamp (d : JS.Date) (rest : string) :
  GenerateLogFile.count_newlines
    ("[" ++ timestamp_text d ++ "] [" ++ rest)%string
  = GenerateLogFile.count_newlines rest.
Proof.
  unfold timestamp_text. cbn [String.append].
  repeat (rewrite count_newlines_skip
            by (first [apply digit_is_not_newline | reflexivity])).
  reflexivity.
Qed.

(** A line of the generator is of the grammar and has one line break. *)
Lemma generated_line_is_one_line (env : GenerateLogs.Env) :
  GenerateLogFile.env_ok env ->
  exists line,
    GenerateLogs.generateLogLine env = Some line
    /\ RecordGrammar.matches line = true
    /\ GenerateLogFile.count_newlines line = 1.
Proof.
  intros ([Hl Hm] & Hf & Hy).
  destruct (generateLogLine_shape env Hl Hm)
    as (lvl & msgs & msg & Il & Em & Ig & Eline).
  rewrite (now_is_timestamp_text _ Hf Hy) in Eline.
  eexists. split; [exact Eline|]. split.
  - unfold RecordGrammar.matches, RecordGrammar.level_of.
    rewrite match_bracketed_timestamp.
    now rewrite (level_and_message_found lvl msg msgs Il Em Ig).
  - rewrite count_newlines_after_timestamp.
    simpl in Il.
    repeat (destruct Il as [<-|Il];
            [ simpl in Em; inversion Em; subst msgs; simpl in Ig;
              repeat (destruct Ig as [<-|Ig]; [vm_compute; reflexivity|]);
              contradiction |]).
    contradiction.
Qed.

Lemma written_lines (lines : list string) :
  GenerateLogFile.written
    (List.map GenerateLogs.Data lines ++ [GenerateLogs.EndOfStream])
  = GenerateLogFile.join_lines lines.
Proof.
  induction lines as [|l ls IH]; simpl; [reflexivity|]. now rewrite IH.
Qed.

Lemma count_newlines_join (lines : list string) :
  Forall (fun l => GenerateLogFile.count_newlines l = 1) lines ->
  GenerateLogFile.count_newlines (GenerateLogFile.join_lines lines)
  = List.length lines.
Proof.
  induction 1 as [|l ls Hl _ IH]; simpl; [reflexivity|].
  rewrite count_newlines_app, Hl, IH. reflexivity.
Qed.

(** X6. generateLogFile, with enough calls of _read for a non-negative
    totalLines, ends with the writer finished and a file that is the
    generated lines laid end to end: exactly totalLines lines, each of
    the record grammar and with its one line break at its end, so the
    file has totalLines line breaks. *)
Theorem generateLogFile_writes_totalLines_lines :
  forall (total : Z) (envs : nat -> GenerateLogs.Env) (fuel : nat),
    (0 <= total)%Z ->
    (forall k, GenerateLogFile.env_ok (envs k)) ->
    Z.to_nat total < fuel ->
    let out := GenerateLogFile.generateLogFile fuel envs total in
    GenerateLogFile.finished out = true
    /\ (Z.of_nat (GenerateLogFile.count_newlines (GenerateLogFile.content out))
        = total)%Z
    /\ exists lines,
         GenerateLogFile.content out = GenerateLogFile.join_lines lines
         /\ Z.of_nat (List.length lines) = total
         /\ Forall (fun l => RecordGrammar.matches l = true
                             /\ GenerateLogFile.count_newlines l = 1) lines.
Proof.
  intros total envs fuel Ht Hok Hfuel out.
  destruct (drive_remaining envs (fun k => proj1 (Hok k)) (Z.to_nat total)
              fuel 0 (GenerateLogs.constructor total))
    as (lines & Ed & Elen & Enth); [simpl; lia | exact Hfuel |].
  assert (Hlines : Forall (fun l => RecordGrammar.matches l = true
                                    /\ GenerateLogFile.count_newlines l = 1)
                          lines).
  { apply Forall_forall. intros l Hin.
    apply In_nth_error in Hin. destruct Hin as [i Hi].
    assert (Hlt : i < Z.to_nat total).
    { rewrite <- Elen. apply nth_error_Some. congruence. }
    destruct (generated_line_is_one_line (envs i) (Hok i))
      as (line & Eg & Hm & Hc).
    specialize (Enth i Hlt). simpl in Enth. rewrite Eg, Hi in Enth.
    inversion Enth; subst. auto. }
  assert (Hout : out = GenerateLogFile.mkOutcome
                         (GenerateLogFile.join_lines lines) true).
  { unfold out, GenerateLogFile.generateLogFile. rewrite Ed.
    now rewrite written_lines. }
  rewrite Hout. cbn [GenerateLogFile.finished GenerateLogFile.content].
  split; [reflexivity|]. split.
  - rewrite count_newlines_join; [lia|].
    eapply Forall_impl; [|exact Hlines]. cbn beta. tauto.
  - exists lines. repeat split; [lia|exact Hlines].
Qed.

Lemma generateLogFile_writes_totalLines_lines_witness :
  GenerateLogFile.finished
    (GenerateLogFile.generateLogFile 4 (fun _ => sample_env) 3) = true
  /\ GenerateLogFile.count_newlines
       (GenerateLogFile.content
          (GenerateLogFile.generateLogFile 4 (fun _ => sample_env) 3)) = 3.
Proof.
  destruct (generateLogFile_writes_totalLines_lines 3 (fun _ => sample_env) 4)
    as (Hfin & Hcount & _).
  - lia.
  - intros k. split; [split; reflexivity|]. split; [reflexivity|simpl; lia].
  - simpl. lia.
  - split; [exact Hfin|]. lia.
Defined.

(** ** A run of the generator that is stopped early *)

Lemma drive_partial (envs : nat -> GenerateLogs.Env) :
  (forall k, draws_ok (envs k)) ->
  forall (fuel k : nat) (g : GenerateLogs.LogGenerator),
    (Z.of_nat fuel
     <= GenerateLogs.totalLines g - GenerateLogs.currentLine g)%Z ->
    exists lines,
      GenerateLogs.drive fuel envs k g
      = (List.map GenerateLogs.Data lines, GenerateLogs.Pending,
         GenerateLogs.mkLogGenerator (GenerateLogs.totalLines g)
           (GenerateLogs.currentLine g + Z.of_nat fuel))
      /\ List.length lines = fuel
      /\ forall i, i < fuel ->
           GenerateLogs.generateLogLine (envs (k + i)) = nth_error lines i.
Proof.
  intros Hok fuel. induction fuel as [|fuel IH]; intros k g Hrem.
  - exists []. simpl. repeat split; try (intros; lia).
    destruct g as [t c]; simpl. do 2 f_equal. lia.
  - destruct (Hok k) as [Hl Hm].
    destruct (generateLogLine_shape (envs k) Hl Hm)
      as (lvl & msgs & msg & _ & _ & _ & Eline).
    cbn [GenerateLogs.drive]. unfold GenerateLogs._read.
    replace (GenerateLogs.totalLines g <=? GenerateLogs.currentLine g)%Z
      with false by (symmetry; apply Z.leb_gt; lia).
    rewrite Eline. cbn [existsb GenerateLogs.is_end orb].
    destruct (IH (S k)
                (GenerateLogs.mkLogGenerator (GenerateLogs.totalLines g)
                   (GenerateLogs.currentLine g + 1)))
      as (lines & Ed & Elen & Enth);
      [cbn [GenerateLogs.currentLine GenerateLogs.totalLines]; lia|].
    rewrite Ed. cbn [GenerateLogs.currentLine GenerateLogs.totalLines].
    eexists (_ :: lines). split; [|split].
    + cbn [List.map List.app]. do 2 f_equal. lia.
    + simpl. lia.
    + intros [|i] Hi; simpl.
      * rewrite Nat.add_0_r. exact Eline.
      * rewrite <- Enth by lia. do 2 f_equal. lia.
Qed.

(** X7. A run that is stopped after fewer calls of _read than there are
    lines has pushed one line per call and no end mark, its counter is
    the number of calls, and what it pushed is the beginning of what the
    complete run pushes: stopping and going on neither loses nor repeats
    a line. *)
Theorem LogGenerator_partial_run_is_prefix :
  forall (total : Z) (envs : nat -> GenerateLogs.Env) (calls fuel : nat),
    (forall k, draws_ok (envs k)) ->
    (Z.of_nat calls <= total)%Z ->
    Z.to_nat total < fuel ->
    exists lines,
      GenerateLogs.drive fuel envs 0 (GenerateLogs.constructor total)
      = (List.map GenerateLogs.Data lines ++ [GenerateLogs.EndOfStream],
         GenerateLogs.Ended, GenerateLogs.mkLogGenerator total total)
      /\ GenerateLogs.drive calls envs 0 (GenerateLogs.constructor total)
         = (List.map GenerateLogs.Data (List.firstn calls lines),
            GenerateLogs.Pending,
            GenerateLogs.mkLogGenerator total (Z.of_nat calls))
      /\ List.length (List.firstn calls lines) = calls.
Proof.
  intros total envs calls fuel Hok Hcalls Hfuel.
  destruct (drive_remaining envs Hok (Z.to_nat total) fuel 0
              (GenerateLogs.constructor total))
    as (lines & Ed & Elen & Enth); [simpl; lia | exact Hfuel |].
  destruct (drive_partial envs Hok calls 0 (GenerateLogs.constructor total))
    as (part & Ep & Plen & Pnth); [simpl; lia|].
  exists lines. simpl in Ed, Ep. split; [exact Ed|].
  assert (Hpart : part = List.firstn calls lines).
  { apply nth_error_ext. intros i. rewrite nth_error_firstn.
    destruct (i <? calls) eqn:E.
    - apply Nat.ltb_lt in E. rewrite <- Pnth by exact E.
      apply Enth. lia.
    - apply Nat.ltb_ge in E. apply nth_error_None. lia. }
  rewrite <- Hpart. split; [exact Ep|exact Plen].
Qed.

Lemma LogGenerator_partial_run_is_prefix_witness :
  exists lines,
    GenerateLogs.drive 5 (fun _ => sample_env) 0 (GenerateLogs.constructor 3)
    = (List.map GenerateLogs.Data lines ++ [GenerateLogs.EndOfStream],
       GenerateLogs.Ended, GenerateLogs.mkLogGenerator 3 3)
    /\ GenerateLogs.drive 2 (fun _ => sample_env) 0 (GenerateLogs.constructor 3)
       = (List.map GenerateLogs.Data (List.firstn 2 lines),
          GenerateLogs.Pending, GenerateLogs.mkLogGenerator 3 2).
Proof.
  destruct (LogGenerator_partial_run_is_prefix 3 (fun _ => sample_env) 2 5)
    as (lines & Ed & Ep & _).
  - intros k. split; reflexivity.
  - lia.
  - simpl. lia.
  - exists lines. split; [exact Ed|exact Ep].
Defined.

(** ** The Batcher without _flush, and the batches as slices *)

Lemma app_eq_firstn_skipn {A : Type} (l1 l2 l : list A) :
  l1 ++ l2 = l ->
  l1 = List.firstn (List.length l1) l /\ l2 = List.skipn (List.length l1) l.
Proof.
  intros <-. split.
  - rewrite firstn_app, Nat.sub_diag, firstn_all. simpl. now rewrite app_nil_r.
  - rewrite skipn_app, Nat.sub_diag, skipn_all. reflexivity.
Qed.

Lemma concat_full_length {A : Type} (n : nat) (out : list (list A)) :
  Forall (fun b => List.length b = n) out ->
  List.length (List.concat out) = List.length out * n.
Proof.
  induction 1 as [|b out Hb _ IH]; simpl; [reflexivity|].
  rewrite length_app, Hb, IH. reflexivity.
Qed.

(** What a feed of the Batcher from its first state leaves: full batches
    that are the beginning of the input, and the rest in the buffer. *)
Lemma Batcher_feed_split {Item : Type} (batchSize : nat) (input : list Item) :
  0 < batchSize ->
  let out := snd (Batcher.feed batchSize Batcher.constructor input) in
  let st := fst (Batcher.feed batchSize Batcher.constructor input) in
  List.concat out ++ Batcher.batch st = input
  /\ Forall (fun b => List.length b = batchSize) out
  /\ List.length (Batcher.batch st) = List.length input mod batchSize
  /\ List.length out = List.length input / batchSize.
Proof.
  intros Hpos out st.
  destruct (Batcher.feed batchSize Batcher.constructor input) as [st' out'] eqn:E.
  cbn [fst snd] in out, st. subst out st.
  pose proof (Batcher_feed_keeps_records batchSize input _ _ _ E) as Hkeep.
  destruct (Batcher_feed_sizes batchSize Hpos input Batcher.constructor
              st' out' Hpos E) as (Hlt & Hmod & Hfull).
  cbn [Batcher.constructor Batcher.batch List.app List.length Nat.add]
    in Hkeep, Hmod.
  split; [exact Hkeep|]. split; [exact Hfull|]. split; [exact Hmod|].
  assert (Hlen : List.length out' * batchSize + List.length (Batcher.batch st')
                 = List.length input).
  { rewrite <- (concat_full_length batchSize out' Hfull), <- length_app.
    now rewrite Hkeep. }
  apply (Nat.div_unique _ _ _ (List.length (Batcher.batch st'))).
  - exact Hlt.
  - lia.
Qed.

(** X8. Without _flush the Batcher pushes only full batches: they are
    the first length - (length mod batchSize) records of the input, and
    the last length mod batchSize records stay in the buffer and are
    never pushed. Nothing is lost exactly when the number of records is a
    multiple of batchSize; the Batcher with _flush pushes the same
    batches and then the records left over. *)
Theorem Batcher_without_flush_loses_the_rest :
  forall (Item : Type) (batchSize : nat) (input : list Item),
    0 < batchSize ->
    let n := List.length input in
    let pushed := BatcherWithoutFlush.run batchSize input in
    let lost := BatcherWithoutFlush.left_over batchSize input in
    List.concat pushed = List.firstn (n - n mod batchSize) input
    /\ lost = List.skipn (n - n mod batchSize) input
    /\ List.length lost = n mod batchSize
    /\ Forall (fun b => List.length b = batchSize) pushed
    /\ (List.concat pushed = input <-> n mod batchSize = 0)
    /\ Batcher.run batchSize input
       = pushed ++ (if n mod batchSize =? 0 then [] else [lost]).
Proof.
  intros Item batchSize input Hpos n pushed lost.
  destruct (Batcher_feed_split batchSize input Hpos)
    as (Hkeep & Hfull & Hmod & Hcount).
  fold (BatcherWithoutFlush.run batchSize input) in Hkeep, Hfull, Hcount.
  fold (BatcherWithoutFlush.left_over batchSize input) in Hkeep, Hmod.
  fold pushed in Hkeep, Hfull, Hcount. fold lost in Hkeep, Hmod. fold n in Hmod.
  assert (Hlen : List.length (List.concat pushed) = n - n mod batchSize).
  { assert (H := f_equal (@List.length Item) Hkeep).
    rewrite length_app in H. fold n in H. lia. }
  destruct (app_eq_firstn_skipn _ _ _ Hkeep) as [Hfirst Hskip].
  rewrite Hlen in Hfirst, Hskip.
  split; [exact Hfirst|]. split; [exact Hskip|]. split; [exact Hmod|].
  split; [exact Hfull|]. split.
  - split.
    + intros Heq. rewrite Heq in Hlen. fold n in Hlen.
      assert (n mod batchSize <= n) by (apply Nat.Div0.mod_le). lia.
    + intros H0. rewrite H0 in Hmod.
      apply length_zero_iff_nil in Hmod. rewrite Hmod, app_nil_r in Hkeep.
      exact Hkeep.
  - unfold Batcher.run, pushed, lost, BatcherWithoutFlush.run,
      BatcherWithoutFlush.left_over in *.
    destruct (Batcher.feed batchSize Batcher.constructor input) as [st out].
    cbn [fst snd] in *. f_equal. unfold Batcher._flush. rewrite Hmod.
    destruct (n mod batchSize) as [|m]; reflexivity.
Qed.

Lemma Batcher_without_flush_loses_the_rest_witness :
  BatcherWithoutFlush.run Batcher.guide_batchSize (seq 1 25)
  = [seq 1 10; seq 11 10]
  /\ BatcherWithoutFlush.left_over Batcher.guide_batchSize (seq 1 25)
     = List.skipn (25 - 25 mod Batcher.guide_batchSize) (seq 1 25)
  /\ List.length (BatcherWithoutFlush.left_over Batcher.guide_batchSize (seq 1 25))
     = 5.
Proof.
  split; [reflexivity|].
  destruct (Batcher_without_flush_loses_the_rest nat Batcher.guide_batchSize
              (seq 1 25)) as (_ & Hlost & Hlen & _).
  - unfold Batcher.guide_batchSize. lia.
  - split; [exact Hlost|exact Hlen].
Defined.

Lemma uniform_chunks_nth {A : Type} (n : nat) (out : list (list A)) :
  Forall (fun b => List.length b = n) out ->
  forall (rest input : list A) (k : nat) (b : list A),
    List.concat out ++ rest = input ->
    List.length rest <= n ->
    nth_error (out ++ [rest]) k = Some b ->
    b = List.firstn n (List.skipn (k * n) input).
Proof.
  induction 1 as [|b0 out Hb0 _ IH]; intros rest input k b Hcat Hrest Hnth.
  - simpl in Hcat. subst input. destruct k as [|k]; simpl in Hnth.
    + inversion Hnth; subst. simpl. now rewrite firstn_all2.
    + destruct k; discriminate.
  - simpl in Hcat. rewrite <- app_assoc in Hcat. subst input.
    destruct k as [|k]; simpl in Hnth.
    + inversion Hnth; subst. simpl.
      rewrite firstn_app, Nat.sub_diag, firstn_all. simpl.
      now rewrite app_nil_r.
    + rewrite (IH rest (List.concat out ++ rest) k b eq_refl Hrest Hnth).
      replace (S k * n) with (k * n + List.length b0) by (rewrite Hb0; lia).
      rewrite <- skipn_skipn.
      destruct (app_eq_firstn_skipn b0 (List.concat out ++ rest) _ eq_refl)
        as [_ Hskip].
      now rewrite <- Hskip.
Qed.

(** X9. With a positive batch size the batches of a run are the
    consecutive slices of the input: batch number [k] is the [batchSize]
    records from position k * batchSize on (fewer for the last one), and
    there are ceil(length / batchSize) batches. *)
Theorem Batcher_batches_are_slices :
  forall (Item : Type) (batchSize : nat) (input : list Item),
    0 < batchSize ->
    let n := List.length input in
    List.length (Batcher.run batchSize input)
    = n / batchSize + (if n mod batchSize =? 0 then 0 else 1)
    /\ forall k b,
         nth_error (Batcher.run batchSize input) k = Some b ->
         b = List.firstn batchSize (List.skipn (k * batchSize) input).
Proof.
  intros Item batchSize input Hpos n.
  destruct (Batcher_feed_split batchSize input Hpos)
    as (Hkeep & Hfull & Hmod & Hcount).
  unfold Batcher.run.
  destruct (Batcher.feed batchSize Batcher.constructor input) as [st out].
  cbn [fst snd] in *. fold n in Hmod, Hcount.
  assert (Hlt : List.length (Batcher.batch st) < batchSize).
  { rewrite Hmod. now apply Nat.mod_upper_bound, Nat.neq_0_lt_0. }
  unfold Batcher._flush. split.
  - rewrite length_app, Hcount, Hmod.
    destruct (n mod batchSize) as [|m]; reflexivity.
  - intros k b Hnth.
    destruct (0 <? List.length (Batcher.batch st)) eqn:E.
    + apply (uniform_chunks_nth batchSize out Hfull (Batcher.batch st) input k b
               Hkeep); [lia|exact Hnth].
    + apply (uniform_chunks_nth batchSize out Hfull (Batcher.batch st) input k b
               Hkeep); [lia|].
      rewrite app_nil_r in Hnth.
      rewrite nth_error_app1; [exact Hnth|].
      apply nth_error_Some. congruence.
Qed.

Lemma Batcher_batches_are_slices_witness :
  List.length (Batcher.run 4 (seq 1 10)) = 3
  /\ nth_error (Batcher.run 4 (seq 1 10)) 2 = Some [9; 10]
  /\ [9; 10] = List.firstn 4 (List.skipn (2 * 4) (seq 1 10)).
Proof.
  destruct (Batcher_batches_are_slices nat 4 (seq 1 10)) as [Hlen Hnth]; [lia|].
  split; [exact Hlen|]. split; [reflexivity|].
  apply (Hnth 2 [9; 10]). reflexivity.
Defined.

(** ** The Batcher's arrays on the heap *)

Section BatcherHeapFacts.

Context {Item : Type}.
Variable batchSize : nat.

Lemma set_nth_length (s : list (list Item)) :
  forall r a, List.length (BatcherHeap.set_nth r a s) = List.length s.
Proof.
  induction s as [|x s IH]; intros r a; simpl; [now destruct r|].
  destruct r; simpl; [reflexivity|now rewrite IH].
Qed.

Lemma set_nth_same (s : list (list Item)) :
  forall r a, r < List.length s ->
              nth_error (BatcherHeap.set_nth r a s) r = Some a.
Proof.
  induction s as [|x s IH]; intros r a Hr; simpl in *; [lia|].
  destruct r; simpl; [reflexivity|]. apply IH. lia.
Qed.

Lemma set_nth_other (s : list (list Item)) :
  forall r r' a, r' <> r ->
                 nth_error (BatcherHeap.set_nth r a s) r' = nth_error s r'.
Proof.
  induction s as [|x s IH]; intros r r' a Hne; simpl; [now destruct r|].
  destruct r, r'; simpl; try reflexivity; try congruence.
  apply IH. congruence.
Qed.

Lemma heap_transform_simulates (st st' : BatcherHeap.State Item)
  (pst pst' : Batcher.State Item) (item : Item)
  (names : list nat) (pout : list (list Item)) :
  heap_matches st pst ->
  BatcherHeap._transform batchSize st item = (st', names) ->
  Batcher._transform batchSize pst item = (pst', pout) ->
  heap_matches st' pst'
  /\ (forall r, r < BatcherHeap.batch st ->
                BatcherHeap.deref st' r = BatcherHeap.deref st r)
  /\ BatcherHeap.contents st' names = List.map Some pout
  /\ names = seq (BatcherHeap.batch st)
               (BatcherHeap.batch st' - BatcherHeap.batch st)
  /\ BatcherHeap.batch st <= BatcherHeap.batch st'.
Proof.
  unfold heap_matches, BatcherHeap._transform, Batcher._transform,
    BatcherHeap.contents, BatcherHeap.deref.
  intros [Hlen Hcur]. rewrite Hcur.
  set (a' := Batcher.batch pst ++ [item]).
  set (s' := BatcherHeap.set_nth (BatcherHeap.batch st) a' (BatcherHeap.store st)).
  assert (Hlen' : List.length s' = S (BatcherHeap.batch st)).
  { unfold s'. now rewrite set_nth_length. }
  assert (Hsame : nth_error s' (BatcherHeap.batch st) = Some a').
  { unfold s'. apply set_nth_same. lia. }
  assert (Hother : forall r, r < BatcherHeap.batch st ->
                             nth_error s' r = nth_error (BatcherHeap.store st) r).
  { intros r Hr. unfold s'. apply set_nth_other. lia. }
  destruct (List.length a' =? batchSize);
    intros H1 H2; inversion H1; inversion H2; subst; clear H1 H2;
    cbn [BatcherHeap.store BatcherHeap.batch Batcher.batch List.map].
  - rewrite Hlen'. repeat split.
    + rewrite length_app, Hlen'. simpl. lia.
    + rewrite nth_error_app2 by lia. rewrite Hlen', Nat.sub_diag. reflexivity.
    + intros r Hr. rewrite nth_error_app1 by lia. now apply Hother.
    + rewrite nth_error_app1 by lia. now rewrite Hsame.
    + replace (S (BatcherHeap.batch st) - BatcherHeap.batch st) with 1 by lia.
      reflexivity.
    + lia.
  - rewrite Nat.sub_diag. repeat split; auto.
Qed.

Lemma heap_feed_simulates (input : list Item) :
  forall (st st' : BatcherHeap.State Item) (pst pst' : Batcher.State Item)
         (names : list nat) (pout : list (list Item)),
    heap_matches st pst ->
    BatcherHeap.feed batchSize st input = (st', names) ->
    Batcher.feed batchSize pst input = (pst', pout) ->
    heap_matches st' pst'
    /\ (forall r, r < BatcherHeap.batch st ->
                  BatcherHeap.deref st' r = BatcherHeap.deref st r)
    /\ BatcherHeap.contents st' names = List.map Some pout
    /\ names = seq (BatcherHeap.batch st)
                 (BatcherHeap.batch st' - BatcherHeap.batch st)
    /\ BatcherHeap.batch st <= BatcherHeap.batch st'.
Proof.
  induction input as [|item rest IH];
    intros st st' pst pst' names pout Hm Hh Hp; simpl in Hh, Hp.
  - inversion Hh; inversion Hp; subst. rewrite Nat.sub_diag.
    split; [exact Hm|]. repeat split; auto.
  - destruct (BatcherHeap._transform batchSize st item) as [st1 n1] eqn:Eh1.
    destruct (BatcherHeap.feed batchSize st1 rest) as [st2 n2] eqn:Eh2.
    destruct (Batcher._transform batchSize pst item) as [pst1 o1] eqn:Ep1.
    destruct (Batcher.feed batchSize pst1 rest) as [pst2 o2] eqn:Ep2.
    inversion Hh; inversion Hp; subst; clear Hh Hp.
    destruct (heap_transform_simulates _ _ _ _ _ _ _ Hm Eh1 Ep1)
      as (Hm1 & Hkeep1 & Hc1 & Hn1 & Hle1).
    destruct (IH _ _ _ _ _ _ Hm1 Eh2 Ep2) as (Hm2 & Hkeep2 & Hc2 & Hn2 & Hle2).
    split; [exact Hm2|]. split; [|split; [|split]].
    + intros r Hr. rewrite Hkeep2 by lia. now apply Hkeep1.
    + unfold BatcherHeap.contents in *. rewrite !map_app, Hc2, <- Hc1.
      f_equal. apply map_ext_in. intros r Hr. apply Hkeep2.
      rewrite Hn1 in Hr. apply in_seq in Hr. lia.
    + rewrite Hn1, Hn2.
      replace (BatcherHeap.batch st' - BatcherHeap.batch st)
        with ((BatcherHeap.batch st1 - BatcherHeap.batch st)
              + (BatcherHeap.batch st' - BatcherHeap.batch st1)) by lia.
      rewrite seq_app. do 2 f_equal. lia.
    + lia.
Qed.

Lemma heap_feed_app (a b : list Item) :
  forall st,
    BatcherHeap.feed batchSize st (a ++ b)
    = (fst (BatcherHeap.feed batchSize
              (fst (BatcherHeap.feed batchSize st a)) b),
       snd (BatcherHeap.feed batchSize st a)
       ++ snd (BatcherHeap.feed batchSize
                 (fst (BatcherHeap.feed batchSize st a)) b)).
Proof.
  induction a as [|x a IH]; intros st; simpl.
  - now destruct (BatcherHeap.feed batchSize st b).
  - destruct (BatcherHeap._transform batchSize st x) as [st1 n1].
    rewrite IH.
    destruct (BatcherHeap.feed batchSize st1 a) as [st2 n2]. simpl.
    destruct (BatcherHeap.feed batchSize st2 b) as [st3 n3]. simpl.
    now rewrite app_assoc.
Qed.

End BatcherHeapFacts.

(** X10. With the arrays of the Batcher on a heap, where
    [this.batch.push(item)] changes an array in place and a pushed batch
    is the array itself: the arrays pushed in a run are pairwise
    different, at the end of the run they hold exactly the batches of
    the Batcher of the first part, and an array pushed while a beginning
    of the input was handled is the same at the end of the run as it was
    then. A batch is never changed after it has been pushed. *)
Theorem Batcher_pushed_arrays_are_never_changed :
  forall (Item : Type) (batchSize : nat) (handled rest : list Item),
    let final := fst (BatcherHeap.run batchSize (handled ++ rest)) in
    let names := snd (BatcherHeap.run batchSize (handled ++ rest)) in
    let then_ := fst (BatcherHeap.feed batchSize BatcherHeap.constructor handled) in
    let pushed := snd (BatcherHeap.feed batchSize BatcherHeap.constructor handled) in
    NoDup names
    /\ BatcherHeap.contents final names
       = List.map Some (Batcher.run batchSize (handled ++ rest))
    /\ (forall r, In r pushed ->
                  In r names
                  /\ BatcherHeap.deref final r = BatcherHeap.deref then_ r).
Proof.
  intros Item batchSize handled rest final names then_ pushed.
  assert (Hm0 : heap_matches (@BatcherHeap.constructor Item) Batcher.constructor).
  { split; reflexivity. }
  (* the whole input *)
  destruct (BatcherHeap.feed batchSize BatcherHeap.constructor (handled ++ rest))
    as [st ns] eqn:Eh.
  destruct (Batcher.feed batchSize Batcher.constructor (handled ++ rest))
    as [pst pout] eqn:Ep.
  destruct (heap_feed_simulates batchSize _ _ _ _ _ _ _ Hm0 Eh Ep)
    as ([Hlen Hcur] & _ & Hc & Hn & _).
  cbn [BatcherHeap.constructor BatcherHeap.batch] in Hn.
  rewrite Nat.sub_0_r in Hn.
  assert (Hfinal : final = st).
  { unfold final, BatcherHeap.run. now rewrite Eh. }
  assert (Hnames : names = ns ++ BatcherHeap._flush st).
  { unfold names, BatcherHeap.run. now rewrite Eh. }
  (* the part handled first *)
  assert (Hsplit := heap_feed_app batchSize handled rest BatcherHeap.constructor).
  rewrite Eh in Hsplit. fold then_ pushed in Hsplit.
  destruct (BatcherHeap.feed batchSize then_ rest) as [st2 n2] eqn:Eh2.
  cbn [fst snd] in Hsplit. injection Hsplit as Hst2 Hns.
  destruct (BatcherHeap.feed batchSize BatcherHeap.constructor handled)
    as [st1 n1] eqn:Eh1.
  destruct (Batcher.feed batchSize Batcher.constructor handled)
    as [pst1 pout1] eqn:Ep1.
  cbn [fst snd] in then_, pushed. subst then_ pushed.
  destruct (heap_feed_simulates batchSize _ _ _ _ _ _ _ Hm0 Eh1 Ep1)
    as (Hm1 & _ & _ & Hn1 & _).
  cbn [BatcherHeap.constructor BatcherHeap.batch] in Hn1.
  rewrite Nat.sub_0_r in Hn1.
  destruct (Batcher.feed batchSize pst1 rest) as [pst2 pout2] eqn:Ep2.
  destruct (heap_feed_simulates batchSize _ _ _ _ _ _ _ Hm1 Eh2 Ep2)
    as (_ & Hkeep & _ & _ & _).
  rewrite Hfinal, Hnames. clear Hfinal Hnames final names.
  split; [|split].
  - rewrite Hn. unfold BatcherHeap._flush. rewrite Hcur.
    destruct (Batcher.batch pst) as [|x b].
    + rewrite app_nil_r. apply seq_NoDup.
    + replace (seq 0 (BatcherHeap.batch st) ++ [BatcherHeap.batch st])
        with (seq 0 (S (BatcherHeap.batch st)))
        by (rewrite seq_S; reflexivity).
      apply seq_NoDup.
  - unfold Batcher.run. rewrite Ep.
    unfold BatcherHeap.contents in *. rewrite !map_app, Hc. f_equal.
    unfold BatcherHeap._flush, Batcher._flush. rewrite Hcur.
    destruct (Batcher.batch pst) as [|x b] eqn:Eb; simpl; [reflexivity|].
    now rewrite Hcur.
  - intros r Hr. split.
    + apply in_or_app. left. rewrite Hns. apply in_or_app. now left.
    + rewrite Hst2. apply Hkeep. rewrite Hn1 in Hr. apply in_seq in Hr. lia.
Qed.

Lemma Batcher_pushed_arrays_are_never_changed_witness :
  let final := fst (BatcherHeap.run 2 ([1; 2; 3] ++ [4; 5])) in
  let then_ := fst (BatcherHeap.feed 2 BatcherHeap.constructor [1; 2; 3]) in
  snd (BatcherHeap.feed 2 BatcherHeap.constructor [1; 2; 3]) = [0]
  /\ BatcherHeap.deref then_ 0 = Some [1; 2]
  /\ BatcherHeap.deref final 0 = BatcherHeap.deref then_ 0.
Proof.
  intros final then_. split; [reflexivity|]. split; [reflexivity|].
  destruct (Batcher_pushed_arrays_are_never_changed nat 2 [1; 2; 3] [4; 5])
    as (_ & _ & Hkept).
  apply (Hkept 0). simpl. now left.
Defined.

(** The arrays of a run of five records in batches of two. *)
Example Batcher_heap_run :
  BatcherHeap.run 2 [1; 2; 3; 4; 5]
  = (BatcherHeap.mkState [[1; 2]; [3; 4]; [5]] 2, [0; 1; 2]).
Proof. reflexivity. Qed.

(** ** CSVToJSON *)

Lemma CSV_fill_other (hs : list string) :
  forall (values : list string) (i : nat) (obj : CSVToJSON.Object) (key : string),
    ~ In key hs ->
    CSVToJSON.fill hs values i obj key = obj key.
Proof.
  induction hs as [|h hs IH]; intros values i obj key Hnot; simpl;
    [reflexivity|].
  rewrite IH by (intros Hin; apply Hnot; now right).
  unfold CSVToJSON.assign.
  destruct (String.eqb h "__proto__"); [reflexivity|].
  destruct (String.eqb_spec key h) as [->|_]; [|reflexivity].
  exfalso. apply Hnot. now left.
Qed.

Lemma CSV_fill_last (hs1 : list string) :
  forall (h : string) (hs2 values : list string) (i : nat)
         (obj : CSVToJSON.Object),
    ~ In h hs2 ->
    h <> "__proto__" ->
    CSVToJSON.fill (hs1 ++ h :: hs2) values i obj h
    = Some (nth_error values (i + List.length hs1)).
Proof.
  induction hs1 as [|x hs1 IH]; intros h hs2 values i obj Hnot Hproto; simpl.
  - rewrite CSV_fill_other by exact Hnot.
    unfold CSVToJSON.assign.
    destruct (String.eqb_spec h "__proto__") as [E|_]; [contradiction|].
    rewrite String.eqb_refl, Nat.add_0_r. reflexivity.
  - rewrite IH by assumption. do 2 f_equal. lia.
Qed.

Lemma CSV_fill_proto (hs : list string) :
  forall (values : list string) (i : nat) (obj : CSVToJSON.Object),
    obj "__proto__" = None ->
    CSVToJSON.fill hs values i obj "__proto__" = None.
Proof.
  induction hs as [|h hs IH]; intros values i obj H0; simpl; [exact H0|].
  apply IH. unfold CSVToJSON.assign.
  destruct (String.eqb_spec h "__proto__") as [->|Hne]; [exact H0|].
  destruct (String.eqb_spec "__proto__" h) as [E|_]; [congruence|exact H0].
Qed.

Lemma CSV_feed_rows (hs : list string) (rows : list string) :
  CSVToJSON.feed (CSVToJSON.mkState (Some hs)) rows
  = (CSVToJSON.mkState (Some hs),
     List.map (fun row => CSVToJSON.fill hs (CSVToJSON.split "," row) 0
                            CSVToJSON.empty) rows).
Proof.
  induction rows as [|row rows IH]; simpl; [reflexivity|].
  now rewrite IH.
Qed.

(** X11. CSVToJSON takes the first line as the header and pushes nothing
    for it; every later line becomes one object, in order. In the object
    of a line, a header that is not repeated further right (and is not
    [__proto__]) has the piece of the line at the header's position, or
    undefined when the line has fewer pieces; of a repeated header the
    rightmost column wins. The object has no other key, and a header
    [__proto__] never becomes a key. *)
Theorem CSVToJSON_objects_follow_the_header :
  forall (header : string) (rows : list string),
    CSVToJSON.run [] = []
    /\ List.length (CSVToJSON.run (header :: rows)) = List.length rows
    /\ forall (k : nat) (row : string),
         nth_error rows k = Some row ->
         exists obj,
           nth_error (CSVToJSON.run (header :: rows)) k = Some obj
           /\ (forall hs1 h hs2,
                 CSVToJSON.split "," header = hs1 ++ h :: hs2 ->
                 ~ In h hs2 ->
                 h <> "__proto__" ->
                 obj h = Some (nth_error (CSVToJSON.split "," row)
                                 (List.length hs1)))
           /\ (forall key, ~ In key (CSVToJSON.split "," header) ->
                           obj key = None)
           /\ obj "__proto__" = None.
Proof.
  intros header rows.
  assert (Hrun : CSVToJSON.run (header :: rows)
                 = List.map (fun row =>
                               CSVToJSON.fill (CSVToJSON.split "," header)
                                 (CSVToJSON.split "," row) 0 CSVToJSON.empty)
                            rows).
  { unfold CSVToJSON.run. cbn [CSVToJSON.feed CSVToJSON._transform
                                 CSVToJSON.constructor CSVToJSON.headers].
    now rewrite CSV_feed_rows. }
  split; [reflexivity|]. split; [now rewrite Hrun, length_map|].
  intros k row Hk. rewrite Hrun.
  eexists. split; [rewrite nth_error_map, Hk; reflexivity|].
  split; [|split].
  - intros hs1 h hs2 Hsplit Hnot Hproto.
    rewrite Hsplit. now rewrite CSV_fill_last.
  - intros key Hnot. now rewrite CSV_fill_other.
  - now apply CSV_fill_proto.
Qed.

Lemma CSVToJSON_objects_follow_the_header_witness :
  exists obj,
    nth_error (CSVToJSON.run ["name,age"; "John,30"; "Ann"]) 1 = Some obj
    /\ obj "name" = Some (Some "Ann")
    /\ obj "age" = Some None
    /\ obj "zip" = None.
Proof.
  destruct (CSVToJSON_objects_follow_the_header "name,age" ["John,30"; "Ann"])
    as (_ & _ & Hobj).
  destruct (Hobj 1 "Ann" eq_refl) as (obj & Hnth & Hfield & Hnone & _).
  exists obj. split; [exact Hnth|]. split; [|split].
  - apply (Hfield [] "name" ["age"]); [reflexivity| |discriminate].
    simpl. intros [H|[]]. discriminate.
  - apply (Hfield ["name"] "age" []); [reflexivity| |discriminate].
    simpl. tauto.
  - apply Hnone. simpl. intros [H|[H|[]]]; discriminate.
Defined.

(** ** The database export *)

Lemma split_of_free (sep : ascii) (s : string) :
  CSVToJSON.free_of sep s = true -> CSVToJSON.split sep s = [s].
Proof.
  induction s as [|c s IH]; simpl; [reflexivity|].
  intros H. apply andb_true_iff in H. destruct H as [Hc Hs].
  apply negb_true_iff in Hc. rewrite Hc, (IH Hs). reflexivity.
Qed.

Lemma split_at_separator (sep : ascii) (a rest : string) :
  CSVToJSON.free_of sep a = true ->
  CSVToJSON.split sep (a ++ String sep rest)
  = a :: CSVToJSON.split sep rest.
Proof.
  induction a as [|c a IH]; simpl.
  - intros _. now rewrite Ascii.eqb_refl.
  - intros H. apply andb_true_iff in H. destruct H as [Hc Ha].
    apply negb_true_iff in Hc. rewrite Hc, (IH Ha). reflexivity.
Qed.

Lemma free_of_app (sep : ascii) (a b : string) :
  CSVToJSON.free_of sep a = true ->
  CSVToJSON.free_of sep b = true ->
  CSVToJSON.free_of sep (a ++ b) = true.
Proof.
  induction a as [|c a IH]; simpl; [auto|].
  intros H Hb. apply andb_true_iff in H. destruct H as [Hc Ha].
  rewrite Hc. simpl. now apply IH.
Qed.

Lemma string_app_inv_tail (c : string) :
  forall a b : string, (a ++ c = b ++ c)%string -> a = b.
Proof.
  assert (Hlen : forall x y : string,
             String.length (x ++ y) = String.length x + String.length y).
  { induction x as [|ch x IH]; intros y; simpl; [reflexivity|now rewrite IH]. }
  induction a as [|x a IH]; intros b H.
  - destruct b as [|y b]; [reflexivity|].
    apply (f_equal String.length) in H. rewrite Hlen in H. simpl in H.
    rewrite Hlen in H. lia.
  - destruct b as [|y b].
    + apply (f_equal String.length) in H. simpl in H.
      rewrite Hlen in H. lia.
    + simpl in H. inversion H; subst. f_equal. now apply IH.
Qed.

Lemma split_toCSV (u : DatabaseExport.User) :
  comma_free u ->
  CSVToJSON.split "," (DatabaseExport.csv_line u)
  = [DatabaseExport.id u; DatabaseExport.name u; DatabaseExport.email u]
  /\ CSVToJSON.split "," (DatabaseExport.toCSV u)
     = [DatabaseExport.id u; DatabaseExport.name u;
        (DatabaseExport.email u ++ String RecordGrammar.newline "")%string].
Proof.
  intros (Hi & Hn & He).
  unfold DatabaseExport.csv_line, DatabaseExport.toCSV.
  change ","%string with (String ","%char EmptyString).
  cbn [String.append].
  rewrite !split_at_separator by assumption.
  rewrite split_of_free by exact He.
  rewrite split_of_free; [auto|].
  apply free_of_app; [exact He|reflexivity].
Qed.

(** X12. A record whose fields contain no comma comes back from its CSV
    line: the line cut at the commas is the three fields in order, so
    CSVToJSON, given the header id,name,email and the record's line
    without its line break, pushes one object with the record's id, name
    and email under these keys. On such records toCSV is one-to-one. *)
Theorem toCSV_round_trip :
  forall u : DatabaseExport.User,
    comma_free u ->
    DatabaseExport.toCSV u
    = (DatabaseExport.csv_line u ++ String RecordGrammar.newline "")%string
    /\ CSVToJSON.split "," (DatabaseExport.csv_line u)
       = [DatabaseExport.id u; DatabaseExport.name u; DatabaseExport.email u]
    /\ (exists obj,
          CSVToJSON.run ["id,name,email"; DatabaseExport.csv_line u] = [obj]
          /\ obj "id" = Some (Some (DatabaseExport.id u))
          /\ obj "name" = Some (Some (DatabaseExport.name u))
          /\ obj "email" = Some (Some (DatabaseExport.email u)))
    /\ (forall v : DatabaseExport.User,
          comma_free v ->
          DatabaseExport.toCSV u = DatabaseExport.toCSV v -> u = v).
Proof.
  intros u Hu.
  destruct (split_toCSV u Hu) as [Hline Hfull].
  assert (Hnl : DatabaseExport.toCSV u
                = (DatabaseExport.csv_line u
                     ++ String RecordGrammar.newline "")%string).
  { unfold DatabaseExport.toCSV, DatabaseExport.csv_line.
    now rewrite !string_app_assoc. }
  split; [exact Hnl|]. split; [exact Hline|]. split.
  - eexists. split.
    + unfold CSVToJSON.run.
      cbn [CSVToJSON.feed CSVToJSON._transform CSVToJSON.constructor
             CSVToJSON.headers List.app snd].
      rewrite Hline. reflexivity.
    + repeat split; reflexivity.
  - intros v Hv Heq.
    destruct (split_toCSV v Hv) as [_ Hfullv].
    rewrite Heq, Hfullv in Hfull.
    inversion Hfull as [[Hid Hname Hemail]].
    apply string_app_inv_tail in Hemail.
    destruct u, v; simpl in *; congruence.
Qed.

Lemma toCSV_round_trip_witness :
  let u := DatabaseExport.mkUser "7" "Ann" "ann@example.org" in
  CSVToJSON.split "," (DatabaseExport.csv_line u) = ["7"; "Ann"; "ann@example.org"]
  /\ exists obj,
       CSVToJSON.run ["id,name,email"; DatabaseExport.csv_line u] = [obj]
       /\ obj "email" = Some (Some "ann@example.org").
Proof.
  intros u.
  destruct (toCSV_round_trip u) as (_ & Hsplit & (obj & Hrun & _ & _ & He) & _).
  - repeat split; reflexivity.
  - split; [exact Hsplit|]. exists obj. split; [exact Hrun|exact He].
Defined.

(** ** The paging generator of the database export *)

Section PagedFacts.

Context {Row : Type}.
Variable step : nat.
Hypothesis step_pos : 0 < step.
Variable table : list Row.

(** The database answers every query with the rows from the offset on,
    at most [step] of them. *)
Variable query : nat -> list Row.
Hypothesis query_pages :
  forall offset, query offset = List.firstn step (List.skipn offset table).

Lemma page_empty_iff (offset : nat) :
  query offset = [] <-> List.length table <= offset.
Proof.
  rewrite query_pages. split.
  - intros H. apply (f_equal (@List.length Row)) in H.
    rewrite length_firstn, length_skipn in H. simpl in H. lia.
  - intros H. rewrite skipn_all2 by exact H. now destruct step.
Qed.

Lemma paged_S (fuel offset : nat) :
  DatabaseExport.paged query step (S fuel) offset
  = match query offset with
    | [] => ([], true)
    | r :: rs =>
        (r :: rs ++ fst (DatabaseExport.paged query step fuel (offset + step)),
         snd (DatabaseExport.paged query step fuel (offset + step)))
    end.
Proof.
  cbn [DatabaseExport.paged]. destruct (query offset); [reflexivity|].
  now destruct (DatabaseExport.paged query step fuel (offset + step)).
Qed.

Lemma queries_S (fuel offset : nat) :
  DatabaseExport.queries query step (S fuel) offset
  = match query offset with
    | [] => 1
    | _ :: _ => S (DatabaseExport.queries query step fuel (offset + step))
    end.
Proof. reflexivity. Qed.

Lemma paged_yields_rest (fuel : nat) :
  forall offset,
    List.length table <= offset + fuel * step ->
    DatabaseExport.paged query step (S fuel) offset
    = (List.skipn offset table, true).
Proof.
  induction fuel as [|fuel IH]; intros offset Hfuel; rewrite paged_S.
  - assert (He : query offset = []) by (apply page_empty_iff; lia).
    rewrite He. rewrite skipn_all2 by lia. reflexivity.
  - destruct (query offset) as [|r rs] eqn:Eq.
    + apply page_empty_iff in Eq. now rewrite skipn_all2.
    + rewrite IH by lia. cbn [fst snd]. f_equal.
      change (r :: rs ++ List.skipn (offset + step) table)
        with ((r :: rs) ++ List.skipn (offset + step) table).
      rewrite <- Eq, query_pages.
      replace (offset + step) with (step + offset) by lia.
      rewrite <- skipn_skipn. apply firstn_skipn.
Qed.

Lemma queries_count (fuel : nat) :
  forall offset,
    List.length table <= offset + fuel * step ->
    (DatabaseExport.queries query step (S fuel) offset - 1) * step
    < (List.length table - offset) + step
    /\ List.length table - offset
       <= (DatabaseExport.queries query step (S fuel) offset - 1) * step.
Proof.
  induction fuel as [|fuel IH]; intros offset Hfuel; rewrite queries_S.
  - assert (He : query offset = []) by (apply page_empty_iff; lia).
    rewrite He. simpl. lia.
  - destruct (query offset) as [|r rs] eqn:Eq.
    + apply page_empty_iff in Eq. simpl. lia.
    + assert (Hlt : offset < List.length table).
      { destruct (Nat.lt_ge_cases offset (List.length table)) as [H|H];
          [exact H|].
        apply page_empty_iff in H. congruence. }
      destruct (IH (offset + step)) as [H1 H2]; [lia|].
      set (q := DatabaseExport.queries query step (S fuel) (offset + step)) in *.
      assert (Hq : 1 <= q).
      { unfold q. rewrite queries_S.
        destruct (query (offset + step)); lia. }
      replace (S q - 1) with ((q - 1) + 1) by lia.
      rewrite Nat.mul_add_distr_r, Nat.mul_1_l.
      destruct (q - 1) as [|m]; [simpl in *; lia|].
      rewrite Nat.mul_succ_l in *. lia.
Qed.

End PagedFacts.

Lemma page_size_pos : 0 < DatabaseExport.page_size.
Proof. unfold DatabaseExport.page_size. apply Nat.lt_0_succ. Qed.

(** X13. Against a table whose rows do not change, and with enough
    queries allowed, the generator yields every row of the table exactly
    once, in the table's order, and then returns. It asks one query more
    than there are pages: the number of queries [q] satisfies
    (q - 1) * 1000 >= rows > (q - 2) * 1000, the last query being the one
    that is answered with no rows. *)
Theorem dbStream_yields_the_table :
  forall (Row : Type) (table : list Row) (fuel : nat),
    List.length table <= fuel * DatabaseExport.page_size ->
    let query := DatabaseExport.table_query table in
    let q := DatabaseExport.queries query DatabaseExport.page_size (S fuel) 0 in
    DatabaseExport.dbStream query (S fuel) = (table, true)
    /\ List.length table <= (q - 1) * DatabaseExport.page_size
    /\ (q - 1) * DatabaseExport.page_size
       < List.length table + DatabaseExport.page_size.
Proof.
  intros Row table fuel Hfuel query q.
  assert (Hq : forall offset,
             query offset
             = List.firstn DatabaseExport.page_size (List.skipn offset table))
    by reflexivity.
  split.
  - unfold DatabaseExport.dbStream.
    rewrite (paged_yields_rest DatabaseExport.page_size page_size_pos table
               query Hq fuel 0 Hfuel).
    reflexivity.
  - destruct (queries_count DatabaseExport.page_size page_size_pos table
                query Hq fuel 0 Hfuel) as [H1 H2].
    fold q in H1, H2. rewrite Nat.sub_0_r in H1, H2. split; assumption.
Qed.

Lemma dbStream_yields_the_table_witness :
  DatabaseExport.dbStream (DatabaseExport.table_query (seq 0 5)) 2
  = (seq 0 5, true).
Proof.
  apply (dbStream_yields_the_table nat (seq 0 5) 1).
  apply Nat.lt_le_incl. apply Nat.lt_lt_add_r.
  unfold DatabaseExport.page_size. apply Nat.leb_le. vm_compute. reflexivity.
Defined.

(** X14. The generator goes on for as long as the answers are not empty:
    against a database that answers every query with at least one row
    (one that ignores OFFSET, say) it never returns, whatever number of
    queries is allowed, and it has yielded at least one row per query. *)
Theorem dbStream_needs_an_empty_page :
  forall (Row : Type) (query : nat -> list Row) (fuel : nat),
    (forall offset, query offset <> []) ->
    snd (DatabaseExport.dbStream query fuel) = false
    /\ fuel <= List.length (fst (DatabaseExport.dbStream query fuel))
    /\ DatabaseExport.queries query DatabaseExport.page_size fuel 0 = fuel.
Proof.
  intros Row query fuel Hne. unfold DatabaseExport.dbStream.
  generalize 0 as offset. generalize DatabaseExport.page_size as step.
  intros step. induction fuel as [|fuel IH]; intros offset;
    cbn [DatabaseExport.paged DatabaseExport.queries].
  - repeat split; simpl; lia.
  - specialize (IH (offset + step)).
    destruct (query offset) as [|r rs] eqn:Eq; [now apply Hne in Eq|].
    destruct (DatabaseExport.paged query step fuel (offset + step))
      as [rest done].
    cbn [fst snd] in *. destruct IH as (Hd & Hl & Hq).
    split; [exact Hd|]. split.
    + rewrite length_app. simpl. lia.
    + now rewrite Hq.
Qed.

Lemma dbStream_needs_an_empty_page_witness :
  snd (DatabaseExport.dbStream (fun _ : nat => [0]) 3) = false
  /\ 3 <= List.length (fst (DatabaseExport.dbStream (fun _ : nat => [0]) 3)).
Proof.
  destruct (dbStream_needs_an_empty_page nat (fun _ => [0]) 3) as (H1 & H2 & _).
  - intros offset. discriminate.
  - split; assumption.
Defined.
